(** * corgi / hpipe: the wave scheduler, the child-process helper and the
    XML workflow parser, embedded in Rocq.

  The development follows the Go sources:
  - [GoInt]  : Go's 64-bit [int] as [Z] with explicit wrap-around;
  - [Sched]  : sched/sched.go ([NewSched], [Run], [genRunQueue],
               [runQueue], [getExec], [updateFailCount],
               [updateDependences], [checkDAG]);
  - [Exec]   : task/exec/util.go ([CmdExec]);
  - [Flow]   : xmlparser.go ([parseStepFromFile], [parseJobFromFile],
               [updateMap], [arrayToMap], [updateMapWithArray],
               [evalMap]). *)

From Stdlib Require Import ZArith Lia.
From stdpp Require Import base option list gmap strings fin_maps.

Local Open Scope Z_scope.

(** ** Go's [int] *)

Module GoInt.

(** Two's complement reduction to 64 bits. *)
Definition wrap (z : Z) : Z := (z + 2 ^ 63) mod 2 ^ 64 - 2 ^ 63.

Definition add (a b : Z) : Z := wrap (a + b).
Definition sub (a b : Z) : Z := wrap (a - b).

Definition inRange (z : Z) : Prop := - 2 ^ 63 <= z < 2 ^ 63.

Lemma wrap_inRange z : inRange (wrap z).
Proof.
  unfold inRange, wrap.
  pose proof (Z.mod_pos_bound (z + 2 ^ 63) (2 ^ 64) ltac:(lia)). lia.
Qed.

Lemma wrap_id z : inRange z -> wrap z = z.
Proof.
  unfold inRange, wrap. intros Hz.
  rewrite Z.mod_small by lia. lia.
Qed.

Lemma sub_1_pos z : 0 < z < 2 ^ 63 -> sub z 1 = z - 1.
Proof. intros Hz. unfold sub. apply wrap_id. unfold inRange. lia. Qed.

Lemma add_1_below z m : - 2 ^ 63 <= z -> z < m -> m < 2 ^ 63 -> add z 1 = z + 1.
Proof. intros ? ? ?. unfold add. apply wrap_id. unfold inRange. lia. Qed.

End GoInt.

(** ** The scheduler (sched/sched.go) *)

Module Sched.

(** *** Data model (package dag, package status, package config) *)

Inductive JobType := DummyJob | ScriptJob | HadoopJob | HiveJob | OdpsJob.
Inductive JobStatus := NotStarted | Started | Finished | Failed.

#[global] Instance JobType_eq_dec : EqDecision JobType.
Proof. solve_decision. Defined.
#[global] Instance JobStatus_eq_dec : EqDecision JobStatus.
Proof. solve_decision. Defined.

(** [dag.Job], restricted to the fields sched.go reads or writes.
    [Type_] is the field [Type] ([Type] is reserved in Rocq). *)
Record Job := mkJob {
  Name : string;
  Type_ : JobType;
  Post : list string;
  Status : JobStatus;
}.

Definition withStatus (s : JobStatus) (job : Job) : Job :=
  {| Name := Name job; Type_ := Type_ job; Post := Post job; Status := s |}.

Record Relation := mkRelation { NonStrict : bool }.

(** [dag.DAG].  [Jobs] is a [map[string]*Job]: the model stores the job
    objects in the map itself, so a map key doubles as the pointer to the
    object it holds (distinct keys hold distinct objects). *)
Record DAG := mkDAG {
  Jobs : gmap string Job;
  InDegrees : gmap string Z;
  Relations : gmap string (gmap string Relation);
}.

(** [status.StatusTracker]: the in-memory [Fails] counters and the
    persistent store of statuses, keyed by job name. *)
Record StatusTracker := mkTracker {
  Fails : gmap string Z;
  Statuses : gmap string JobStatus;
}.

(** Go's map read [m[k]]: the zero value when the key is absent. *)
Definition inDegree (d : DAG) (name : string) : Z :=
  default 0 (InDegrees d !! name).
Definition failCount (t : StatusTracker) (name : string) : Z :=
  default 0 (Fails t !! name).

(** Log lines of sched.go, kept structured. *)
Inductive LogMsg :=
| MsgMaxRetry (name : string) (max : Z)
| MsgRunJob (name : string)
| MsgResolveError (name : string)
| MsgCheckStatus (name : string) (s : JobStatus)
| MsgAlreadyFinished (name : string)
| MsgAlreadyStarted (name : string)
| MsgExecError (name : string)
| MsgJobFailed (name : string)
| MsgNoExecutor (t : JobType)
| MsgTrackerDump
| MsgAllJobsDone
| MsgSomeJobFailed.

Inductive LogLevel := Debug | Info | Warn | Error | Fatal.

(** What the scheduler does to the outside: log lines and calls into the
    tracker, the DAG builtins and the executors, in program order. *)
Inductive Event :=
| ELog (lvl : LogLevel) (msg : LogMsg)
| ESetBizdate
| EResolveJob (name : string)
| EGetStatus (name : string)
| ESetStatus (name : string) (s : JobStatus)
| ESetJobReport
| EExecRun (name : string).

(** What [jexec.Run(job)] did: it returned an error, or it returned nil
    and left the job (which it receives by pointer) with status [leaves]. *)
Inductive ExecResult := ExecError | ExecNil (leaves : JobStatus).

(** Everything sched.go consults but does not define: the configuration,
    whether [log.Fatal] of the repository's logger ends the process, the
    executor registry, and the behaviour of the collaborators at each
    wave and job.  Theorems quantify over all of it.  The answers of
    [ResolveJob] and of the executors are those of the run that took
    place: what they depend on inside a run (the builtins the workers of
    a wave share, the attributes [ResolveJob] rewrites) is not modelled,
    so nothing here compares two schedules of the workers of a wave. *)
Record World := mkWorld {
  MaxRetry : Z;
  fatalExits : bool;
  registered : JobType -> bool;
  mapOrder : nat -> list (string * Z) -> list (string * Z);
  resolveOk : nat -> string -> bool;
  getStatusOk : nat -> string -> bool;
  execRun : nat -> string -> ExecResult;
}.

(** Go ranges over a map in an unspecified order: any permutation. *)
Definition validOrder (W : World) : Prop :=
  forall w l, mapOrder W w l ≡ₚ l.

Record State := mkState {
  dag : DAG;
  tracker : StatusTracker;
  trace : list Event;
}.

(** *** genRunQueue *)

Definition ready (W : World) (t : StatusTracker) (in_ : Z) (job : Job) : bool :=
  bool_decide (in_ = 0) && bool_decide (Status job <> Finished) &&
  bool_decide (Status job <> Started) &&
  bool_decide (failCount t (Name job) < MaxRetry W).

Definition exhausted (W : World) (t : StatusTracker) (job : Job) : bool :=
  bool_decide (MaxRetry W <= failCount t (Name job)).

(** The body of [genRunQueue] over the entries of [d.InDegrees] in the
    order the range statement yields them.  [None] is the panic
    "no corresponding job".  The queue holds pointers to jobs of
    [d.Jobs], that is, their keys. *)
Fixpoint genRunQueueFrom (W : World) (d : DAG) (t : StatusTracker)
    (entries : list (string * Z)) : option (list string * list Event) :=
  match entries with
  | [] => Some ([], [])
  | (name, in_) :: rest =>
      match Jobs d !! name with
      | None => None
      | Some job =>
          match genRunQueueFrom W d t rest with
          | None => None
          | Some (queue, evs) =>
              Some ((if ready W t in_ job then name :: queue else queue),
                    (if exhausted W t job
                     then ELog Error (MsgMaxRetry (Name job) (MaxRetry W)) :: evs
                     else evs))
          end
      end
  end.

Definition genRunQueue (W : World) (w : nat) (d : DAG) (t : StatusTracker)
    : option (list string * list Event) :=
  genRunQueueFrom W d t (mapOrder W w (map_to_list (InDegrees d))).

(** Every key of [InDegrees] names a job: what the panic guards. *)
Definition inDegreesNamed (d : DAG) : Prop :=
  forall name in_, InDegrees d !! name = Some in_ -> is_Some (Jobs d !! name).

Definition readyP (W : World) (d : DAG) (t : StatusTracker) (name : string) : Prop :=
  exists job, Jobs d !! name = Some job /\
    InDegrees d !! name = Some 0 /\
    Status job <> Finished /\ Status job <> Started /\
    failCount t (Name job) < MaxRetry W.

(** *** The scheduler monad

    sched.go mutates the DAG and the tracker in place, may panic and may
    end the process; the loop of [Run] is bounded by fuel in the model. *)

Inductive Outcome (A : Type) :=
| Ret (a : A) (st : State)
| Panic
| Exit
| OutOfFuel.
Arguments Ret {A} a st.
Arguments Panic {A}.
Arguments Exit {A}.
Arguments OutOfFuel {A}.

Definition M (A : Type) : Type := State -> Outcome A.

#[global] Instance M_ret : MRet M := fun A a st => Ret a st.
#[global] Instance M_bind : MBind M := fun A B f m st =>
  match m st with
  | Ret a st' => f a st'
  | Panic => Panic
  | Exit => Exit
  | OutOfFuel => OutOfFuel
  end.

Definition panic {A} : M A := fun _ => Panic.
Definition exit {A} : M A := fun _ => Exit.
Definition outOfFuel {A} : M A := fun _ => OutOfFuel.

Definition emit (evs : list Event) : M unit := fun st =>
  Ret tt {| dag := dag st; tracker := tracker st; trace := trace st ++ evs |}.

Definition logf (lvl : LogLevel) (msg : LogMsg) : M unit := emit [ELog lvl msg].

(** [log.Fatal]: the logger is not under src/; it may end the process. *)
Definition fatal (W : World) (msg : LogMsg) : M unit :=
  logf Fatal msg;;
  if fatalExits W then exit else mret tt.

Definition getDAG : M DAG := fun st => Ret (dag st) st.
Definition getTracker : M StatusTracker := fun st => Ret (tracker st) st.

Definition modifyDAG (f : DAG -> DAG) : M unit := fun st =>
  Ret tt {| dag := f (dag st); tracker := tracker st; trace := trace st |}.
Definition modifyTracker (f : StatusTracker -> StatusTracker) : M unit := fun st =>
  Ret tt {| dag := dag st; tracker := f (tracker st); trace := trace st |}.

(** Reading a job through its pointer.  The pointers of a queue are taken
    from [d.Jobs], so they are never dangling in a run. *)
Definition deref (p : string) : M Job := fun st =>
  match Jobs (dag st) !! p with
  | Some job => Ret job st
  | None => Panic
  end.

Fixpoint forEach {A} (f : A -> M unit) (l : list A) : M unit :=
  match l with
  | [] => mret tt
  | x :: l' => f x;; forEach f l'
  end.

(** *** The tracker (package status) *)

(** Modelled from the spec: package status is not under src/.  Section 4.2:
    [GetStatus(job)] returns the persisted status, or [NotStarted] if
    none; the store is keyed by job name. *)
Definition GetStatus (t : StatusTracker) (job : Job) : JobStatus :=
  default NotStarted (Statuses t !! Name job).

(** Modelled from the spec: package status is not under src/.  Section 4.2:
    [SetStatus(job)] writes [job.Status] to the persistent store. *)
Definition SetStatus (job : Job) (t : StatusTracker) : StatusTracker :=
  {| Fails := Fails t; Statuses := <[Name job := Status job]> (Statuses t) |}.

(** *** runQueue *)

Definition putJob (p : string) (job : Job) (d : DAG) : DAG :=
  {| Jobs := <[p := job]> (Jobs d); InDegrees := InDegrees d;
     Relations := Relations d |}.

(** [job.Status = s], through the pointer [p]. *)
Definition setJobStatus (p : string) (s : JobStatus) : M unit :=
  job ← deref p; modifyDAG (putJob p (withStatus s job)).

(** [this.tracker.SetStatus(job)] *)
Definition trackerSetStatus (p : string) : M unit :=
  job ← deref p;
  emit [ESetStatus (Name job) (Status job)];;
  modifyTracker (SetStatus job).

(** [this.tracker.GetStatus(job)]; a non-nil error makes the caller panic. *)
Definition trackerGetStatus (W : World) (w : nat) (p : string) : M JobStatus :=
  job ← deref p;
  emit [EGetStatus (Name job)];;
  if getStatusOk W w p
  then t ← getTracker; mret (GetStatus t job)
  else panic.

(** [d.Builtins.SetJobReport(this.tracker.ToJson())] *)
Definition setJobReport : M unit := emit [ESetJobReport].

(** [this.getExec(job)]; the caller panics on the error. *)
Definition getExec (W : World) (job : Job) : M unit :=
  if registered W (Type_ job) then mret tt else panic.

(** The body of the goroutine that [runQueue] starts for [job] in wave [w]. *)
Definition runJob (W : World) (w : nat) (p : string) : M unit :=
  job ← deref p;
  logf Info (MsgRunJob (Name job));;
  emit [ESetBizdate];;
  emit [EResolveJob (Name job)];;
  if negb (resolveOk W w p) then
    logf Error (MsgResolveError (Name job));;
    setJobStatus p Failed;;
    trackerSetStatus p;;
    setJobReport
  else if decide (Type_ job = DummyJob) then
    setJobStatus p Finished
  else
    getExec W job;;
    s ← trackerGetStatus W w p;
    setJobStatus p s;;
    logf Debug (MsgCheckStatus (Name job) s);;
    match s with
    | Finished => logf Info (MsgAlreadyFinished (Name job))
    | Started => logf Warn (MsgAlreadyStarted (Name job))
    | _ =>
        setJobStatus p Started;;
        trackerSetStatus p;;
        setJobReport;;
        emit [EExecRun (Name job)];;
        match execRun W w p with
        | ExecError =>
            logf Error (MsgExecError (Name job));;
            setJobStatus p Failed
        | ExecNil s' => setJobStatus p s'
        end;;
        trackerSetStatus p;;
        setJobReport;;
        job' ← deref p;
        logf Debug (MsgCheckStatus (Name job') (Status job'))
    end.

(** [runQueue]: one goroutine per job, joined by the wait group.  The
    goroutines of a wave work on distinct jobs and none of them writes
    [InDegrees] or [Fails] (see [runFrame_runJob]); the model runs them
    one after the other, in queue order.  [runQueue] always returns nil,
    so the error branch of its caller is never taken. *)
Definition runQueue (W : World) (w : nat) (queue : list string) : M unit :=
  forEach (runJob W w) queue.

(** *** updateFailCount *)

Definition updateFails (job : Job) (t : StatusTracker) : StatusTracker :=
  match Status job with
  | Failed =>
      match Fails t !! Name job with
      | None =>
          {| Fails := <[Name job := 1]> (Fails t); Statuses := Statuses t |}
      | Some n =>
          {| Fails := <[Name job := GoInt.add n 1]> (Fails t);
             Statuses := Statuses t |}
      end
  | Finished =>
      match Fails t !! Name job with
      | Some _ =>
          {| Fails := delete (Name job) (Fails t); Statuses := Statuses t |}
      | None => t
      end
  | _ => t
  end.

Definition updateFailCount (job : Job) : M unit :=
  (if decide (Status job = Failed) then logf Error (MsgJobFailed (Name job))
   else mret tt);;
  modifyTracker (updateFails job).

(** *** updateDependences *)

Definition putInDegree (name : string) (v : Z) (d : DAG) : DAG :=
  {| Jobs := Jobs d; InDegrees := <[name := v]> (InDegrees d);
     Relations := Relations d |}.

(** [relation, ok := d.Relations[job.Name][post]]: reading a missing inner
    map gives [ok = false]. *)
Definition relationOf (d : DAG) (src tgt : string) : option Relation :=
  Relations d !! src ≫= fun inner => inner !! tgt.

(** The condition under which the else branch decrements. *)
Definition nonStrictExhausted (W : World) (t : StatusTracker) (job : Job)
    (d : DAG) (post : string) : bool :=
  match relationOf d (Name job) post with
  | Some relation =>
      NonStrict relation && bool_decide (Status job = Failed) &&
      bool_decide (MaxRetry W <= failCount t (Name job))
  | None => false
  end.

(** One iteration of the loop over [job.Post]. *)
Definition updateDependence (W : World) (t : StatusTracker) (job : Job)
    (d : DAG) (post : string) : DAG :=
  let in_ := inDegree d post in
  if decide (in_ = 0) then d
  else if decide (Status job = Finished) then putInDegree post (GoInt.sub in_ 1) d
  else if nonStrictExhausted W t job d post
       then putInDegree post (GoInt.sub in_ 1) d
       else d.

Definition updateDependencesOn (W : World) (t : StatusTracker) (job : Job)
    (posts : list string) (d : DAG) : DAG :=
  foldl (updateDependence W t job) d posts.

Definition updateDependences (W : World) (job : Job) : M unit :=
  t ← getTracker;
  modifyDAG (updateDependencesOn W t job (Post job)).

(** *** checkDAG *)

Inductive error :=
| ErrNoExecutor (t : JobType)
| ErrSomeJobFailed.

Fixpoint checkJobs (W : World) (jobs : list (string * Job)) : option error :=
  match jobs with
  | [] => None
  | (_, job) :: rest =>
      if registered W (Type_ job) then checkJobs W rest
      else Some (ErrNoExecutor (Type_ job))
  end.

(** Which unregistered type is reported depends on the order of the
    range; the model takes the order of [map_to_list]. *)
Definition checkDAG (W : World) (d : DAG) : option error :=
  checkJobs W (map_to_list (Jobs d)).

(** *** Run *)

(** [genRunQueue] as a step of the scheduler. *)
Definition genRunQueueM (W : World) (w : nat) : M (list string) :=
  d ← getDAG;
  t ← getTracker;
  match genRunQueue W w d t with
  | None => panic
  | Some (queue, evs) => emit evs;; mret queue
  end.

(** The post-wave loop of [Run]. *)
Definition bookkeep (W : World) (p : string) : M unit :=
  job ← deref p;
  updateFailCount job;;
  updateDependences W job.

Definition bookkeeping (W : World) (queue : list string) : M unit :=
  forEach (bookkeep W) queue.

(** One pass through the body of the [for len(queue) != 0] loop: it runs
    wave [w] and yields the queue of the next wave. *)
Definition oneWave (W : World) (w : nat) (queue : list string) : M (list string) :=
  runQueue W w queue;;
  bookkeeping W queue;;
  genRunQueueM W (S w).

(** The statements of [Run] after the loop. *)
Definition finish : M (option error) :=
  logf Info MsgTrackerDump;;
  t ← getTracker;
  if decide (size (Fails t) = 0%nat) then
    logf Info MsgAllJobsDone;; mret None
  else
    logf Error MsgSomeJobFailed;; mret (Some ErrSomeJobFailed).

Fixpoint waveLoop (W : World) (fuel : nat) (w : nat) (queue : list string)
    : M (option error) :=
  match queue with
  | [] => finish
  | _ :: _ =>
      match fuel with
      | O => outOfFuel
      | S fuel' =>
          queue' ← oneWave W w queue;
          waveLoop W fuel' (S w) queue'
      end
  end.

Definition Run (W : World) (fuel : nat) : M (option error) :=
  d ← getDAG;
  match checkDAG W d with
  | Some err =>
      match err with
      | ErrNoExecutor t => fatal W (MsgNoExecutor t)
      | ErrSomeJobFailed => mret tt
      end;;
      mret (Some err)
  | None =>
      queue ← genRunQueueM W 0;
      waveLoop W fuel 0 queue
  end.

(** *** The points of a run

    A run of [Run], after [checkDAG], seen one map write at a time.  The
    steps are built from the very functions [Run] is made of; see
    [Run_reach] for the connection. *)

Inductive Point :=
| AtTop (w : nat)
| InRunQueue (w : nat) (queue todo : list string)
| InBookkeeping (w : nat) (todo : list string)
| InDependences (w : nat) (p : string) (posts todo : list string)
| AtExit.

Definition withDAG (d : DAG) (st : State) : State :=
  {| dag := d; tracker := tracker st; trace := trace st |}.

Inductive step (W : World) : Point * State -> Point * State -> Prop :=
| step_gen w st q st' :
    genRunQueueM W w st = Ret q st' -> q <> [] ->
    step W (AtTop w, st) (InRunQueue w q q, st')
| step_exit w st st' :
    genRunQueueM W w st = Ret [] st' ->
    step W (AtTop w, st) (AtExit, st')
| step_job w q p todo st st' :
    runJob W w p st = Ret tt st' ->
    step W (InRunQueue w q (p :: todo), st) (InRunQueue w q todo, st')
| step_joined w q st :
    step W (InRunQueue w q [], st) (InBookkeeping w q, st)
| step_fail w p todo job st st' :
    Jobs (dag st) !! p = Some job ->
    updateFailCount job st = Ret tt st' ->
    step W (InBookkeeping w (p :: todo), st)
           (InDependences w p (Post job) todo, st')
| step_dep w p post posts todo job st :
    Jobs (dag st) !! p = Some job ->
    step W (InDependences w p (post :: posts) todo, st)
           (InDependences w p posts todo,
            withDAG (updateDependence W (tracker st) job (dag st) post) st)
| step_deps_done w p todo st :
    step W (InDependences w p [] todo, st) (InBookkeeping w todo, st)
| step_next w st :
    step W (InBookkeeping w [], st) (AtTop (S w), st).

Definition reach (W : World) (st0 : State) (pt : Point) (st : State) : Prop :=
  rtc (step W) (AtTop 0, st0) (pt, st).

(** *** Well-formedness of the inputs of [Run] *)

(** The DAG files every job under its own name. *)
Definition jobsByName (d : DAG) : Prop :=
  forall k job, Jobs d !! k = Some job -> Name job = k.

(** In-degrees are counts of edges held in Go ints. *)
Definition inDegreesCounted (d : DAG) : Prop :=
  forall name v, InDegrees d !! name = Some v -> 0 <= v < 2 ^ 63.

(** The recorded fail counters are Go ints that do not exceed [MaxRetry]. *)
Definition failsBounded (W : World) (t : StatusTracker) : Prop :=
  forall name n, Fails t !! name = Some n -> - 2 ^ 63 <= n <= MaxRetry W.

#[global] Instance inDegreesNamed_dec d : Decision (inDegreesNamed d).
Proof.
  change (Decision (map_Forall (fun name (_ : Z) => is_Some (Jobs d !! name))
                      (InDegrees d))).
  apply _.
Defined.
#[global] Instance jobsByName_dec d : Decision (jobsByName d).
Proof.
  change (Decision (map_Forall (fun k job => Name job = k) (Jobs d))).
  apply _.
Defined.
#[global] Instance inDegreesCounted_dec d : Decision (inDegreesCounted d).
Proof.
  change (Decision (map_Forall (fun (_ : string) v => 0 <= v < 2 ^ 63)
                      (InDegrees d))).
  apply _.
Defined.
#[global] Instance failsBounded_dec W t : Decision (failsBounded W t).
Proof.
  change (Decision (map_Forall (fun (_ : string) n => - 2 ^ 63 <= n <= MaxRetry W)
                      (Fails t))).
  apply _.
Defined.

(** *** Iterating waves *)

(** The queue after [k] passes through the loop body, started on wave [w]
    with [queue]. *)
Fixpoint wavesFrom (W : World) (k : nat) (w : nat) (queue : list string)
    : M (list string) :=
  match k with
  | O => mret queue
  | S k' => queue' ← oneWave W w queue; wavesFrom W k' (S w) queue'
  end.

(** The freshly generated queue after [k] waves of a run. *)
Definition afterWaves (W : World) (k : nat) : M (list string) :=
  queue ← genRunQueueM W 0; wavesFrom W k 0 queue.

Lemma ready_true W t in_ job :
  ready W t in_ job = true <->
  in_ = 0 /\ Status job <> Finished /\ Status job <> Started /\
  failCount t (Name job) < MaxRetry W.
Proof.
  unfold ready. rewrite !andb_true_iff, !bool_decide_eq_true. tauto.
Qed.

Lemma genRunQueueFrom_total W d t entries :
  (forall name in_, (name, in_) ∈ entries -> is_Some (Jobs d !! name)) ->
  is_Some (genRunQueueFrom W d t entries).
Proof.
  induction entries as [|[name in_] rest IH]; intros Hn; simpl.
  - eauto.
  - destruct (Hn name in_) as [job ->]; [left|].
    destruct IH as [[q evs] ->]; [|eauto].
    intros n i Hi. apply (Hn n i). by right.
Qed.

Lemma genRunQueueFrom_elem W d t entries q evs :
  genRunQueueFrom W d t entries = Some (q, evs) ->
  forall name, name ∈ q <->
    exists in_ job, (name, in_) ∈ entries /\ Jobs d !! name = Some job /\
      ready W t in_ job = true.
Proof.
  revert q evs.
  induction entries as [|[n i] rest IH]; intros q evs Hg name; simpl in Hg.
  - inversion Hg; subst. split.
    + intros H. by apply not_elem_of_nil in H.
    + intros (? & ? & H & _). by apply not_elem_of_nil in H.
  - destruct (Jobs d !! n) as [job|] eqn:Hj; [|done].
    destruct (genRunQueueFrom W d t rest) as [[q' evs']|] eqn:Hr; [|done].
    inversion Hg; subst; clear Hg.
    specialize (IH q' evs' eq_refl name).
    destruct (ready W t i job) eqn:Hrd.
    + rewrite elem_of_cons, IH. split.
      * intros [->|(i' & job' & Hin & Hj' & Hr')].
        -- exists i, job. split; [left|done].
        -- exists i', job'. split; [by right|done].
      * intros (i' & job' & Hin & Hj' & Hr').
        apply elem_of_cons in Hin as [Heq|Hin].
        -- inversion Heq; subst. by left.
        -- right. eauto.
    + rewrite IH. split.
      * intros (i' & job' & Hin & Hj' & Hr').
        exists i', job'. split; [by right|done].
      * intros (i' & job' & Hin & Hj' & Hr').
        apply elem_of_cons in Hin as [Heq|Hin]; [|eauto].
        inversion Heq; subst. congruence.
Qed.

Lemma genRunQueueFrom_NoDup W d t entries q evs :
  NoDup entries.*1 ->
  genRunQueueFrom W d t entries = Some (q, evs) ->
  NoDup q.
Proof.
  revert q evs.
  induction entries as [|[n i] rest IH]; intros q evs Hnd Hg; simpl in *.
  - inversion Hg. constructor.
  - destruct (Jobs d !! n) as [job|] eqn:Hj; [|done].
    destruct (genRunQueueFrom W d t rest) as [[q' evs']|] eqn:Hr; [|done].
    inversion Hg; subst; clear Hg.
    apply NoDup_cons in Hnd as [Hn Hnd].
    specialize (IH q' evs' Hnd eq_refl).
    destruct (ready W t i job); [|done].
    apply NoDup_cons. split; [|done].
    intros Hin. apply Hn.
    apply (genRunQueueFrom_elem _ _ _ _ _ _ Hr) in Hin
      as (i' & ? & Hin & _).
    apply list_elem_of_fmap. by exists (n, i').
Qed.

Lemma genRunQueue_sound W w d t q evs :
  validOrder W ->
  genRunQueue W w d t = Some (q, evs) ->
  NoDup q /\ forall name, name ∈ q <-> readyP W d t name.
Proof.
  intros Hord Hg. unfold genRunQueue in Hg.
  pose proof (Hord w (map_to_list (InDegrees d))) as Hperm.
  split.
  - eapply genRunQueueFrom_NoDup; [|exact Hg].
    rewrite Hperm. apply NoDup_fst_map_to_list.
  - intros name. rewrite (genRunQueueFrom_elem _ _ _ _ _ _ Hg name).
    unfold readyP. split.
    + intros (i & job & Hin & Hj & Hr).
      rewrite Hperm in Hin. apply elem_of_map_to_list in Hin.
      apply ready_true in Hr as (-> & ? & ? & ?). eauto 10.
    + intros (job & Hj & Hi & ? & ? & ?).
      exists 0, job. split; [|split; [done|by apply ready_true]].
      rewrite Hperm. by apply elem_of_map_to_list.
Qed.

(** C1.  At the top of a wave, for any order in which Go ranges over
    [InDegrees] and provided every key of [InDegrees] names a job (so
    that the range does not panic), [genRunQueue] returns a queue without
    repetition that contains a job exactly when its in-degree entry is
    0, its status is neither [Finished] nor [Started], and its fail count
    is strictly below [MaxRetry]; in particular a job whose fail count is
    at or above [MaxRetry] is not in the queue. *)
Theorem genRunQueue_ready_iff (W : World) (w : nat) (d : DAG) (t : StatusTracker) :
  validOrder W ->
  inDegreesNamed d ->
  exists q evs, genRunQueue W w d t = Some (q, evs) /\ NoDup q /\
    (forall name, name ∈ q <-> readyP W d t name) /\
    (forall name job, Jobs d !! name = Some job ->
       MaxRetry W <= failCount t (Name job) -> name ∉ q).
Proof.
  intros Hord Hnamed.
  destruct (genRunQueueFrom_total W d t (mapOrder W w (map_to_list (InDegrees d))))
    as [[q evs] Hg].
  { intros name i Hin. apply (Hnamed name i).
    apply elem_of_map_to_list. by rewrite <- (Hord w (map_to_list (InDegrees d))). }
  destruct (genRunQueue_sound W w d t q evs Hord Hg) as [Hnd Hiff].
  exists q, evs. split; [exact Hg|]. split; [exact Hnd|]. split; [exact Hiff|].
  intros name job Hj Hmax Hin.
  apply Hiff in Hin as (job' & Hj' & _ & _ & _ & Hlt).
  rewrite Hj in Hj'. inversion Hj'; subst. lia.
Qed.

(** *** updateDependences *)

(** The edge rule of [updateDependences], as a proposition. *)
Definition decrementRule (W : World) (t : StatusTracker) (u : Job) (d : DAG)
    (v : string) : Prop :=
  Status u = Finished \/
  (Status u = Failed /\ MaxRetry W <= failCount t (Name u) /\
   exists r, relationOf d (Name u) v = Some r /\ NonStrict r = true).

Lemma nonStrictExhausted_true W t u d v :
  nonStrictExhausted W t u d v = true <->
  Status u = Failed /\ MaxRetry W <= failCount t (Name u) /\
  exists r, relationOf d (Name u) v = Some r /\ NonStrict r = true.
Proof.
  unfold nonStrictExhausted.
  destruct (relationOf d (Name u) v) as [r|].
  - rewrite !andb_true_iff, !bool_decide_eq_true. split.
    + intros [[? ?] ?]. eauto.
    + intros (? & ? & r' & Hr & ?). inversion Hr; subst. done.
  - split; [done|]. intros (_ & _ & r & Hr & _). done.
Qed.

#[global] Instance decrementRule_dec W t u d v : Decision (decrementRule W t u d v).
Proof.
  destruct (decide (Status u = Finished)) as [Hf|Hf].
  - left. by left.
  - destruct (nonStrictExhausted W t u d v) eqn:He.
    + left. right. by apply nonStrictExhausted_true.
    + right. intros [?|H]; [done|].
      apply nonStrictExhausted_true in H. congruence.
Defined.

Lemma inDegree_putInDegree name v d m :
  inDegree (putInDegree name v d) m = if decide (name = m) then v else inDegree d m.
Proof.
  unfold inDegree, putInDegree. simpl. destruct (decide (name = m)) as [->|Hne].
  - by rewrite lookup_insert_eq.
  - by rewrite lookup_insert_ne.
Qed.

Lemma updateDependence_Jobs W t u d post :
  Jobs (updateDependence W t u d post) = Jobs d.
Proof. unfold updateDependence. repeat case_match; done. Qed.

Lemma updateDependence_Relations W t u d post :
  Relations (updateDependence W t u d post) = Relations d.
Proof. unfold updateDependence. repeat case_match; done. Qed.

Lemma updateDependencesOn_Jobs W t u posts d :
  Jobs (updateDependencesOn W t u posts d) = Jobs d.
Proof.
  unfold updateDependencesOn. revert d.
  induction posts as [|p ps IH]; intros d; simpl; [done|].
  by rewrite IH, updateDependence_Jobs.
Qed.

Lemma updateDependencesOn_Relations W t u posts d :
  Relations (updateDependencesOn W t u posts d) = Relations d.
Proof.
  unfold updateDependencesOn. revert d.
  induction posts as [|p ps IH]; intros d; simpl; [done|].
  by rewrite IH, updateDependence_Relations.
Qed.

Lemma decrementRule_Relations W t u d d' v :
  Relations d' = Relations d ->
  decrementRule W t u d' v <-> decrementRule W t u d v.
Proof. intros Hr. unfold decrementRule, relationOf. by rewrite Hr. Qed.

(** One iteration: the entry of [post] and nothing else. *)
Lemma updateDependence_inDegree W t u d post v :
  inDegree (updateDependence W t u d post) v =
  if decide (v = post /\ inDegree d v <> 0 /\ decrementRule W t u d v)
  then GoInt.sub (inDegree d v) 1 else inDegree d v.
Proof.
  unfold updateDependence.
  destruct (decide (inDegree d post = 0)) as [Hz|Hz].
  { case_decide as Hc; [|done]. destruct Hc as (-> & Hnz & _). done. }
  destruct (decide (Status u = Finished)) as [Hf|Hf].
  { rewrite inDegree_putInDegree.
    destruct (decide (post = v)) as [->|Hne].
    - rewrite decide_True; [done|]. split; [done|]. split; [done|]. by left.
    - rewrite decide_False; [done|]. intros (-> & _). done. }
  destruct (nonStrictExhausted W t u d post) eqn:He.
  - rewrite inDegree_putInDegree.
    destruct (decide (post = v)) as [->|Hne].
    + rewrite decide_True; [done|]. split; [done|]. split; [done|].
      right. by apply nonStrictExhausted_true.
    + rewrite decide_False; [done|]. intros (-> & _). done.
  - rewrite decide_False; [done|]. intros (-> & _ & [?|Hr]); [done|].
    apply nonStrictExhausted_true in Hr. congruence.
Qed.

Lemma updateDependencesOn_inDegree W t u posts d v :
  NoDup posts ->
  inDegree (updateDependencesOn W t u posts d) v =
  if decide (v ∈ posts /\ inDegree d v <> 0 /\ decrementRule W t u d v)
  then GoInt.sub (inDegree d v) 1 else inDegree d v.
Proof.
  unfold updateDependencesOn. revert d.
  induction posts as [|p ps IH]; intros d Hnd; cbn [foldl].
  { case_decide as Hc; [|done]. destruct Hc as (Hin & _).
    by apply not_elem_of_nil in Hin. }
  apply NoDup_cons in Hnd as [Hp Hnd].
  rewrite (IH _ Hnd). clear IH.
  pose proof (decrementRule_Relations W t u d
    (updateDependence W t u d p) v (updateDependence_Relations W t u d p)) as Hrule.
  rewrite updateDependence_inDegree.
  destruct (decide (v = p)) as [->|Hne].
  - rewrite (decide_False (P := p ∈ ps /\ _)) by (intros (? & _); done).
    apply decide_ext. rewrite elem_of_cons. tauto.
  - rewrite (decide_False (P := v = p /\ _)) by (intros (? & _); done).
    apply decide_ext. rewrite elem_of_cons, Hrule. tauto.
Qed.

(** C2.  [updateDependences(u, d)], for a job [u] whose successors are
    listed once each and a job [v] whose in-degree is a count held in a Go
    int: the in-degree of [v] goes down by one exactly when [v] is a
    successor of [u], its in-degree is not already 0, and either [u] is
    [Finished], or [u] is [Failed] with [Fails[u] >= MaxRetry] and the edge
    from [u] to [v] is recorded as [NonStrict]; in every other case the
    in-degree of [v] is unchanged.  The call touches nothing but
    [InDegrees]. *)
Theorem updateDependences_decrement_iff (W : World) (u : Job) (st : State) (v : string) :
  NoDup (Post u) ->
  0 <= inDegree (dag st) v < 2 ^ 63 ->
  exists st', updateDependences W u st = Ret tt st' /\
    tracker st' = tracker st /\ Jobs (dag st') = Jobs (dag st) /\
    Relations (dag st') = Relations (dag st) /\
    (v ∈ Post u /\ inDegree (dag st) v <> 0 /\
       decrementRule W (tracker st) u (dag st) v ->
     inDegree (dag st') v = inDegree (dag st) v - 1) /\
    (~ (v ∈ Post u /\ inDegree (dag st) v <> 0 /\
        decrementRule W (tracker st) u (dag st) v) ->
     inDegree (dag st') v = inDegree (dag st) v).
Proof.
  intros Hnd Hrange. eexists. split; [reflexivity|]. simpl.
  split; [done|]. split; [apply updateDependencesOn_Jobs|].
  split; [apply updateDependencesOn_Relations|].
  rewrite (updateDependencesOn_inDegree _ _ _ _ _ _ Hnd).
  split; intros Hc.
  - rewrite decide_True by done. apply GoInt.sub_1_pos. destruct Hc as (_ & ? & _). lia.
  - by rewrite decide_False.
Qed.


(** *** What the operations leave alone *)

Definition preserves {A} (R : relation State) (m : M A) : Prop :=
  forall st a st', m st = Ret a st' -> R st st'.

Lemma bind_Ret {A B} (m : M A) (f : A -> M B) st b st' :
  (m ≫= f) st = Ret b st' ->
  exists a st1, m st = Ret a st1 /\ f a st1 = Ret b st'.
Proof.
  unfold mbind, M_bind. destruct (m st) as [a st1| | |]; [|done..]. eauto.
Qed.

Lemma preserves_bind {A B} (R : relation State) `{!Transitive R}
    (m : M A) (f : A -> M B) :
  preserves R m -> (forall a, preserves R (f a)) -> preserves R (m ≫= f).
Proof.
  intros Hm Hf st b st' Hb.
  apply bind_Ret in Hb as (a & st1 & H1 & H2).
  etrans; [eapply Hm|eapply Hf]; eauto.
Qed.

Lemma preserves_ret {A} (R : relation State) `{!Reflexive R} (a : A) :
  preserves R (mret a).
Proof. intros st a' st' H. inversion H; subst. reflexivity. Qed.

Lemma preserves_panic {A} (R : relation State) : preserves R (@panic A).
Proof. intros st a st' H. done. Qed.

Lemma preserves_forEach {A} (R : relation State) `{!PreOrder R}
    (f : A -> M unit) (l : list A) :
  (forall x, preserves R (f x)) -> preserves R (forEach f l).
Proof.
  intros Hf. induction l as [|x l IH]; simpl.
  - apply preserves_ret; apply _.
  - apply preserves_bind; [apply _|apply Hf|intros _; apply IH].
Qed.

(** Two jobs that differ at most in [Status]. *)
Definition sameJob (j j' : Job) : Prop :=
  Name j' = Name j /\ Type_ j' = Type_ j /\ Post j' = Post j.

(** What a worker of [runQueue] may change: job statuses, the persistent
    store and the trace, which only grows; not the in-degrees, the edges,
    the fail counters or the identity of the jobs. *)
Definition runFrame (st st' : State) : Prop :=
  InDegrees (dag st') = InDegrees (dag st) /\
  Relations (dag st') = Relations (dag st) /\
  Fails (tracker st') = Fails (tracker st) /\
  (forall k, option_Forall2 sameJob (Jobs (dag st) !! k) (Jobs (dag st') !! k)) /\
  exists evs, trace st' = trace st ++ evs.

#[global] Instance runFrame_preorder : PreOrder runFrame.
Proof.
  split.
  - intros st. split; [done|]. split; [done|]. split; [done|]. split.
    + intros k. destruct (Jobs (dag st) !! k); constructor. by repeat split.
    + exists []. by rewrite app_nil_r.
  - intros s1 s2 s3 (Hi1 & Hr1 & Hf1 & Hj1 & evs1 & Ht1)
      (Hi2 & Hr2 & Hf2 & Hj2 & evs2 & Ht2).
    split; [congruence|]. split; [congruence|]. split; [congruence|]. split.
    + intros k. specialize (Hj1 k). specialize (Hj2 k).
      destruct Hj1 as [j1 j2 (? & ? & ?)|];
        inversion Hj2 as [? j3 (? & ? & ?)|]; subst; constructor.
      repeat split; congruence.
    + exists (evs1 ++ evs2). by rewrite Ht2, Ht1, app_assoc.
Qed.

Lemma runFrame_emit evs : preserves runFrame (emit evs).
Proof.
  intros st a st' H. inversion H; subst.
  destruct (reflexivity (R := runFrame) st) as (? & ? & ? & ? & _).
  split; [done|]. split; [done|]. split; [done|]. split; [done|].
  by exists evs.
Qed.

Lemma runFrame_deref p : preserves runFrame (deref p).
Proof.
  intros st a st' H. unfold deref in H.
  destruct (Jobs (dag st) !! p); inversion H; subst. reflexivity.
Qed.

Lemma runFrame_getTracker : preserves runFrame getTracker.
Proof. intros st a st' H. inversion H; subst. reflexivity. Qed.

Lemma runFrame_setJobStatus p s : preserves runFrame (setJobStatus p s).
Proof.
  intros st a st' H. unfold setJobStatus in H.
  apply bind_Ret in H as (job & st1 & Hd & Hm).
  unfold deref in Hd. destruct (Jobs (dag st) !! p) as [job'|] eqn:Hj; [|done].
  inversion Hd; subst. inversion Hm; subst. simpl.
  split; [done|]. split; [done|]. split; [done|]. split.
  - intros k. unfold putJob. simpl. destruct (decide (p = k)) as [->|Hne].
    + rewrite lookup_insert_eq, Hj. constructor. by repeat split.
    + rewrite lookup_insert_ne by done.
      destruct (Jobs (dag st1) !! k); constructor. by repeat split.
  - exists []. by rewrite app_nil_r.
Qed.

Lemma runFrame_modifyTracker_SetStatus job :
  preserves runFrame (modifyTracker (SetStatus job)).
Proof.
  intros st a st' H. inversion H; subst.
  destruct (reflexivity (R := runFrame) st) as (? & ? & ? & ? & ?).
  split; [done|]. split; [done|]. split; [done|]. by split.
Qed.

Ltac frame_step :=
  first
    [ apply runFrame_setJobStatus
    | apply runFrame_emit
    | apply runFrame_deref
    | apply runFrame_getTracker
    | apply runFrame_modifyTracker_SetStatus
    | apply preserves_panic
    | apply preserves_ret; apply _
    | apply preserves_bind; [apply _| |intros ?] ].

Lemma runFrame_trackerSetStatus p : preserves runFrame (trackerSetStatus p).
Proof. unfold trackerSetStatus. repeat frame_step. Qed.

Lemma runFrame_trackerGetStatus W w p : preserves runFrame (trackerGetStatus W w p).
Proof. unfold trackerGetStatus. repeat (frame_step || case_match). Qed.

Lemma runFrame_runJob W w p : preserves runFrame (runJob W w p).
Proof.
  unfold runJob, logf, setJobReport, getExec.
  repeat first
    [ apply runFrame_trackerSetStatus | apply runFrame_trackerGetStatus
    | frame_step | case_match ].
Qed.


(** *** Steps of a run and the in-degrees *)

Lemma genRunQueueM_Ret W w st q st' :
  genRunQueueM W w st = Ret q st' ->
  exists evs, genRunQueue W w (dag st) (tracker st) = Some (q, evs) /\
    dag st' = dag st /\ tracker st' = tracker st /\
    trace st' = trace st ++ evs.
Proof.
  unfold genRunQueueM, getDAG, getTracker, mbind, M_bind. simpl.
  destruct (genRunQueue W w (dag st) (tracker st)) as [[q' evs]|]; [|done].
  simpl. intros H. inversion H; subst. eauto.
Qed.

Lemma updateFailCount_Ret job st st' :
  updateFailCount job st = Ret tt st' ->
  dag st' = dag st /\ tracker st' = updateFails job (tracker st).
Proof.
  unfold updateFailCount, logf, emit, modifyTracker, mbind, M_bind, mret, M_ret.
  case_decide; simpl; intros Hret; inversion Hret; subst; done.
Qed.

Lemma updateDependence_counted W t u d post :
  inDegreesCounted d -> inDegreesCounted (updateDependence W t u d post).
Proof.
  intros Hc. unfold updateDependence.
  assert (Hin : 0 <= inDegree d post < 2 ^ 63).
  { unfold inDegree. destruct (InDegrees d !! post) as [v|] eqn:Hv; simpl.
    - by apply (Hc post).
    - lia. }
  assert (Hput : inDegree d post <> 0 ->
    inDegreesCounted (putInDegree post (GoInt.sub (inDegree d post) 1) d)).
  { intros Hnz name v. unfold putInDegree. simpl.
    destruct (decide (post = name)) as [->|Hne].
    - rewrite lookup_insert_eq. intros Hv. inversion Hv; subst.
      rewrite GoInt.sub_1_pos by lia. lia.
    - rewrite lookup_insert_ne by done. apply Hc. }
  repeat case_match; auto.
Qed.

Lemma step_inDegreesCounted W x y :
  step W x y -> inDegreesCounted (dag x.2) -> inDegreesCounted (dag y.2).
Proof.
  intros Hs Hc. unfold inDegreesCounted in *.
  destruct Hs as [w st q st' Hg _|w st st' Hg|w q p todo st st' Hr| |
                  w p todo job st st' Hj Hu|w p post posts todo job st Hj| |];
    simpl in *; try done.
  - apply genRunQueueM_Ret in Hg as (? & _ & -> & _). done.
  - apply genRunQueueM_Ret in Hg as (? & _ & -> & _). done.
  - apply runFrame_runJob in Hr as (-> & _). done.
  - apply updateFailCount_Ret in Hu as (-> & _). done.
  - by apply updateDependence_counted.
Qed.

(** C6.  If the in-degrees the DAG starts with are counts (each in
    [0, 2^63)), then at every point of a run of the scheduler (between
    any two map writes of the wave loop) [InDegrees[j] >= 0] holds for
    every job [j], whether [j] has an entry or not. *)
Theorem inDegrees_never_negative (W : World) (st0 : State) (pt : Point) (st : State) :
  inDegreesCounted (dag st0) ->
  reach W st0 pt st ->
  forall j, 0 <= inDegree (dag st) j.
Proof.
  intros H0 Hr.
  assert (Hc : inDegreesCounted (dag st)).
  { unfold reach in Hr.
    remember (AtTop 0, st0) as x eqn:Hx. remember (pt, st) as y eqn:Hy.
    assert (H0' : inDegreesCounted (dag x.2)) by (by subst x).
    clear Hx H0. revert pt st Hy.
    induction Hr as [x|x y z Hs Hr IH]; intros pt st Hy; subst.
    - exact H0'.
    - eapply IH; [|reflexivity]. eapply step_inDegreesCounted; eauto. }
  intros j. unfold inDegree.
  destruct (InDegrees (dag st) !! j) as [v|] eqn:Hv; simpl; [|lia].
  apply Hc in Hv. lia.
Qed.

(** *** Steps of a run and the fail counters *)

(** The jobs of the current wave whose fail counter is still to be
    updated. *)
Definition pending (pt : Point) : list string :=
  match pt with
  | AtTop _ | AtExit => []
  | InRunQueue _ queue _ => queue
  | InBookkeeping _ todo => todo
  | InDependences _ _ _ todo => todo
  end.

Definition retryInv (W : World) (pt : Point) (st : State) : Prop :=
  jobsByName (dag st) /\ failsBounded W (tracker st) /\
  NoDup (pending pt) /\
  (forall p, p ∈ pending pt -> failCount (tracker st) p < MaxRetry W) /\
  match pt with
  | InRunQueue _ queue todo => todo ⊆ queue
  | _ => True
  end.

Lemma runFrame_jobsByName st st' :
  runFrame st st' -> jobsByName (dag st) -> jobsByName (dag st').
Proof.
  intros (_ & _ & _ & Hj & _) Hn k job' Hk.
  specialize (Hj k). rewrite Hk in Hj.
  inversion Hj as [job ? (Hname & _) Hjob|]; subst.
  rewrite Hname. apply Hn. done.
Qed.

Lemma updateFails_other job t name :
  name <> Name job -> failCount (updateFails job t) name = failCount t name.
Proof.
  intros Hne. unfold updateFails, failCount.
  repeat case_match; simpl; try done.
  - by rewrite lookup_delete_ne.
  - by rewrite lookup_insert_ne.
  - by rewrite lookup_insert_ne.
Qed.

Lemma updateFails_bounded W job t :
  MaxRetry W < 2 ^ 63 ->
  failsBounded W t ->
  failCount t (Name job) < MaxRetry W ->
  failsBounded W (updateFails job t).
Proof.
  intros Hmax Hb Hlt. unfold updateFails, failCount in *.
  destruct (Status job); try done.
  - destruct (Fails t !! Name job) as [n|] eqn:Hn; [|done].
    intros name v. simpl. intros Hv.
    apply lookup_delete_Some in Hv as [_ Hv]. by apply (Hb name).
  - destruct (Fails t !! Name job) as [n|] eqn:Hn; simpl in *.
    + intros name v. simpl. destruct (decide (Name job = name)) as [<-|Hne].
      * rewrite lookup_insert_eq. intros Hv. inversion Hv; subst.
        pose proof (Hb _ _ Hn).
        rewrite (GoInt.add_1_below n (MaxRetry W)) by lia. lia.
      * rewrite lookup_insert_ne by done. apply Hb.
    + intros name v. simpl. destruct (decide (Name job = name)) as [<-|Hne].
      * rewrite lookup_insert_eq. intros Hv. inversion Hv; subst. lia.
      * rewrite lookup_insert_ne by done. apply Hb.
Qed.

Lemma step_retryInv W x y :
  validOrder W -> MaxRetry W < 2 ^ 63 ->
  step W x y -> retryInv W x.1 x.2 -> retryInv W y.1 y.2.
Proof.
  intros Hord Hmax Hs (Hn & Hb & Hnd & Hlt & Hsub). unfold retryInv.
  destruct Hs as [w st q st' Hg _|w st st' Hg|w q p todo st st' Hr|w q st|
                  w p todo job st st' Hj Hu|w p post posts todo job st Hj|
                  w p todo st|w st];
    simpl in *.
  - apply genRunQueueM_Ret in Hg as (evs & Hg & -> & -> & _).
    apply (genRunQueue_sound _ _ _ _ _ _ Hord) in Hg as [Hq Hiff].
    refine (conj Hn (conj Hb (conj Hq (conj _ _)))); [|done].
    intros p Hp. apply Hiff in Hp as (job & Hj & _ & _ & _ & Hf).
    by rewrite (Hn _ _ Hj) in Hf.
  - apply genRunQueueM_Ret in Hg as (evs & _ & -> & -> & _).
    refine (conj Hn (conj Hb (conj Hnd (conj Hlt I)))).
  - apply runFrame_runJob in Hr as Hfr.
    pose proof (runFrame_jobsByName _ _ Hfr Hn) as Hn'.
    destruct Hfr as (_ & _ & Hf & _).
    unfold failsBounded, failCount in *. rewrite Hf.
    refine (conj Hn' (conj Hb (conj Hnd (conj Hlt _)))).
    intros x Hx. apply Hsub. by right.
  - refine (conj Hn (conj Hb (conj Hnd (conj Hlt I)))).
  - apply updateFailCount_Ret in Hu as (-> & ->).
    apply NoDup_cons in Hnd as [Hp Hnd].
    pose proof (Hn _ _ Hj) as Hname.
    refine (conj Hn (conj _ (conj Hnd (conj _ I)))).
    + apply updateFails_bounded; [done..|]. rewrite Hname. apply Hlt. by left.
    + intros p' Hp'. rewrite updateFails_other.
      * apply Hlt. by right.
      * rewrite Hname. intros ->. done.
  - refine (conj _ (conj Hb (conj Hnd (conj Hlt I)))).
    intros k job'. rewrite updateDependence_Jobs. apply Hn.
  - refine (conj Hn (conj Hb (conj Hnd (conj Hlt I)))).
  - refine (conj Hn (conj Hb (conj _ (conj _ I)))); [constructor|].
    intros p Hp. by apply not_elem_of_nil in Hp.
Qed.

(** C4.  For a run started from a DAG that files every job under its own
    name and a tracker whose recorded fail counters are ints not above
    [MaxRetry] (an empty [Fails] in particular), with [MaxRetry] itself a
    Go int: at every point of the run every recorded [Fails[j]] is at most
    [MaxRetry] (and so is the value Go reads for an absent key, 0, when
    [MaxRetry] is not negative), and while the workers of a wave are being
    started every job still to be dispatched belongs to the queue of the
    wave, and every job of that queue has a fail count strictly below
    [MaxRetry]. *)
Theorem fails_never_exceed_MaxRetry (W : World) (st0 : State) (pt : Point) (st : State) :
  validOrder W ->
  MaxRetry W < 2 ^ 63 ->
  jobsByName (dag st0) ->
  failsBounded W (tracker st0) ->
  reach W st0 pt st ->
  (forall j n, Fails (tracker st) !! j = Some n -> n <= MaxRetry W) /\
  (0 <= MaxRetry W -> forall j, failCount (tracker st) j <= MaxRetry W) /\
  (forall w queue todo,
     pt = InRunQueue w queue todo ->
     todo ⊆ queue /\
     forall p job, p ∈ queue -> Jobs (dag st) !! p = Some job ->
       failCount (tracker st) (Name job) < MaxRetry W).
Proof.
  intros Hord Hmax Hn0 Hb0 Hr.
  assert (Hinv : retryInv W pt st).
  { unfold reach in Hr.
    remember (AtTop 0, st0) as x eqn:Hx. remember (pt, st) as y eqn:Hy.
    assert (H0 : retryInv W x.1 x.2).
    { subst x. refine (conj Hn0 (conj Hb0 (conj _ (conj _ I)))); [constructor|].
      intros p Hp. by apply not_elem_of_nil in Hp. }
    clear Hx Hn0 Hb0. revert pt st Hy.
    induction Hr as [x|x y z Hs Hr IH]; intros pt st Hy; subst.
    - exact H0.
    - eapply IH; [|reflexivity]. eapply step_retryInv; eauto. }
  destruct Hinv as (Hn & Hb & Hnd & Hlt & Hsub).
  split; [|split].
  - intros j n Hj. apply Hb in Hj. lia.
  - intros Hpos j. unfold failCount.
    destruct (Fails (tracker st) !! j) as [n|] eqn:Hj; simpl; [|lia].
    apply Hb in Hj. lia.
  - intros w queue todo ->. simpl in *. split; [exact Hsub|].
    intros p job Hp Hj. rewrite (Hn _ _ Hj). by apply Hlt.
Qed.


(** *** [Run] and the points of a run *)

Lemma runQueue_steps W w q todo st st' :
  runQueue W w todo st = Ret tt st' ->
  rtc (step W) (InRunQueue w q todo, st) (InRunQueue w q [], st').
Proof.
  unfold runQueue. revert st.
  induction todo as [|p todo IH]; intros st Hr; simpl in Hr.
  - inversion Hr; subst. reflexivity.
  - apply bind_Ret in Hr as ([] & st1 & H1 & H2).
    eapply rtc_l; [by apply step_job|]. by apply IH.
Qed.

Lemma dependences_steps W w p job posts todo st :
  Jobs (dag st) !! p = Some job ->
  rtc (step W) (InDependences w p posts todo, st)
    (InDependences w p [] todo,
     withDAG (updateDependencesOn W (tracker st) job posts (dag st)) st).
Proof.
  revert st. induction posts as [|post posts IH]; intros st Hj.
  - destruct st. reflexivity.
  - eapply rtc_l; [by eapply step_dep|].
    specialize (IH (withDAG (updateDependence W (tracker st) job (dag st) post) st)).
    simpl in IH. rewrite updateDependence_Jobs in IH. by apply IH.
Qed.

Lemma bookkeeping_steps W w todo st st' :
  bookkeeping W todo st = Ret tt st' ->
  rtc (step W) (InBookkeeping w todo, st) (InBookkeeping w [], st').
Proof.
  unfold bookkeeping. revert st.
  induction todo as [|p todo IH]; intros st Hr; simpl in Hr.
  - inversion Hr; subst. reflexivity.
  - apply bind_Ret in Hr as ([] & st2 & Hb & Hrest).
    unfold bookkeep in Hb.
    apply bind_Ret in Hb as (job & st0 & Hd & Hb).
    unfold deref in Hd. destruct (Jobs (dag st) !! p) as [job'|] eqn:Hj; [|done].
    inversion Hd; subst job' st0; clear Hd.
    apply bind_Ret in Hb as ([] & st1 & Hf & Hdep).
    eapply rtc_l; [by eapply step_fail|].
    pose proof (updateFailCount_Ret _ _ _ Hf) as [Hdag _].
    etrans; [apply (dependences_steps W w p job); by rewrite Hdag|].
    inversion Hdep; subst st2.
    eapply rtc_l; [apply step_deps_done|]. by apply IH.
Qed.

Lemma oneWave_steps W w q st q' st' :
  oneWave W w q st = Ret q' st' ->
  exists st1, rtc (step W) (InRunQueue w q q, st) (AtTop (S w), st1) /\
    genRunQueueM W (S w) st1 = Ret q' st'.
Proof.
  unfold oneWave. intros H.
  apply bind_Ret in H as ([] & st1 & Hrun & H).
  apply bind_Ret in H as ([] & st2 & Hbook & Hgen).
  exists st2. split; [|done].
  etrans; [by apply runQueue_steps|].
  eapply rtc_l; [apply step_joined|].
  etrans; [by apply bookkeeping_steps|].
  apply rtc_once, step_next.
Qed.

Lemma waveLoop_reach W fuel w q st0 st r st' :
  genRunQueueM W w st0 = Ret q st ->
  waveLoop W fuel w q st = Ret r st' ->
  exists stk, rtc (step W) (AtTop w, st0) (AtExit, stk) /\
    finish stk = Ret r st'.
Proof.
  revert w q st0 st.
  induction fuel as [|fuel IH]; intros w q st0 st Hg Hl;
    destruct q as [|p q]; simpl in Hl; try done.
  - exists st. split; [|done]. by apply rtc_once, step_exit.
  - exists st. split; [|done]. by apply rtc_once, step_exit.
  - apply bind_Ret in Hl as (q' & st1 & Hw & Hl).
    apply oneWave_steps in Hw as (st2 & Hsteps & Hg').
    destruct (IH _ _ _ _ Hg' Hl) as (stk & Hk & Hfin).
    exists stk. split; [|done].
    eapply rtc_l; [by apply step_gen|]. by etrans.
Qed.

Lemma Run_reach W fuel st0 r st' :
  checkDAG W (dag st0) = None ->
  Run W fuel st0 = Ret r st' ->
  exists stk, reach W st0 AtExit stk /\ finish stk = Ret r st'.
Proof.
  intros Hc Hr. unfold Run in Hr.
  apply bind_Ret in Hr as (d & st & Hd & Hr). inversion Hd; subst d st.
  rewrite Hc in Hr.
  apply bind_Ret in Hr as (q & st & Hg & Hl).
  by eapply waveLoop_reach.
Qed.

(** *** When [Run] returns *)

Lemma finish_Ret stk :
  exists st', finish stk =
    Ret (if decide (Fails (tracker stk) = ∅) then None
         else Some ErrSomeJobFailed) st' /\
    dag st' = dag stk /\ tracker st' = tracker stk.
Proof.
  unfold finish, logf, emit, getTracker, mbind, M_bind, mret, M_ret. simpl.
  destruct (decide (size (Fails (tracker stk)) = 0%nat)) as [Hs|Hs].
  - apply map_size_empty_iff in Hs. rewrite decide_True by done.
    eexists. simpl. by split.
  - rewrite decide_False.
    + eexists. simpl. by split.
    + intros He. apply Hs. by apply map_size_empty_iff.
Qed.

Lemma waveLoop_Ret_iff W fuel w q st r st' :
  waveLoop W fuel w q st = Ret r st' <->
  exists k stk, (k <= fuel)%nat /\ wavesFrom W k w q st = Ret [] stk /\
    (forall i, (i < k)%nat ->
       exists qi sti, wavesFrom W i w q st = Ret qi sti /\ qi <> []) /\
    finish stk = Ret r st'.
Proof.
  revert w q st. induction fuel as [|fuel IH]; intros w q st.
  - destruct q as [|p q]; simpl.
    + split.
      * intros Hf. exists 0%nat, st. split; [lia|]. split; [done|].
        split; [|done]. intros i Hi. lia.
      * intros (k & stk & Hk & Hw & _ & Hf).
        assert (k = 0%nat) as -> by lia. simpl in Hw.
        inversion Hw; subst. done.
    + split; [done|].
      intros (k & stk & Hk & Hw & _ & Hf).
      assert (k = 0%nat) as -> by lia. simpl in Hw. inversion Hw.
  - destruct q as [|p q]; simpl.
    + split.
      * intros Hf. exists 0%nat, st. split; [lia|]. split; [done|].
        split; [|done]. intros i Hi. lia.
      * intros (k & stk & Hk & Hw & Hne & Hf).
        destruct k as [|k].
        -- simpl in Hw. inversion Hw; subst. done.
        -- destruct (Hne 0%nat ltac:(lia)) as (qi & sti & H0 & Hq).
           simpl in H0. inversion H0; subst. done.
    + split.
      * intros Hl. apply bind_Ret in Hl as (q' & st1 & Hw & Hl).
        apply IH in Hl as (k & stk & Hk & Hws & Hne & Hf).
        exists (S k), stk. split; [lia|]. split; [|split; [|done]].
        -- simpl. unfold mbind, M_bind. by rewrite Hw.
        -- intros [|i] Hi.
           ++ exists (p :: q), st. by split.
           ++ destruct (Hne i ltac:(lia)) as (qi & sti & Hi' & Hq).
              exists qi, sti. split; [|done].
              simpl. unfold mbind, M_bind. by rewrite Hw.
      * intros (k & stk & Hk & Hw & Hne & Hf).
        destruct k as [|k]; [simpl in Hw; inversion Hw|].
        simpl in Hw. apply bind_Ret in Hw as (q' & st1 & Hw & Hws).
        unfold mbind, M_bind. rewrite Hw. apply IH.
        exists k, stk. split; [lia|]. split; [done|]. split; [|done].
        intros i Hi. destruct (Hne (S i) ltac:(lia)) as (qi & sti & Hi' & Hq).
        simpl in Hi'. unfold mbind, M_bind in Hi'. rewrite Hw in Hi'. eauto.
Qed.

(** C3.  Once [checkDAG] has passed, [Run] returns exactly when some
    freshly generated ready queue is empty: it returns after [k] waves if
    and only if the queue generated after each of the first [k] waves
    [0 .. k-1] was non-empty and the one generated after wave [k] is
    empty (and the fuel of the model covers [k] waves).  What it then
    returns is nil when the [Fails] map is empty and the error
    "some job failed" otherwise. *)
Theorem Run_returns_iff_queue_empty (W : World) (fuel : nat) (st : State)
    (r : option error) (st' : State) :
  checkDAG W (dag st) = None ->
  (Run W fuel st = Ret r st' <->
   exists k stk, (k <= fuel)%nat /\ afterWaves W k st = Ret [] stk /\
     (forall i, (i < k)%nat ->
        exists qi sti, afterWaves W i st = Ret qi sti /\ qi <> []) /\
     finish stk = Ret r st') /\
  (forall stk, exists st'', finish stk =
     Ret (if decide (Fails (tracker stk) = ∅) then None
          else Some ErrSomeJobFailed) st'').
Proof.
  intros Hc. split.
  - unfold Run, afterWaves, getDAG, mbind, M_bind. rewrite Hc.
    destruct (genRunQueueM W 0 st) as [q st1| | |] eqn:Hg.
    + rewrite waveLoop_Ret_iff. done.
    + split; [done|]. intros (k & stk & _ & Hw & _). done.
    + split; [done|]. intros (k & stk & _ & Hw & _). done.
    + split; [done|]. intros (k & stk & _ & Hw & _). done.
  - intros stk. destruct (finish_Ret stk) as (st'' & Hf & _). eauto.
Qed.


(** *** Per-job dispatch *)

(** The first things a worker does, for any job. *)
Definition dispatchPrefix (job : Job) : list Event :=
  [ELog Info (MsgRunJob (Name job)); ESetBizdate; EResolveJob (Name job)].

Definition isTrackerCall (e : Event) : bool :=
  match e with
  | EGetStatus _ | ESetStatus _ _ => true
  | _ => false
  end.

Ltac run_worker :=
  unfold runJob, trackerGetStatus, trackerSetStatus, setJobStatus,
    setJobReport, getExec, logf, emit, deref, modifyDAG, modifyTracker,
    getTracker, panic, mbind, M_bind, mret, M_ret; simpl.

Lemma runJob_unresolved W w p st job :
  Jobs (dag st) !! p = Some job ->
  resolveOk W w p = false ->
  runJob W w p st = Ret tt
    {| dag := putJob p (withStatus Failed job) (dag st);
       tracker := SetStatus (withStatus Failed job) (tracker st);
       trace := trace st ++ dispatchPrefix job ++
         [ELog Error (MsgResolveError (Name job));
          ESetStatus (Name job) Failed; ESetJobReport] |}.
Proof.
  intros Hj Hres. run_worker. rewrite Hj. simpl. rewrite Hres. simpl.
  rewrite Hj. simpl. rewrite lookup_insert_eq. simpl.
  by rewrite <- !app_assoc.
Qed.

Lemma runJob_dummy_resolved W w p st job :
  Jobs (dag st) !! p = Some job ->
  Type_ job = DummyJob ->
  resolveOk W w p = true ->
  runJob W w p st = Ret tt
    {| dag := putJob p (withStatus Finished job) (dag st);
       tracker := tracker st;
       trace := trace st ++ dispatchPrefix job |}.
Proof.
  intros Hj Hty Hres. run_worker. rewrite Hj. simpl. rewrite Hres. simpl.
  rewrite decide_True by done. simpl. rewrite Hj. simpl.
  by rewrite <- !app_assoc.
Qed.

Lemma runJob_prefix W w p st st' :
  runJob W w p st = Ret tt st' ->
  exists job rest, Jobs (dag st) !! p = Some job /\
    trace st' = trace st ++ dispatchPrefix job ++ rest.
Proof.
  unfold runJob. intros H.
  apply bind_Ret in H as (job & s0 & Hd & H).
  unfold deref in Hd. destruct (Jobs (dag st) !! p) as [job'|] eqn:Hj; [|done].
  inversion Hd; subst job' s0; clear Hd.
  apply bind_Ret in H as ([] & s1 & H1 & H). inversion H1; subst s1; clear H1.
  apply bind_Ret in H as ([] & s2 & H2 & H). inversion H2; subst s2; clear H2.
  apply bind_Ret in H as ([] & s3 & H3 & H). inversion H3; subst s3; clear H3.
  assert (Hfr : runFrame
    {| dag := dag st; tracker := tracker st;
       trace := ((trace st ++ [ELog Info (MsgRunJob (Name job))]) ++
                 [ESetBizdate]) ++ [EResolveJob (Name job)] |} st').
  { match type of H with ?m ?s0 = Ret _ _ =>
      cut (preserves runFrame m); [intros Hp; exact (Hp _ _ _ H)|]
    end.
    unfold logf, setJobReport, getExec.
    repeat first
      [ apply runFrame_trackerSetStatus | apply runFrame_trackerGetStatus
      | frame_step | case_match ]. }
  destruct Hfr as (_ & _ & _ & _ & rest & Ht). simpl in Ht.
  exists job, rest. split; [done|]. rewrite Ht.
  unfold dispatchPrefix. by rewrite <- !app_assoc.
Qed.

(** C10.  In the worker of [runQueue], [ResolveJob] comes first: whenever
    a dispatch returns, the events it added begin with the run-job log
    line, [SetBizdate] and the call of [ResolveJob], none of which is a
    tracker call.  Hence for every job whose resolution fails, whatever
    its persisted status (also [Finished]), the worker sets the job to
    [Failed] and calls [SetStatus] with it without ever calling
    [GetStatus]; the persisted status of the job is [Failed] afterwards. *)
Theorem resolve_failure_overwrites_persisted (W : World) (w : nat) (p : string) (st : State) (job : Job) :
  Jobs (dag st) !! p = Some job ->
  (forall st', runJob W w p st = Ret tt st' ->
     exists rest, trace st' = trace st ++ dispatchPrefix job ++ rest /\
       forallb (fun e => negb (isTrackerCall e)) (dispatchPrefix job) = true) /\
  (resolveOk W w p = false ->
   exists st', runJob W w p st = Ret tt st' /\
     Jobs (dag st') !! p = Some (withStatus Failed job) /\
     trace st' = trace st ++ dispatchPrefix job ++
       [ELog Error (MsgResolveError (Name job));
        ESetStatus (Name job) Failed; ESetJobReport] /\
     Statuses (tracker st') !! Name job = Some Failed /\
     GetStatus (tracker st') job = Failed).
Proof.
  intros Hj. split.
  - intros st' Hr. apply runJob_prefix in Hr as (job' & rest & Hj' & Ht).
    rewrite Hj in Hj'. inversion Hj'; subst job'. eauto.
  - intros Hres. eexists. split; [by apply runJob_unresolved|]. simpl.
    unfold GetStatus. simpl. rewrite !lookup_insert_eq. done.
Qed.

(** The reading of "a Dummy job is set to Finished without any tracker
    call" that quantifies over every dispatched Dummy job. *)
Definition dummyUntracked (W : World) (w : nat) (p : string) (st : State) : Prop :=
  forall job st', Jobs (dag st) !! p = Some job ->
    Type_ job = DummyJob ->
    runJob W w p st = Ret tt st' ->
    Status <$> Jobs (dag st') !! p = Some Finished /\
    Statuses (tracker st') = Statuses (tracker st) /\
    exists evs, trace st' = trace st ++ evs /\
      forallb (fun e => negb (isTrackerCall e)) evs = true.

(** A Dummy synchronisation point whose late binding fails. *)
Definition syncJob : Job := mkJob "sync" DummyJob [] NotStarted.
Definition syncState : State :=
  {| dag := {| Jobs := {["sync" := syncJob]};
               InDegrees := {["sync" := 0]};
               Relations := ∅ |};
     tracker := {| Fails := ∅; Statuses := ∅ |};
     trace := [] |}.
Definition unresolvedWorld : World :=
  {| MaxRetry := 3; fatalExits := false; registered := fun _ => true;
     mapOrder := fun _ l => l; resolveOk := fun _ _ => false;
     getStatusOk := fun _ _ => true;
     execRun := fun _ _ => ExecNil Finished |}.

(** Counterexample to the unconditional reading: the Dummy job "sync",
    dispatched when [ResolveJob] fails, ends [Failed] and is written to the
    persistent store through [SetStatus]. *)
Lemma dummy_unresolved_is_tracked :
  ~ dummyUntracked unresolvedWorld 0 "sync" syncState /\
  exists st', runJob unresolvedWorld 0 "sync" syncState = Ret tt st' /\
    Status <$> Jobs (dag st') !! "sync" = Some Failed /\
    Statuses (tracker st') !! "sync" = Some Failed /\
    ESetStatus "sync" Failed ∈ trace st'.
Proof.
  assert (Hj : Jobs (dag syncState) !! "sync" = Some syncJob) by reflexivity.
  pose proof (runJob_unresolved unresolvedWorld 0 "sync" syncState syncJob
                Hj eq_refl) as Hr.
  split.
  - intros Hd. destruct (Hd _ _ Hj eq_refl Hr) as [Hs _].
    simpl in Hs. rewrite lookup_insert_eq in Hs. discriminate.
  - eexists. split; [exact Hr|]. simpl. rewrite !lookup_insert_eq.
    split; [done|]. split; [done|].
    apply list_elem_of_In. simpl. tauto.
Qed.

(** C9 (amended).  A dispatched job of type Dummy never has its persisted
    status read: no dispatch of it calls [GetStatus], so the
    already-finished and already-started checks never skip it.  When its
    [ResolveJob] succeeds the worker sets it to [Finished] and makes no
    tracker call at all, leaving the persistent store as it was; [SetStatus]
    is called for a Dummy job only on the path where [ResolveJob] fails. *)
Theorem dummy_job_dispatch (W : World) (w : nat) (p : string) (st : State) (job : Job) :
  Jobs (dag st) !! p = Some job ->
  Type_ job = DummyJob ->
  exists st' evs, runJob W w p st = Ret tt st' /\
    trace st' = trace st ++ evs /\
    (forall n, EGetStatus n ∉ evs) /\
    (resolveOk W w p = true ->
     Jobs (dag st') !! p = Some (withStatus Finished job) /\
     tracker st' = tracker st /\
     forallb (fun e => negb (isTrackerCall e)) evs = true).
Proof.
  intros Hj Hty. destruct (resolveOk W w p) eqn:Hres.
  - eexists _, _. split; [by apply runJob_dummy_resolved|]. simpl.
    split; [done|]. split.
    + intros n Hin. apply list_elem_of_In in Hin. simpl in Hin.
      intuition discriminate.
    + intros _. unfold putJob. simpl. by rewrite lookup_insert_eq.
  - eexists _, _. split; [by apply runJob_unresolved|]. simpl.
    split; [done|]. split; [|done].
    intros n Hin. apply list_elem_of_In in Hin. simpl in Hin.
    intuition discriminate.
Qed.


(** *** The resume-after-crash scenario (spec section 8, scenario 5)

    Jobs A -> B -> C -> D over strict edges, all scripts.  A first run
    finished A and B and was killed during C, so the persistent store
    holds A, B as [Finished] and C as [Started].  The second run starts
    from fresh job objects and an empty [Fails]. *)

Definition scriptJob (name : string) (post : list string) : Job :=
  {| Name := name; Type_ := ScriptJob; Post := post; Status := NotStarted |}.

Definition resumeDAG : DAG :=
  {| Jobs := list_to_map [("A", scriptJob "A" ["B"]); ("B", scriptJob "B" ["C"]);
                          ("C", scriptJob "C" ["D"]); ("D", scriptJob "D" [])];
     InDegrees := list_to_map [("A", 0); ("B", 1); ("C", 1); ("D", 1)];
     Relations := ∅ |}.

Definition resumeTracker : StatusTracker :=
  {| Fails := ∅;
     Statuses := list_to_map [("A", Finished); ("B", Finished); ("C", Started)] |}.

Definition resumeState : State :=
  {| dag := resumeDAG; tracker := resumeTracker; trace := [] |}.

(** Every collaborator works: resolution succeeds, the store can be read,
    every executor is registered and returns nil leaving [Finished]. *)
Definition resumeWorld : World :=
  {| MaxRetry := 3; fatalExits := false; registered := fun _ => true;
     mapOrder := fun _ l => l; resolveOk := fun _ _ => true;
     getStatusOk := fun _ _ => true;
     execRun := fun _ _ => ExecNil Finished |}.

Definition resumeFinal : State :=
  match Run resumeWorld 4 resumeState with
  | Ret _ st => st
  | _ => resumeState
  end.

Ltac by_compute := apply (bool_decide_unpack _); vm_compute; exact I.

(** C5.  The second run of the scenario, evaluated: A and B are skipped as
    already finished, C is skipped with the already-started warning, D
    keeps in-degree 1 and is never dispatched, no executor runs, and
    [Run] logs "All jobs done" and returns nil. *)
Theorem resume_run_returns_nil :
  Run resumeWorld 4 resumeState = Ret None resumeFinal /\
  trace resumeFinal =
    [ELog Info (MsgRunJob "A"); ESetBizdate; EResolveJob "A"; EGetStatus "A";
     ELog Debug (MsgCheckStatus "A" Finished);
     ELog Info (MsgAlreadyFinished "A");
     ELog Info (MsgRunJob "B"); ESetBizdate; EResolveJob "B"; EGetStatus "B";
     ELog Debug (MsgCheckStatus "B" Finished);
     ELog Info (MsgAlreadyFinished "B");
     ELog Info (MsgRunJob "C"); ESetBizdate; EResolveJob "C"; EGetStatus "C";
     ELog Debug (MsgCheckStatus "C" Started);
     ELog Warn (MsgAlreadyStarted "C");
     ELog Info MsgTrackerDump; ELog Info MsgAllJobsDone] /\
  (fun name => Status <$> Jobs (dag resumeFinal) !! name) <$> ["A"; "B"; "C"; "D"]
    = [Some Finished; Some Finished; Some Started; Some NotStarted] /\
  inDegree (dag resumeFinal) "D" = 1 /\
  Fails (tracker resumeFinal) = ∅.
Proof.
  split; [vm_compute; reflexivity|].
  split; [vm_compute; reflexivity|].
  split; [vm_compute; reflexivity|].
  split; [vm_compute; reflexivity|].
  apply map_size_empty_iff. vm_compute. reflexivity.
Qed.

(** The same scenario when the job objects already carry the persisted
    statuses at start-up: the first queue is empty and [Run] returns nil
    at once. *)
Definition resumePreloaded : State :=
  {| dag := {| Jobs := list_to_map
                 [("A", withStatus Finished (scriptJob "A" ["B"]));
                  ("B", withStatus Finished (scriptJob "B" ["C"]));
                  ("C", withStatus Started (scriptJob "C" ["D"]));
                  ("D", scriptJob "D" [])];
               InDegrees := InDegrees resumeDAG;
               Relations := ∅ |};
     tracker := resumeTracker; trace := [] |}.

Example resume_preloaded_returns_nil :
  match Run resumeWorld 4 resumePreloaded with
  | Ret r st => r = None /\ inDegree (dag st) "B" = 1
  | _ => False
  end.
Proof. vm_compute. split; reflexivity. Qed.

(** *** Retry exhaustion (spec section 8, scenarios 3 and 4)

    A -> B, where the executor of A always fails and [MaxRetry] is 3. *)

Definition retryDAG (nonStrict : bool) : DAG :=
  {| Jobs := list_to_map [("A", scriptJob "A" ["B"]); ("B", scriptJob "B" [])];
     InDegrees := list_to_map [("A", 0); ("B", 1)];
     Relations := {["A" := {["B" := {| NonStrict := nonStrict |}]}]} |}.

Definition retryState (nonStrict : bool) : State :=
  {| dag := retryDAG nonStrict;
     tracker := {| Fails := ∅; Statuses := ∅ |}; trace := [] |}.

Definition failingWorld : World :=
  {| MaxRetry := 3; fatalExits := false; registered := fun _ => true;
     mapOrder := fun _ l => l; resolveOk := fun _ _ => true;
     getStatusOk := fun _ _ => true;
     execRun := fun _ p => if decide (p = "A") then ExecError
                           else ExecNil Finished |}.

(** The executor calls of a run, its result and the final fail counters. *)
Definition summary (o : Outcome (option error))
    : option (option error * list Event * list (string * Z)) :=
  match o with
  | Ret r st =>
      Some (r,
            List.filter (fun e => match e with EExecRun _ => true | _ => false end)
              (trace st),
            map_to_list (Fails (tracker st)))
  | _ => None
  end.

Example retry_exhaustion_strict :
  summary (Run failingWorld 10 (retryState false)) =
  Some (Some ErrSomeJobFailed, [EExecRun "A"; EExecRun "A"; EExecRun "A"],
        [("A", 3)]).
Proof. vm_compute. reflexivity. Qed.

Example retry_exhaustion_nonstrict :
  summary (Run failingWorld 10 (retryState true)) =
  Some (Some ErrSomeJobFailed,
        [EExecRun "A"; EExecRun "A"; EExecRun "A"; EExecRun "B"],
        [("A", 3)]).
Proof. vm_compute. reflexivity. Qed.

(** *** The theorems at concrete inputs *)

Lemma genRunQueue_ready_iff_witness :
  validOrder resumeWorld /\ inDegreesNamed resumeDAG /\
  exists q evs, genRunQueue resumeWorld 0 resumeDAG resumeTracker = Some (q, evs) /\
    NoDup q /\
    (forall name, name ∈ q <-> readyP resumeWorld resumeDAG resumeTracker name) /\
    (forall name job, Jobs resumeDAG !! name = Some job ->
       MaxRetry resumeWorld <= failCount resumeTracker (Name job) -> name ∉ q).
Proof.
  assert (Ho : validOrder resumeWorld) by (intros w l; reflexivity).
  assert (Hn : inDegreesNamed resumeDAG) by by_compute.
  split; [exact Ho|]. split; [exact Hn|].
  exact (genRunQueue_ready_iff resumeWorld 0 resumeDAG resumeTracker Ho Hn).
Defined.

(** A finished predecessor A releasing its successor B. *)
Definition finishedA : Job := withStatus Finished (scriptJob "A" ["B"]).

Lemma updateDependences_decrement_iff_witness :
  NoDup (Post finishedA) /\ 0 <= inDegree (dag resumeState) "B" < 2 ^ 63 /\
  exists st', updateDependences resumeWorld finishedA resumeState = Ret tt st' /\
    tracker st' = tracker resumeState /\
    Jobs (dag st') = Jobs (dag resumeState) /\
    Relations (dag st') = Relations (dag resumeState) /\
    ("B" ∈ Post finishedA /\ inDegree (dag resumeState) "B" <> 0 /\
       decrementRule resumeWorld (tracker resumeState) finishedA (dag resumeState) "B" ->
     inDegree (dag st') "B" = inDegree (dag resumeState) "B" - 1) /\
    (~ ("B" ∈ Post finishedA /\ inDegree (dag resumeState) "B" <> 0 /\
        decrementRule resumeWorld (tracker resumeState) finishedA (dag resumeState) "B") ->
     inDegree (dag st') "B" = inDegree (dag resumeState) "B").
Proof.
  assert (Hnd : NoDup (Post finishedA)) by by_compute.
  assert (Hr : 0 <= inDegree (dag resumeState) "B" < 2 ^ 63) by by_compute.
  split; [exact Hnd|]. split; [exact Hr|].
  exact (updateDependences_decrement_iff resumeWorld finishedA resumeState "B" Hnd Hr).
Defined.

Lemma Run_returns_iff_queue_empty_witness :
  checkDAG resumeWorld (dag resumeState) = None /\
  (Run resumeWorld 4 resumeState = Ret None resumeFinal <->
   exists k stk, (k <= 4)%nat /\ afterWaves resumeWorld k resumeState = Ret [] stk /\
     (forall i, (i < k)%nat ->
        exists qi sti, afterWaves resumeWorld i resumeState = Ret qi sti /\ qi <> []) /\
     finish stk = Ret None resumeFinal) /\
  (forall stk, exists st'', finish stk =
     Ret (if decide (Fails (tracker stk) = ∅) then None
          else Some ErrSomeJobFailed) st'').
Proof.
  assert (Hc : checkDAG resumeWorld (dag resumeState) = None)
    by (vm_compute; reflexivity).
  split; [exact Hc|].
  exact (Run_returns_iff_queue_empty resumeWorld 4 resumeState None resumeFinal Hc).
Defined.

Lemma resume_first_wave :
  reach resumeWorld resumeState (InRunQueue 0 ["A"] ["A"]) resumeState.
Proof.
  apply rtc_once, step_gen; [vm_compute; reflexivity|discriminate].
Qed.

Lemma fails_never_exceed_MaxRetry_witness :
  validOrder resumeWorld /\ MaxRetry resumeWorld < 2 ^ 63 /\
  jobsByName (dag resumeState) /\ failsBounded resumeWorld (tracker resumeState) /\
  reach resumeWorld resumeState (InRunQueue 0 ["A"] ["A"]) resumeState /\
  (forall j n, Fails (tracker resumeState) !! j = Some n -> n <= MaxRetry resumeWorld) /\
  (0 <= MaxRetry resumeWorld ->
   forall j, failCount (tracker resumeState) j <= MaxRetry resumeWorld) /\
  (forall w queue todo,
     InRunQueue 0 ["A"] ["A"] = InRunQueue w queue todo ->
     todo ⊆ queue /\
     forall p job, p ∈ queue -> Jobs (dag resumeState) !! p = Some job ->
       failCount (tracker resumeState) (Name job) < MaxRetry resumeWorld).
Proof.
  assert (Ho : validOrder resumeWorld) by (intros w l; reflexivity).
  assert (Hm : MaxRetry resumeWorld < 2 ^ 63) by by_compute.
  assert (Hn : jobsByName (dag resumeState)) by by_compute.
  assert (Hb : failsBounded resumeWorld (tracker resumeState)) by by_compute.
  pose proof resume_first_wave as Hr.
  split; [exact Ho|]. split; [exact Hm|]. split; [exact Hn|].
  split; [exact Hb|]. split; [exact Hr|].
  exact (fails_never_exceed_MaxRetry resumeWorld resumeState _ resumeState
           Ho Hm Hn Hb Hr).
Defined.

Lemma inDegrees_never_negative_witness :
  inDegreesCounted (dag resumeState) /\
  reach resumeWorld resumeState (InRunQueue 0 ["A"] ["A"]) resumeState /\
  forall j, 0 <= inDegree (dag resumeState) j.
Proof.
  assert (Hc : inDegreesCounted (dag resumeState)) by by_compute.
  pose proof resume_first_wave as Hr.
  split; [exact Hc|]. split; [exact Hr|].
  exact (inDegrees_never_negative resumeWorld resumeState _ resumeState Hc Hr).
Defined.

(** Job A of the scenario, persisted as [Finished], when its late binding
    fails on the second run. *)
Lemma resolve_failure_overwrites_persisted_witness :
  Jobs (dag resumeState) !! "A" = Some (scriptJob "A" ["B"]) /\
  GetStatus (tracker resumeState) (scriptJob "A" ["B"]) = Finished /\
  resolveOk unresolvedWorld 0 "A" = false /\
  exists st', runJob unresolvedWorld 0 "A" resumeState = Ret tt st' /\
    Jobs (dag st') !! "A" = Some (withStatus Failed (scriptJob "A" ["B"])) /\
    trace st' = trace resumeState ++ dispatchPrefix (scriptJob "A" ["B"]) ++
       [ELog Error (MsgResolveError "A"); ESetStatus "A" Failed; ESetJobReport] /\
    Statuses (tracker st') !! "A" = Some Failed /\
    GetStatus (tracker st') (scriptJob "A" ["B"]) = Failed.
Proof.
  assert (Hj : Jobs (dag resumeState) !! "A" = Some (scriptJob "A" ["B"]))
    by (vm_compute; reflexivity).
  split; [exact Hj|]. split; [vm_compute; reflexivity|]. split; [reflexivity|].
  exact (proj2 (resolve_failure_overwrites_persisted unresolvedWorld 0 "A"
                  resumeState (scriptJob "A" ["B"]) Hj) eq_refl).
Defined.

Lemma dummy_job_dispatch_witness :
  Jobs (dag syncState) !! "sync" = Some syncJob /\ Type_ syncJob = DummyJob /\
  exists st' evs, runJob resumeWorld 0 "sync" syncState = Ret tt st' /\
    trace st' = trace syncState ++ evs /\
    (forall n, EGetStatus n ∉ evs) /\
    (resolveOk resumeWorld 0 "sync" = true ->
     Jobs (dag st') !! "sync" = Some (withStatus Finished syncJob) /\
     tracker st' = tracker syncState /\
     forallb (fun e => negb (isTrackerCall e)) evs = true).
Proof.
  assert (Hj : Jobs (dag syncState) !! "sync" = Some syncJob)
    by (vm_compute; reflexivity).
  split; [exact Hj|]. split; [reflexivity|].
  exact (dummy_job_dispatch resumeWorld 0 "sync" syncState syncJob Hj eq_refl).
Defined.


(** ** More of sched.go *)

(** *** checkDAG and the preflight of Run *)

Lemma checkJobs_None_iff W jobs :
  checkJobs W jobs = None <->
  Forall (fun kv : string * Job => registered W (Type_ kv.2) = true) jobs.
Proof.
  induction jobs as [|[k job] rest IH]; simpl.
  - split; [constructor|done].
  - destruct (registered W (Type_ job)) eqn:Hr.
    + rewrite IH. split.
      * intros H. by constructor.
      * intros H. by apply Forall_cons in H as [_ H].
    + split; [done|]. intros H. apply Forall_cons in H as [H _]. simpl in H.
      congruence.
Qed.

Lemma checkJobs_Some W jobs e :
  checkJobs W jobs = Some e ->
  exists k job, (k, job) ∈ jobs /\ registered W (Type_ job) = false /\
    e = ErrNoExecutor (Type_ job).
Proof.
  induction jobs as [|[k job] rest IH]; simpl; [done|].
  destruct (registered W (Type_ job)) eqn:Hr.
  - intros H. destruct (IH H) as (k' & job' & Hin & Hr' & He).
    exists k', job'. split; [by right|done].
  - intros H. inversion H; subst. exists k, job. split; [by left|done].
Qed.

(** [checkDAG] returns nil exactly when the type of every job of the DAG
    has a registered executor; the error it returns otherwise names the
    type of a job of the DAG that has none. *)
Theorem checkDAG_nil_iff_all_registered (W : World) (d : DAG) :
  (checkDAG W d = None <->
   forall k job, Jobs d !! k = Some job -> registered W (Type_ job) = true) /\
  (forall e, checkDAG W d = Some e ->
   exists k job, Jobs d !! k = Some job /\ registered W (Type_ job) = false /\
     e = ErrNoExecutor (Type_ job)).
Proof.
  unfold checkDAG. split.
  - rewrite checkJobs_None_iff, Forall_forall. split.
    + intros H k job Hk. apply (H (k, job)). by apply elem_of_map_to_list.
    + intros H [k job] Hin. apply elem_of_map_to_list in Hin. by apply (H k).
  - intros e He. apply checkJobs_Some in He as (k & job & Hin & Hr & He).
    apply elem_of_map_to_list in Hin. eauto.
Qed.

(** When the preflight fails, [Run] runs no wave: it logs the error with
    [log.Fatal] and, unless that ends the process, returns the error; the
    DAG and the tracker are as they were and no job was resolved, looked
    up or executed. *)
Theorem Run_preflight_failure (W : World) (fuel : nat) (st : State) (e : error) :
  checkDAG W (dag st) = Some e ->
  exists t, e = ErrNoExecutor t /\
    Run W fuel st =
      if fatalExits W then Exit
      else Ret (Some e)
             {| dag := dag st; tracker := tracker st;
                trace := trace st ++ [ELog Fatal (MsgNoExecutor t)] |}.
Proof.
  intros Hc.
  destruct (checkJobs_Some _ _ _ Hc) as (k & job & _ & _ & ->).
  exists (Type_ job). split; [done|].
  unfold Run, getDAG, fatal, logf, emit, exit, mbind, M_bind, mret, M_ret.
  simpl. rewrite Hc. simpl. by destruct (fatalExits W).
Qed.

(** *** genRunQueue: the panic and the log *)

Lemma genRunQueueFrom_Some_named W d t entries q evs :
  genRunQueueFrom W d t entries = Some (q, evs) ->
  forall name in_, (name, in_) ∈ entries -> is_Some (Jobs d !! name).
Proof.
  revert q evs.
  induction entries as [|[n i] rest IH]; intros q evs Hg name in_ Hin; simpl in Hg.
  - by apply not_elem_of_nil in Hin.
  - destruct (Jobs d !! n) as [job|] eqn:Hj; [|done].
    destruct (genRunQueueFrom W d t rest) as [[q' evs']|] eqn:Hr; [|done].
    apply elem_of_cons in Hin as [Heq|Hin].
    + inversion Heq; subst. eauto.
    + by eapply IH.
Qed.

(** [genRunQueue] panics exactly when some key of [InDegrees] names no
    job of [Jobs], whatever the order of the range. *)
Theorem genRunQueue_panics_iff_unnamed (W : World) (w : nat) (d : DAG) (t : StatusTracker) :
  validOrder W ->
  (genRunQueue W w d t = None <-> ~ inDegreesNamed d).
Proof.
  intros Hord. pose proof (Hord w (map_to_list (InDegrees d))) as Hperm.
  unfold genRunQueue. split.
  - intros Hnone Hnamed.
    destruct (genRunQueueFrom_total W d t
                (mapOrder W w (map_to_list (InDegrees d)))) as [x Hx].
    + intros name i Hin. apply (Hnamed name i).
      apply elem_of_map_to_list. by rewrite <- Hperm.
    + congruence.
  - intros Hnot.
    destruct (genRunQueueFrom W d t (mapOrder W w (map_to_list (InDegrees d))))
      as [[q evs]|] eqn:Hg; [|done].
    exfalso. apply Hnot. intros name i Hi.
    eapply genRunQueueFrom_Some_named; [exact Hg|].
    rewrite Hperm. by apply elem_of_map_to_list.
Qed.

Lemma genRunQueueFrom_log W d t entries q evs :
  jobsByName d ->
  genRunQueueFrom W d t entries = Some (q, evs) ->
  evs = (fun kv : string * Z => ELog Error (MsgMaxRetry kv.1 (MaxRetry W))) <$>
        filter (fun kv : string * Z => MaxRetry W <= failCount t kv.1) entries.
Proof.
  intros Hn. revert q evs.
  induction entries as [|[n i] rest IH]; intros q evs Hg; simpl in Hg.
  - by inversion Hg.
  - destruct (Jobs d !! n) as [job|] eqn:Hj; [|done].
    destruct (genRunQueueFrom W d t rest) as [[q' evs']|] eqn:Hr; [|done].
    inversion Hg; subst; clear Hg.
    rewrite filter_cons. unfold exhausted. rewrite (Hn _ _ Hj). simpl.
    rewrite (IH _ _ eq_refl).
    destruct (decide (MaxRetry W <= failCount t n)) as [Hm|Hm].
    + by rewrite bool_decide_eq_true_2.
    + by rewrite bool_decide_eq_false_2.
Qed.

(** In a DAG that files jobs under their names, what [genRunQueue] logs
    in a wave is one "reaches max retry times" line for each key of
    [InDegrees] whose fail count is at or above [MaxRetry], and nothing
    else; none of these jobs is in the queue. *)
Theorem genRunQueue_logs_exhausted (W : World) (w : nat) (d : DAG) (t : StatusTracker)
    (q : list string) (evs : list Event) :
  validOrder W ->
  jobsByName d ->
  genRunQueue W w d t = Some (q, evs) ->
  evs ≡ₚ (fun kv : string * Z => ELog Error (MsgMaxRetry kv.1 (MaxRetry W))) <$>
         filter (fun kv : string * Z => MaxRetry W <= failCount t kv.1)
           (map_to_list (InDegrees d)) /\
  forall name, MaxRetry W <= failCount t name -> name ∉ q.
Proof.
  intros Hord Hn Hg. split.
  - unfold genRunQueue in Hg.
    rewrite (genRunQueueFrom_log _ _ _ _ _ _ Hn Hg).
    by rewrite (Hord w (map_to_list (InDegrees d))).
  - intros name Hm Hin.
    apply (genRunQueue_sound _ _ _ _ _ _ Hord Hg) in Hin
      as (job & Hj & _ & _ & _ & Hlt).
    rewrite (Hn _ _ Hj) in Hlt. lia.
Qed.


(** *** What a worker decides *)

(** What the worker of [runQueue] decides for a job, from the job, its
    persisted status and the collaborators: the status it leaves in the
    job and the status it last wrote to the store, if it wrote at all.
    [None]: the worker panics. *)
Definition verdict (W : World) (w : nat) (p : string) (job : Job)
    (persisted : JobStatus) : option (JobStatus * option JobStatus) :=
  if negb (resolveOk W w p) then Some (Failed, Some Failed)
  else if decide (Type_ job = DummyJob) then Some (Finished, None)
  else if negb (registered W (Type_ job)) then None
  else if negb (getStatusOk W w p) then None
  else match persisted with
       | Finished => Some (Finished, None)
       | Started => Some (Started, None)
       | _ =>
           match execRun W w p with
           | ExecError => Some (Failed, Some Failed)
           | ExecNil s' => Some (s', Some s')
           end
       end.

(** The DAG and the tracker after a worker, by its verdict. *)
Definition runJobData (W : World) (w : nat) (p : string)
    (x : DAG * StatusTracker) : option (DAG * StatusTracker) :=
  match Jobs x.1 !! p with
  | None => None
  | Some job =>
      match verdict W w p job (GetStatus x.2 job) with
      | None => None
      | Some (s, wrote) =>
          Some (putJob p (withStatus s job) x.1,
                match wrote with
                | Some s' => SetStatus (withStatus s' job) x.2
                | None => x.2
                end)
      end
  end.

Lemma runJob_runJobData W w p st :
  match runJobData W w p (dag st, tracker st) with
  | Some (d', t') =>
      exists evs, runJob W w p st =
        Ret tt {| dag := d'; tracker := t'; trace := trace st ++ evs |}
  | None => runJob W w p st = Panic
  end.
Proof.
  unfold runJobData. simpl.
  destruct (Jobs (dag st) !! p) as [job|] eqn:Hj.
  2: { run_worker. by rewrite Hj. }
  unfold verdict.
  destruct (resolveOk W w p) eqn:Hres; simpl.
  2: { eexists. by apply runJob_unresolved. }
  destruct (decide (Type_ job = DummyJob)) as [Hty|Hty].
  { eexists. by apply runJob_dummy_resolved. }
  run_worker. rewrite Hj. simpl. rewrite Hres. simpl.
  rewrite decide_False by done.
  destruct (registered W (Type_ job)) eqn:Hreg; simpl; [|done].
  rewrite Hj. simpl.
  destruct (getStatusOk W w p) eqn:Hget; simpl; [|done].
  rewrite Hj. simpl.
  assert (Hw : forall s1 s2 s3, withStatus s1 (withStatus s2 (withStatus s3 job))
                              = withStatus s1 job) by done.
  assert (Hw' : forall s1 s2, withStatus s1 (withStatus s2 job) = withStatus s1 job)
    by done.
  destruct (GetStatus (tracker st) job) eqn:Hs; simpl;
    [destruct (execRun W w p) as [|s'] eqn:Hx| | |
     destruct (execRun W w p) as [|s'] eqn:Hx];
    repeat first
      [ rewrite lookup_insert_eq | rewrite insert_insert_eq
      | rewrite Hw | rewrite Hw' | progress simpl ];
    unfold putJob, SetStatus; simpl;
    repeat first
      [ rewrite lookup_insert_eq | rewrite insert_insert_eq
      | rewrite Hw | rewrite Hw' | progress simpl ];
    eexists; rewrite <- !app_assoc; reflexivity.
Qed.


Fixpoint runQueueData (W : World) (w : nat) (queue : list string)
    (x : DAG * StatusTracker) : option (DAG * StatusTracker) :=
  match queue with
  | [] => Some x
  | p :: rest =>
      match runJobData W w p x with
      | Some y => runQueueData W w rest y
      | None => None
      end
  end.

Lemma runQueue_runQueueData W w queue st :
  match runQueueData W w queue (dag st, tracker st) with
  | Some (d', t') =>
      exists evs, runQueue W w queue st =
        Ret tt {| dag := d'; tracker := t'; trace := trace st ++ evs |}
  | None => runQueue W w queue st = Panic
  end.
Proof.
  unfold runQueue. revert st.
  induction queue as [|p rest IH]; intros st; simpl.
  - exists []. rewrite app_nil_r. by destruct st.
  - pose proof (runJob_runJobData W w p st) as Hp.
    destruct (runJobData W w p (dag st, tracker st)) as [[d1 t1]|].
    + destruct Hp as (evs1 & Hp).
      specialize (IH {| dag := d1; tracker := t1; trace := trace st ++ evs1 |}).
      simpl in IH. unfold mbind, M_bind. rewrite Hp.
      destruct (runQueueData W w rest (d1, t1)) as [[d' t']|].
      * destruct IH as (evs2 & IH). exists (evs1 ++ evs2).
        by rewrite IH, app_assoc.
      * exact IH.
    + unfold mbind, M_bind. by rewrite Hp.
Qed.


(** *** The order of the post-wave bookkeeping *)

(** Whether [updateDependences] for [job] lowers a non-zero in-degree of
    [post]: the edge rule, read off the edges [R]. *)
Definition releases (W : World) (t : StatusTracker) (job : Job)
    (R : gmap string (gmap string Relation)) (post : string) : bool :=
  bool_decide (Status job = Finished) ||
  match R !! Name job ≫= (fun inner => inner !! post) with
  | Some relation =>
      NonStrict relation && bool_decide (Status job = Failed) &&
      bool_decide (MaxRetry W <= failCount t (Name job))
  | None => false
  end.

(** Lower the in-degree of [v] by one unless it is 0, if [c]. *)
Definition decAt (c : bool) (v : string) (d : DAG) : DAG :=
  if decide (inDegree d v = 0) then d
  else if c then putInDegree v (GoInt.sub (inDegree d v) 1) d else d.

Lemma updateDependence_decAt W t job d post :
  updateDependence W t job d post =
  decAt (releases W t job (Relations d) post) post d.
Proof.
  unfold updateDependence, decAt, releases, nonStrictExhausted, relationOf.
  destruct (decide (inDegree d post = 0)); [done|].
  destruct (decide (Status job = Finished)) as [Hf|Hf].
  - by rewrite bool_decide_eq_true_2.
  - by rewrite (bool_decide_eq_false_2 _ Hf).
Qed.

Lemma decAt_Relations c v d : Relations (decAt c v d) = Relations d.
Proof. unfold decAt. by repeat case_match. Qed.

Lemma decAt_Jobs c v d : Jobs (decAt c v d) = Jobs d.
Proof. unfold decAt. by repeat case_match. Qed.

Lemma putInDegree_putInDegree v a b d :
  putInDegree v a (putInDegree v b d) = putInDegree v a d.
Proof. unfold putInDegree. simpl. by rewrite insert_insert_eq. Qed.

Lemma putInDegree_commute v1 v2 a b d :
  v1 <> v2 ->
  putInDegree v1 a (putInDegree v2 b d) = putInDegree v2 b (putInDegree v1 a d).
Proof.
  intros Hne. unfold putInDegree. simpl. f_equal. by apply insert_insert_ne.
Qed.

Lemma decAt_false v d : decAt false v d = d.
Proof. unfold decAt. by case_decide. Qed.

Lemma decAt_commute c1 c2 v1 v2 d :
  decAt c1 v1 (decAt c2 v2 d) = decAt c2 v2 (decAt c1 v1 d).
Proof.
  destruct (decide (v1 = v2)) as [->|Hne].
  - destruct c1, c2; by rewrite ?decAt_false.
  - unfold decAt.
    destruct (decide (inDegree d v1 = 0)) as [H1|H1];
      destruct (decide (inDegree d v2 = 0)) as [H2|H2];
      destruct c1, c2;
      rewrite ?inDegree_putInDegree;
      rewrite ?(decide_False (P := v2 = v1)) by done;
      rewrite ?(decide_False (P := v1 = v2)) by done;
      rewrite ?(decide_True (P := inDegree d v1 = 0)) by done;
      rewrite ?(decide_True (P := inDegree d v2 = 0)) by done;
      rewrite ?(decide_False (P := inDegree d v1 = 0)) by done;
      rewrite ?(decide_False (P := inDegree d v2 = 0)) by done;
      try done.
    by apply putInDegree_commute.
Qed.

(** The loop of [updateDependences] with the edge rule fixed beforehand. *)
Definition decAll (c : string -> bool) (posts : list string) (d : DAG) : DAG :=
  foldl (fun d post => decAt (c post) post d) d posts.

Lemma decAll_Relations c posts d : Relations (decAll c posts d) = Relations d.
Proof.
  unfold decAll. revert d. induction posts as [|p ps IH]; intros d; simpl; [done|].
  by rewrite IH, decAt_Relations.
Qed.

Lemma updateDependencesOn_decAll W t job posts d :
  updateDependencesOn W t job posts d =
  decAll (releases W t job (Relations d)) posts d.
Proof.
  unfold updateDependencesOn, decAll. revert d.
  induction posts as [|p ps IH]; intros d; simpl; [done|].
  rewrite IH, updateDependence_Relations.
  by rewrite updateDependence_decAt.
Qed.

Lemma decAt_decAll_commute c v c' posts d :
  decAt c v (decAll c' posts d) = decAll c' posts (decAt c v d).
Proof.
  unfold decAll. revert d. induction posts as [|p ps IH]; intros d; simpl; [done|].
  by rewrite IH, decAt_commute.
Qed.

Lemma decAll_commute c1 c2 l1 l2 d :
  decAll c1 l1 (decAll c2 l2 d) = decAll c2 l2 (decAll c1 l1 d).
Proof.
  assert (Hcons : forall c p ps d,
            decAll c (p :: ps) d = decAll c ps (decAt (c p) p d)) by done.
  revert d. induction l1 as [|p ps IH]; intros d; [done|].
  by rewrite !Hcons, decAt_decAll_commute, IH.
Qed.

Lemma decAll_ext c c' posts d :
  (forall post, c post = c' post) -> decAll c posts d = decAll c' posts d.
Proof.
  intros He. unfold decAll. revert d.
  induction posts as [|p ps IH]; intros d; simpl; [done|].
  by rewrite IH, He.
Qed.

Lemma releases_failCount W t t' job R post :
  failCount t' (Name job) = failCount t (Name job) ->
  releases W t' job R post = releases W t job R post.
Proof. intros H. unfold releases. by rewrite H. Qed.

Lemma updateFails_commute j1 j2 t :
  Name j1 <> Name j2 ->
  updateFails j2 (updateFails j1 t) = updateFails j1 (updateFails j2 t).
Proof.
  intros Hne. unfold updateFails.
  destruct (Status j1), (Status j2); try done;
    destruct (Fails t !! Name j1) eqn:H1; destruct (Fails t !! Name j2) eqn:H2;
    simpl;
    rewrite ?lookup_insert_ne, ?lookup_delete_ne by done;
    rewrite ?H1, ?H2; try done;
    f_equal;
    first [ by apply insert_insert_ne | by apply delete_delete
          | by rewrite delete_insert_ne by done
          | by rewrite insert_delete_ne by done
          | done ].
Qed.

(** The DAG and the tracker after the bookkeeping of one job. *)
Definition bookkeepData (W : World) (p : string) (x : DAG * StatusTracker)
    : option (DAG * StatusTracker) :=
  match Jobs x.1 !! p with
  | None => None
  | Some job =>
      let t' := updateFails job x.2 in
      Some (updateDependencesOn W t' job (Post job) x.1, t')
  end.

Fixpoint bookkeepingData (W : World) (queue : list string)
    (x : DAG * StatusTracker) : option (DAG * StatusTracker) :=
  match queue with
  | [] => Some x
  | p :: rest =>
      match bookkeepData W p x with
      | Some y => bookkeepingData W rest y
      | None => None
      end
  end.

Lemma bookkeep_bookkeepData W p st :
  match bookkeepData W p (dag st, tracker st) with
  | Some (d', t') =>
      exists evs, bookkeep W p st =
        Ret tt {| dag := d'; tracker := t'; trace := trace st ++ evs |}
  | None => bookkeep W p st = Panic
  end.
Proof.
  unfold bookkeepData, bookkeep, deref, updateFailCount, updateDependences,
    logf, emit, modifyTracker, modifyDAG, getTracker, mbind, M_bind, mret, M_ret.
  simpl. destruct (Jobs (dag st) !! p) as [job|]; [|done].
  case_decide; simpl.
  - by eexists.
  - exists []. by rewrite app_nil_r.
Qed.

Lemma bookkeeping_bookkeepingData W queue st :
  match bookkeepingData W queue (dag st, tracker st) with
  | Some (d', t') =>
      exists evs, bookkeeping W queue st =
        Ret tt {| dag := d'; tracker := t'; trace := trace st ++ evs |}
  | None => bookkeeping W queue st = Panic
  end.
Proof.
  unfold bookkeeping. revert st.
  induction queue as [|p rest IH]; intros st; simpl.
  - exists []. rewrite app_nil_r. by destruct st.
  - pose proof (bookkeep_bookkeepData W p st) as Hp.
    destruct (bookkeepData W p (dag st, tracker st)) as [[d1 t1]|].
    + destruct Hp as (evs1 & Hp).
      specialize (IH {| dag := d1; tracker := t1; trace := trace st ++ evs1 |}).
      simpl in IH. unfold mbind, M_bind. rewrite Hp.
      destruct (bookkeepingData W rest (d1, t1)) as [[d' t']|].
      * destruct IH as (evs2 & IH). exists (evs1 ++ evs2).
        by rewrite IH, app_assoc.
      * exact IH.
    + unfold mbind, M_bind. by rewrite Hp.
Qed.

Lemma bookkeepData_Jobs W p x y :
  bookkeepData W p x = Some y -> Jobs y.1 = Jobs x.1.
Proof.
  unfold bookkeepData. destruct (Jobs x.1 !! p); [|done].
  intros H. inversion H; subst. simpl. apply updateDependencesOn_Jobs.
Qed.

Lemma bookkeepData_commute W p1 p2 x :
  jobsByName x.1 -> p1 <> p2 ->
  bookkeepData W p1 x ≫= bookkeepData W p2 =
  bookkeepData W p2 x ≫= bookkeepData W p1.
Proof.
  intros Hn Hne. destruct x as [d t]. unfold bookkeepData. simpl in *.
  destruct (Jobs d !! p1) as [j1|] eqn:H1; destruct (Jobs d !! p2) as [j2|] eqn:H2;
    simpl; rewrite ?updateDependencesOn_Jobs, ?H1, ?H2; try done.
  assert (Hnames : Name j1 <> Name j2).
  { by rewrite (Hn _ _ H1), (Hn _ _ H2). }
  f_equal. f_equal; [|by apply updateFails_commute].
  rewrite !updateDependencesOn_decAll, !decAll_Relations.
  rewrite (updateFails_commute j1 j2) by done.
  rewrite (decAll_ext _ (releases W (updateFails j2 t) j2 (Relations d))).
  2: { intros post. by apply releases_failCount, updateFails_other. }
  rewrite (decAll_ext (releases W (updateFails j1 (updateFails j2 t)) j1 _)
             (releases W (updateFails j1 t) j1 (Relations d))).
  2: { intros post. apply releases_failCount.
       rewrite <- (updateFails_commute j1 j2) by done.
       by apply updateFails_other. }
  apply decAll_commute.
Qed.

Lemma bookkeepingData_perm W q q' :
  q ≡ₚ q' ->
  forall x, jobsByName x.1 -> bookkeepingData W q x = bookkeepingData W q' x.
Proof.
  assert (Hkeep : forall p x y, jobsByName x.1 -> bookkeepData W p x = Some y ->
                                jobsByName y.1).
  { intros p x y Hn Hy. unfold jobsByName.
    by rewrite (bookkeepData_Jobs _ _ _ _ Hy). }
  induction 1 as [|p q q' Hp IH|p1 p2 q|q1 q2 q3 H12 IH12 H23 IH23];
    intros x Hn; simpl.
  - done.
  - destruct (bookkeepData W p x) as [y|] eqn:Hy; [|done].
    apply IH. by eapply Hkeep.
  - destruct (decide (p1 = p2)) as [->|Hne]; [done|].
    pose proof (bookkeepData_commute W p1 p2 x Hn Hne) as Hc.
    unfold mbind, option_bind in Hc.
    destruct (bookkeepData W p1 x) as [y1|], (bookkeepData W p2 x) as [y2|];
      simpl in Hc.
    + by rewrite Hc.
    + by rewrite Hc.
    + by rewrite <- Hc.
    + done.
  - rewrite IH12 by done. by apply IH23.
Qed.

(** The post-wave bookkeeping may visit the queue in any order: two
    orders of the same queue leave the same in-degrees and the same fail
    counters (the DAG and the tracker are equal; only the order of the
    log lines differs). *)
Theorem bookkeeping_order_irrelevant (W : World) (q q' : list string) (st : State) :
  q ≡ₚ q' ->
  jobsByName (dag st) ->
  match bookkeeping W q st, bookkeeping W q' st with
  | Ret _ s, Ret _ s' => dag s = dag s' /\ tracker s = tracker s'
  | Panic, Panic => True
  | _, _ => False
  end.
Proof.
  intros Hp Hn.
  pose proof (bookkeeping_bookkeepingData W q st) as H1.
  pose proof (bookkeeping_bookkeepingData W q' st) as H2.
  rewrite <- (bookkeepingData_perm W q q' Hp (dag st, tracker st) Hn) in H2.
  destruct (bookkeepingData W q (dag st, tracker st)) as [[d' t']|].
  - destruct H1 as (e1 & ->), H2 as (e2 & ->). done.
  - by rewrite H1, H2.
Qed.


(** *** The order in which Go ranges over [InDegrees] *)

(** The same world with another order of the ranges over [InDegrees]. *)
Definition withOrder (o : nat -> list (string * Z) -> list (string * Z))
    (W : World) : World :=
  {| MaxRetry := MaxRetry W; fatalExits := fatalExits W;
     registered := registered W; mapOrder := o;
     resolveOk := resolveOk W; getStatusOk := getStatusOk W;
     execRun := execRun W |}.

Lemma genRunQueueFrom_perm W d t e e' :
  e ≡ₚ e' ->
  match genRunQueueFrom W d t e, genRunQueueFrom W d t e' with
  | Some (q, evs), Some (q', evs') => q ≡ₚ q' /\ evs ≡ₚ evs'
  | None, None => True
  | _, _ => False
  end.
Proof.
  induction 1 as [|[n i] e e' Hp IH|[n1 i1] [n2 i2] e|e1 e2 e3 H12 IH12 H23 IH23];
    simpl.
  - done.
  - destruct (Jobs d !! n) as [job|]; [|done].
    destruct (genRunQueueFrom W d t e) as [[q evs]|],
             (genRunQueueFrom W d t e') as [[q' evs']|]; try done.
    destruct IH as [Hq Hevs].
    split; [destruct (ready W t i job)|destruct (exhausted W t job)];
      by try constructor.
  - destruct (Jobs d !! n1) as [j1|], (Jobs d !! n2) as [j2|]; try done.
    destruct (genRunQueueFrom W d t e) as [[q evs]|]; [|done].
    split.
    + destruct (ready W t i1 j1), (ready W t i2 j2); try done. apply perm_swap.
    + destruct (exhausted W t j1), (exhausted W t j2); try done. apply perm_swap.
  - destruct (genRunQueueFrom W d t e1) as [[q1 ?]|],
             (genRunQueueFrom W d t e2) as [[q2 ?]|],
             (genRunQueueFrom W d t e3) as [[q3 ?]|]; try done.
    destruct IH12, IH23. split; by etrans.
Qed.

Lemma genRunQueueFrom_withOrder o W d t e :
  genRunQueueFrom (withOrder o W) d t e = genRunQueueFrom W d t e.
Proof.
  induction e as [|[n i] e IH]; simpl; [done|]. by rewrite IH.
Qed.

(** The order in which Go ranges over [InDegrees] decides the order of
    the ready queue and of the log lines of [genRunQueue] and nothing
    else: under two orders it panics both times, or returns queues with
    the same jobs and logs with the same lines. *)
Theorem genRunQueue_map_order_permutes (W : World)
    (o : nat -> list (string * Z) -> list (string * Z)) (w : nat)
    (d : DAG) (t : StatusTracker) :
  validOrder W ->
  validOrder (withOrder o W) ->
  match genRunQueue W w d t, genRunQueue (withOrder o W) w d t with
  | Some (q, evs), Some (q', evs') => q ≡ₚ q' /\ evs ≡ₚ evs'
  | None, None => True
  | _, _ => False
  end.
Proof.
  intros Ho Ho'. unfold genRunQueue. rewrite genRunQueueFrom_withOrder.
  apply genRunQueueFrom_perm. simpl.
  etrans; [apply Ho|]. symmetry. exact (Ho' w (map_to_list (InDegrees d))).
Qed.


(** *** Parked jobs *)

(** The jobs a point of the run still has in hand. *)
Definition inHand (pt : Point) : list string :=
  match pt with
  | AtTop _ | AtExit => []
  | InRunQueue _ queue todo => queue ++ todo
  | InBookkeeping _ todo => todo
  | InDependences _ p _ todo => p :: todo
  end.

Lemma runJob_other_jobs W w p st st' k :
  runJob W w p st = Ret tt st' -> k <> p ->
  Jobs (dag st') !! k = Jobs (dag st) !! k.
Proof.
  intros Hr Hk. pose proof (runJob_runJobData W w p st) as Hd.
  unfold runJobData in Hd. simpl in Hd.
  destruct (Jobs (dag st) !! p) as [job|]; [|congruence].
  destruct (verdict _ _ _ _ _) as [[s wrote]|]; [|congruence].
  destruct Hd as (evs & Hd). rewrite Hd in Hr. inversion Hr; subst.
  unfold putJob. simpl. by rewrite lookup_insert_ne.
Qed.

Lemma genRunQueueM_ready W w st q st' p :
  genRunQueueM W w st = Ret q st' -> p ∈ q ->
  exists job, Jobs (dag st) !! p = Some job /\
    Status job <> Finished /\ Status job <> Started /\
    failCount (tracker st) (Name job) < MaxRetry W.
Proof.
  intros Hg Hp. apply genRunQueueM_Ret in Hg as (evs & Hg & _).
  unfold genRunQueue in Hg.
  apply (genRunQueueFrom_elem _ _ _ _ _ _ Hg) in Hp as (i & job & _ & Hj & Hr).
  apply ready_true in Hr as (_ & ? & ? & ?). eauto.
Qed.

Lemma step_parked W x y p job :
  Status job = Finished \/ Status job = Started ->
  step W x y ->
  Jobs (dag x.2) !! p = Some job /\ p ∉ inHand x.1 ->
  Jobs (dag y.2) !! p = Some job /\ p ∉ inHand y.1.
Proof.
  intros Hs Hstep [Hj Hnot].
  destruct Hstep as [w st q st' Hg _|w st st' Hg|w q p' todo st st' Hr|w q st|
                     w p' todo job' st st' Hj' Hu|w p' post posts todo job' st Hj'|
                     w p' todo st|w st];
    simpl in *.
  - pose proof (genRunQueueM_Ret _ _ _ _ _ Hg) as (_ & _ & -> & _).
    split; [done|]. intros Hin. apply elem_of_app in Hin.
    assert (Hq : p ∈ q) by tauto.
    destruct (genRunQueueM_ready _ _ _ _ _ _ Hg Hq) as (job'' & Hj'' & ? & ? & _).
    rewrite Hj in Hj''. inversion Hj''; subst. tauto.
  - apply genRunQueueM_Ret in Hg as (_ & _ & -> & _). split; [done|].
    apply not_elem_of_nil.
  - split.
    + rewrite (runJob_other_jobs _ _ _ _ _ p Hr); [done|].
      intros ->. apply Hnot. apply elem_of_app. right. by left.
    + intros Hin. apply Hnot. apply elem_of_app in Hin as [?|?];
        apply elem_of_app; [by left|right; by right].
  - split; [done|]. intros Hin. apply Hnot. apply elem_of_app. by left.
  - apply updateFailCount_Ret in Hu as (-> & _). done.
  - by rewrite updateDependence_Jobs.
  - split; [done|]. intros Hin. apply Hnot. by right.
  - split; [done|]. apply not_elem_of_nil.
Qed.

(** [Finished] and [Started] are final within a run: a job that has one
    of these statuses when a ready queue is about to be generated is never
    put in a queue, dispatched or bookkept afterwards, and its job object
    stays as it is until [Run] ends. *)
Theorem parked_job_is_left_alone (W : World) (w : nat) (st : State) (pt : Point)
    (st' : State) (p : string) (job : Job) :
  Jobs (dag st) !! p = Some job ->
  Status job = Finished \/ Status job = Started ->
  rtc (step W) (AtTop w, st) (pt, st') ->
  Jobs (dag st') !! p = Some job /\ p ∉ inHand pt.
Proof.
  intros Hj Hs Hr.
  remember (AtTop w, st) as x eqn:Hx. remember (pt, st') as y eqn:Hy.
  assert (H0 : Jobs (dag x.2) !! p = Some job /\ p ∉ inHand x.1).
  { subst x. split; [done|]. apply not_elem_of_nil. }
  clear Hx Hj. revert pt st' Hy.
  induction Hr as [x|x y z Hstep Hr IH]; intros pt st' Hy; subst.
  - exact H0.
  - eapply IH; [|reflexivity]. by eapply step_parked.
Qed.

(** *** updateFailCount *)

Lemma updateFails_Statuses job t : Statuses (updateFails job t) = Statuses t.
Proof. unfold updateFails. by repeat case_match. Qed.

Lemma updateFails_lookup_other job t name :
  name <> Name job -> Fails (updateFails job t) !! name = Fails t !! name.
Proof.
  intros Hne. unfold updateFails. repeat case_match; simpl; try done.
  - by rewrite lookup_delete_ne.
  - by rewrite lookup_insert_ne.
  - by rewrite lookup_insert_ne.
Qed.

Lemma updateFails_Failed job t :
  Status job = Failed ->
  Fails (updateFails job t) !! Name job =
    Some (GoInt.add (failCount t (Name job)) 1).
Proof.
  intros Hs. unfold updateFails, failCount. rewrite Hs.
  destruct (Fails t !! Name job); simpl; by rewrite lookup_insert_eq.
Qed.

Lemma updateFails_Finished job t :
  Status job = Finished -> Fails (updateFails job t) !! Name job = None.
Proof.
  intros Hs. unfold updateFails. rewrite Hs.
  destruct (Fails t !! Name job) eqn:Hn; simpl; [|done].
  by rewrite lookup_delete_eq.
Qed.

(** [updateFailCount] touches the counter of [job.Name] and nothing else:
    for a [Failed] job the counter Go reads goes up by one (an absent
    counter reads 0 and becomes 1), for a [Finished] job the entry is
    removed, and for any other status the tracker is unchanged. *)
Theorem updateFailCount_counts (job : Job) (st : State) :
  exists st', updateFailCount job st = Ret tt st' /\
    dag st' = dag st /\
    Statuses (tracker st') = Statuses (tracker st) /\
    (forall name, name <> Name job ->
       Fails (tracker st') !! name = Fails (tracker st) !! name) /\
    (Status job = Failed ->
     Fails (tracker st') !! Name job =
       Some (GoInt.add (failCount (tracker st) (Name job)) 1) /\
     (- 2 ^ 63 <= failCount (tracker st) (Name job) < 2 ^ 63 - 1 ->
      failCount (tracker st') (Name job) =
        failCount (tracker st) (Name job) + 1)) /\
    (Status job = Finished -> Fails (tracker st') !! Name job = None) /\
    (Status job <> Failed -> Status job <> Finished ->
     tracker st' = tracker st).
Proof.
  destruct (updateFailCount job st) as [[] st'| | |] eqn:Hu;
    try (unfold updateFailCount, logf, emit, modifyTracker, mbind, M_bind,
           mret, M_ret in Hu; by case_decide).
  exists st'. split; [done|].
  apply updateFailCount_Ret in Hu as (Hd & Ht). rewrite Ht.
  split; [done|]. split; [apply updateFails_Statuses|].
  split; [intros name Hne; by apply updateFails_lookup_other|].
  split; [|split].
  - intros Hs. split; [by apply updateFails_Failed|].
    intros Hr. unfold failCount at 1. rewrite (updateFails_Failed _ _ Hs). simpl.
    apply (GoInt.add_1_below _ (2 ^ 63 - 1)); lia.
  - apply updateFails_Finished.
  - intros H1 H2. unfold updateFails. by destruct (Status job).
Qed.


(** *** Run does not panic *)

Definition allRegistered (W : World) (d : DAG) : Prop :=
  forall k job, Jobs d !! k = Some job -> registered W (Type_ job) = true.

Lemma runJob_returns W w p st :
  is_Some (Jobs (dag st) !! p) -> allRegistered W (dag st) ->
  getStatusOk W w p = true ->
  exists st', runJob W w p st = Ret tt st'.
Proof.
  intros [job Hj] Hreg Hget.
  pose proof (runJob_runJobData W w p st) as Hd.
  unfold runJobData in Hd. simpl in Hd. rewrite Hj in Hd.
  assert (Hv : is_Some (verdict W w p job (GetStatus (tracker st) job))).
  { unfold verdict. rewrite Hget, (Hreg _ _ Hj). simpl.
    repeat case_match; eauto. }
  destruct Hv as [[s wrote] Hv]. rewrite Hv in Hd.
  destruct Hd as (evs & Hd). eauto.
Qed.

Lemma runFrame_allRegistered W st st' :
  runFrame st st' -> allRegistered W (dag st) -> allRegistered W (dag st').
Proof.
  intros (_ & _ & _ & Hj & _) Hr k job' Hk.
  specialize (Hj k). rewrite Hk in Hj.
  inversion Hj as [job ? (_ & Hty & _) Hjob|]; subst.
  rewrite Hty. by eapply Hr.
Qed.

Lemma runFrame_is_Some st st' k :
  runFrame st st' -> is_Some (Jobs (dag st) !! k) -> is_Some (Jobs (dag st') !! k).
Proof.
  intros (_ & _ & _ & Hj & _) [job Hk]. specialize (Hj k). rewrite Hk in Hj.
  inversion Hj; subst. eauto.
Qed.

Lemma runQueue_returns W w q st :
  (forall p, p ∈ q -> is_Some (Jobs (dag st) !! p)) ->
  allRegistered W (dag st) ->
  (forall p, getStatusOk W w p = true) ->
  exists st', runQueue W w q st = Ret tt st' /\ runFrame st st'.
Proof.
  intros Hq Hreg Hget. unfold runQueue. revert st Hq Hreg.
  induction q as [|p q IH]; intros st Hq Hreg; simpl.
  - exists st. split; [done|reflexivity].
  - destruct (runJob_returns W w p st) as (st1 & H1); [apply Hq; by left|done..|].
    pose proof (runFrame_runJob W w p _ _ _ H1) as Hfr.
    destruct (IH st1) as (st' & H2 & Hfr').
    + intros p' Hp'. eapply runFrame_is_Some; [done|]. apply Hq. by right.
    + by eapply runFrame_allRegistered.
    + exists st'. split; [|by etrans].
      unfold mbind, M_bind. by rewrite H1.
Qed.

Lemma updateDependence_keys W t u d post name :
  is_Some (InDegrees (updateDependence W t u d post) !! name) ->
  is_Some (InDegrees d !! name).
Proof.
  unfold updateDependence.
  destruct (decide (inDegree d post = 0)) as [Hz|Hz]; [done|].
  assert (Hpost : is_Some (InDegrees d !! post)).
  { unfold inDegree in Hz. destruct (InDegrees d !! post); [eauto|done]. }
  assert (Hput : forall v, is_Some (InDegrees (putInDegree post v d) !! name) ->
                           is_Some (InDegrees d !! name)).
  { intros v. unfold putInDegree. simpl.
    destruct (decide (post = name)) as [<-|Hne]; [done|].
    by rewrite lookup_insert_ne. }
  repeat case_match; eauto.
Qed.

Lemma updateDependencesOn_keys W t u posts d name :
  is_Some (InDegrees (updateDependencesOn W t u posts d) !! name) ->
  is_Some (InDegrees d !! name).
Proof.
  unfold updateDependencesOn. revert d.
  induction posts as [|p ps IH]; intros d; simpl; [done|].
  intros H. apply IH in H. by eapply updateDependence_keys.
Qed.

Lemma bookkeeping_returns W q st :
  (forall p, p ∈ q -> is_Some (Jobs (dag st) !! p)) ->
  exists st', bookkeeping W q st = Ret tt st' /\
    Jobs (dag st') = Jobs (dag st) /\
    forall name, is_Some (InDegrees (dag st') !! name) ->
                 is_Some (InDegrees (dag st) !! name).
Proof.
  unfold bookkeeping. revert st.
  induction q as [|p q IH]; intros st Hq; simpl.
  - exists st. done.
  - destruct (Hq p) as [job Hj]; [by left|].
    pose proof (bookkeep_bookkeepData W p st) as Hb.
    unfold bookkeepData in Hb. simpl in Hb. rewrite Hj in Hb.
    destruct Hb as (evs & Hb).
    unfold mbind, M_bind. rewrite Hb.
    match goal with |- context [forEach _ _ ?s] => destruct (IH s) as (st' & H2 & HJ & HK) end.
    + simpl. intros p' Hp'. rewrite updateDependencesOn_Jobs. apply Hq. by right.
    + exists st'. split; [done|]. simpl in *. split.
      * by rewrite HJ, updateDependencesOn_Jobs.
      * intros name Hn. apply HK in Hn. by eapply updateDependencesOn_keys.
Qed.

Lemma genRunQueueM_returns W w st :
  validOrder W -> inDegreesNamed (dag st) ->
  exists q st', genRunQueueM W w st = Ret q st' /\
    dag st' = dag st /\ tracker st' = tracker st /\
    forall p, p ∈ q -> is_Some (Jobs (dag st) !! p).
Proof.
  intros Ho Hn.
  destruct (genRunQueueFrom_total W (dag st) (tracker st)
              (mapOrder W w (map_to_list (InDegrees (dag st))))) as [[q evs] Hg].
  { intros name i Hin. apply (Hn name i).
    apply elem_of_map_to_list. by rewrite <- (Ho w (map_to_list _)). }
  unfold genRunQueueM, genRunQueue, getDAG, getTracker, emit, mbind, M_bind,
    mret, M_ret. simpl. rewrite Hg. simpl.
  eexists q, _. split; [done|]. simpl. split; [done|]. split; [done|].
  intros p Hp. apply (genRunQueueFrom_elem _ _ _ _ _ _ Hg) in Hp
    as (i & job & _ & Hj & _). eauto.
Qed.

Lemma waveLoop_never_panics W fuel w q st :
  validOrder W ->
  (forall w p, getStatusOk W w p = true) ->
  inDegreesNamed (dag st) -> allRegistered W (dag st) ->
  (forall p, p ∈ q -> is_Some (Jobs (dag st) !! p)) ->
  waveLoop W fuel w q st <> Panic.
Proof.
  intros Ho Hget. revert w q st.
  induction fuel as [|fuel IH]; intros w q st Hn Hreg Hq.
  - destruct q; simpl; [|done].
    destruct (finish_Ret st) as (st' & -> & _). done.
  - destruct q as [|p q]; simpl.
    { destruct (finish_Ret st) as (st' & -> & _). done. }
    destruct (runQueue_returns W w (p :: q) st Hq Hreg (Hget w))
      as (s1 & Hrun & Hfr).
    destruct (bookkeeping_returns W (p :: q) s1) as (s2 & Hbook & HJ & HK).
    { intros p' Hp'. eapply runFrame_is_Some; [done|]. by apply Hq. }
    assert (Hn2 : inDegreesNamed (dag s2)).
    { intros name i Hi. rewrite HJ.
      destruct (HK name) as [i' Hi']; [eauto|].
      pose proof Hfr as (Hin & _). rewrite Hin in Hi'.
      eapply runFrame_is_Some; [exact Hfr|]. by eapply Hn. }
    assert (Hreg2 : allRegistered W (dag s2)).
    { unfold allRegistered. rewrite HJ. by eapply runFrame_allRegistered. }
    destruct (genRunQueueM_returns W (S w) s2 Ho Hn2) as (q2 & s3 & Hgen & Hd & _ & Hq2).
    unfold oneWave, mbind, M_bind. rewrite Hrun, Hbook, Hgen.
    apply IH; rewrite ?Hd; done.
Qed.

(** [Run] never panics when every key of [InDegrees] names a job and the
    persistent store can be read: once [checkDAG] has passed, no worker
    misses its executor, and no pointer of a queue is dangling. *)
Theorem Run_never_panics (W : World) (fuel : nat) (st : State) :
  validOrder W ->
  inDegreesNamed (dag st) ->
  (forall w p, getStatusOk W w p = true) ->
  Run W fuel st <> Panic.
Proof.
  intros Ho Hn Hget. unfold Run, getDAG, mbind, M_bind.
  destruct (checkDAG W (dag st)) as [e|] eqn:Hc.
  - destruct e as [t|]; unfold fatal, logf, emit, exit, mbind, M_bind, mret, M_ret;
      simpl; [|done].
    by destruct (fatalExits W).
  - destruct (genRunQueueM_returns W 0 st Ho Hn) as (q & s & Hgen & Hd & _ & Hq).
    rewrite Hgen. apply waveLoop_never_panics; rewrite ?Hd; try done.
    unfold checkDAG in Hc. apply checkJobs_None_iff in Hc.
    intros k job Hk. rewrite Forall_forall in Hc.
    apply (Hc (k, job)). by apply elem_of_map_to_list.
Qed.

(** *** NewSched *)

(** [config.Hadoop], [config.Hive] and [config.Odps] are not declared in
    config/cmdline.go; they are taken as given. *)
Record Config := mkConfig { Hadoop : bool; Hive : bool; Odps : bool }.

(** The keys of the executor map [e] that [NewSched] builds. *)
Definition executors (c : Config) : list JobType :=
  [DummyJob; ScriptJob] ++
  (if Hadoop c then [HadoopJob] else []) ++
  (if Hive c then [HiveJob] else []) ++
  (if Odps c then [OdpsJob] else []).

(** The loop that calls [Setup] on every executor and returns the first
    error; [setup t] is what [Setup] of the executor for [t] returns. *)
Fixpoint setupAll (setup : JobType -> option string) (types : list JobType)
    : option string :=
  match types with
  | [] => None
  | t :: rest =>
      match setup t with
      | Some err => Some err
      | None => setupAll setup rest
      end
  end.

(** [NewSched]: the error of a failed [Setup], or the scheduler, given by
    its executor registry.  [order] is the order of the range over [e]. *)
Definition NewSched (c : Config) (setup : JobType -> option string)
    (order : list JobType -> list JobType) : string + (JobType -> bool) :=
  match setupAll setup (order (executors c)) with
  | Some err => inl err
  | None => inr (fun t => bool_decide (t ∈ executors c))
  end.

Lemma setupAll_None setup types :
  setupAll setup types = None <-> forall t, t ∈ types -> setup t = None.
Proof.
  induction types as [|t rest IH]; simpl.
  - split; [|done]. intros _ t Ht. by apply not_elem_of_nil in Ht.
  - destruct (setup t) eqn:Hs.
    + split; [done|]. intros H. specialize (H t). rewrite Hs in H.
      discriminate H. by left.
    + rewrite IH. split.
      * intros H t' Ht'. apply elem_of_cons in Ht' as [->|Ht']; auto.
      * intros H t' Ht'. apply H. by right.
Qed.

Lemma setupAll_Some setup types err :
  setupAll setup types = Some err -> exists t, t ∈ types /\ setup t = Some err.
Proof.
  induction types as [|t rest IH]; simpl; [done|].
  destruct (setup t) eqn:Hs.
  - intros H. inversion H; subst. exists t. split; [by left|done].
  - intros H. destruct (IH H) as (t' & Ht' & Hs'). exists t'. split; [by right|done].
Qed.

(** [NewSched] succeeds exactly when [Setup] succeeds for every enabled
    executor, in whatever order they are set up; an error it returns is
    the [Setup] error of an enabled executor.  The scheduler it returns
    has executors for Dummy and Script always and for Hadoop, Hive and
    Odps exactly when the configuration enables them, so a DAG of Dummy
    and Script jobs always passes [checkDAG]. *)
Theorem NewSched_registry (c : Config) (setup : JobType -> option string)
    (order : list JobType -> list JobType) :
  order (executors c) ≡ₚ executors c ->
  ((exists reg, NewSched c setup order = inr reg) <->
   forall t, t ∈ executors c -> setup t = None) /\
  (forall err, NewSched c setup order = inl err ->
     exists t, t ∈ executors c /\ setup t = Some err) /\
  (forall reg, NewSched c setup order = inr reg ->
     reg DummyJob = true /\ reg ScriptJob = true /\
     reg HadoopJob = Hadoop c /\ reg HiveJob = Hive c /\ reg OdpsJob = Odps c /\
     forall W d, registered W = reg ->
       (forall k job, Jobs d !! k = Some job ->
          Type_ job = DummyJob \/ Type_ job = ScriptJob) ->
       checkDAG W d = None).
Proof.
  intros Hp. unfold NewSched. split; [|split].
  - destruct (setupAll setup (order (executors c))) as [err|] eqn:Hs.
    + split; [by intros [reg Hr]|].
      intros H. assert (Hn : setupAll setup (order (executors c)) = None).
      { apply setupAll_None. intros t Ht. apply H. by rewrite <- Hp. }
      congruence.
    + split; [|eauto]. intros _ t Ht.
      apply (proj1 (setupAll_None _ _) Hs). by rewrite Hp.
  - intros err H. destruct (setupAll setup (order (executors c))) as [e|] eqn:Hs;
      inversion H; subst.
    apply setupAll_Some in Hs as (t & Ht & Hs). exists t. by rewrite <- Hp.
  - intros reg H. destruct (setupAll setup (order (executors c))); inversion H; subst.
    assert (Hd : bool_decide (DummyJob ∈ executors c) = true).
    { apply bool_decide_eq_true_2. apply elem_of_app. left. by left. }
    assert (Hsc : bool_decide (ScriptJob ∈ executors c) = true).
    { apply bool_decide_eq_true_2. apply elem_of_app. left. right. by left. }
    split; [done|]. split; [done|].
    split; [|split; [|split]].
    + unfold executors. by destruct (Hadoop c), (Hive c), (Odps c); vm_compute.
    + unfold executors. by destruct (Hadoop c), (Hive c), (Odps c); vm_compute.
    + unfold executors. by destruct (Hadoop c), (Hive c), (Odps c); vm_compute.
    + intros W d HW Hjobs. unfold checkDAG. apply checkJobs_None_iff.
      apply Forall_forall. intros [k job] Hin. apply elem_of_map_to_list in Hin.
      simpl. rewrite HW. by destruct (Hjobs _ _ Hin) as [-> | ->].
Qed.


(** *** Predecessors are released before a job is dispatched *)

(** The names of the jobs of a DAG. *)
Definition keysOf (d : DAG) : list string := elements (dom (Jobs d)).

(** [u] names a job that lists [v] among its successors. *)
Definition isPred (d : DAG) (v u : string) : Prop :=
  match Jobs d !! u with
  | Some ju => v ∈ Post ju
  | None => False
  end.

#[global] Instance isPred_dec d v u : Decision (isPred d v u).
Proof. unfold isPred. destruct (Jobs d !! u); apply _. Defined.

(** Every successor is listed once. *)
Definition postsNoDup (d : DAG) : Prop :=
  forall k job, Jobs d !! k = Some job -> NoDup (Post job).

(** The in-degree of a job is at least the number of jobs that list it as
    a successor (the DAG builder sets it to that number). *)
Definition inDegreesCoverEdges (d : DAG) : Prop :=
  forall v, Z.of_nat (length (filter (isPred d v) (keysOf d))) <= inDegree d v.

#[global] Instance postsNoDup_dec d : Decision (postsNoDup d).
Proof.
  change (Decision (map_Forall (fun (_ : string) job => NoDup (Post job)) (Jobs d))).
  apply _.
Defined.

(** The edge from [u] to [v] is being handled at this point: [u] is in
    the wave in hand and its bookkeeping has not yet reached [v]. *)
Definition inProgress (pt : Point) (u v : string) : Prop :=
  match pt with
  | AtTop _ | AtExit => False
  | InRunQueue _ queue _ => u ∈ queue
  | InBookkeeping _ todo => u ∈ todo
  | InDependences _ p posts todo => u ∈ todo \/ (u = p /\ v ∈ posts)
  end.

#[global] Instance inProgress_dec pt u v : Decision (inProgress pt u v).
Proof. destruct pt; simpl; apply _. Defined.

(** [u] still holds [v] back: it lists [v] as a successor and the edge
    rule does not hold for it, or the edge is still being handled. *)
Definition blocking (W : World) (pt : Point) (st : State) (v u : string) : Prop :=
  match Jobs (dag st) !! u with
  | Some ju =>
      v ∈ Post ju /\
      (~ decrementRule W (tracker st) ju (dag st) v \/ inProgress pt u v)
  | None => False
  end.

#[global] Instance blocking_dec W pt st v u : Decision (blocking W pt st v u).
Proof. unfold blocking. destruct (Jobs (dag st) !! u); apply _. Defined.

Definition blockers (W : World) (pt : Point) (st : State) (v : string) : nat :=
  length (filter (blocking W pt st v) (keysOf (dag st))).

Lemma count_mono (P Q : string -> Prop) `{!forall x, Decision (P x)}
    `{!forall x, Decision (Q x)} (l : list string) :
  (forall u, u ∈ l -> P u -> Q u) ->
  (length (filter P l) <= length (filter Q l))%nat.
Proof.
  induction l as [|x l IH]; intros Himp; [done|].
  rewrite !filter_cons.
  assert (IH' : (length (filter P l) <= length (filter Q l))%nat).
  { apply IH. intros u Hu. apply Himp. by right. }
  destruct (decide (P x)) as [HP|HP]; destruct (decide (Q x)) as [HQ|HQ];
    simpl; try lia.
  exfalso. apply HQ, Himp; [by left|done].
Qed.

Lemma count_strict (P Q : string -> Prop) `{!forall x, Decision (P x)}
    `{!forall x, Decision (Q x)} (l : list string) (u : string) :
  (forall x, x ∈ l -> P x -> Q x) ->
  u ∈ l -> Q u -> ~ P u ->
  (length (filter P l) < length (filter Q l))%nat.
Proof.
  induction l as [|x l IH]; intros Himp Hu HQ HP.
  - by apply not_elem_of_nil in Hu.
  - rewrite !filter_cons.
    assert (Hm : (length (filter P l) <= length (filter Q l))%nat).
    { apply count_mono. intros y Hy. apply Himp. by right. }
    apply elem_of_cons in Hu as [<-|Hu].
    + rewrite decide_False by done. rewrite decide_True by done. simpl. lia.
    + assert (IH' : (length (filter P l) < length (filter Q l))%nat).
      { apply IH; try done. intros y Hy. apply Himp. by right. }
      destruct (decide (P x)) as [HPx|HPx]; destruct (decide (Q x)) as [HQx|HQx];
        simpl; try lia.
      exfalso. apply HQx, Himp; [by left|done].
Qed.

Lemma count_zero (P : string -> Prop) `{!forall x, Decision (P x)}
    (l : list string) (u : string) :
  length (filter P l) = 0%nat -> u ∈ l -> ~ P u.
Proof.
  intros Hz Hu HP.
  assert (Hin : u ∈ filter P l) by (apply list_elem_of_filter; done).
  destruct (filter P l); [by apply not_elem_of_nil in Hin|done].
Qed.

Lemma elem_of_keysOf d u : u ∈ keysOf d <-> is_Some (Jobs d !! u).
Proof. unfold keysOf. by rewrite elem_of_elements, elem_of_dom. Qed.

Lemma runFrame_keysOf st st' : runFrame st st' -> keysOf (dag st') = keysOf (dag st).
Proof.
  intros (_ & _ & _ & Hj & _). unfold keysOf. f_equal.
  apply set_eq. intros k. rewrite !elem_of_dom. specialize (Hj k).
  inversion Hj; split; intros [? ?]; eauto; congruence.
Qed.

Lemma decrementRule_ext W t t' u d d' v :
  Relations d' = Relations d ->
  failCount t' (Name u) = failCount t (Name u) ->
  decrementRule W t' u d' v <-> decrementRule W t u d v.
Proof.
  intros Hr Hf. unfold decrementRule, relationOf. by rewrite Hr, Hf.
Qed.

(** What the points of a run keep true. *)
Definition releaseInv (W : World) (pt : Point) (st : State) : Prop :=
  jobsByName (dag st) /\ postsNoDup (dag st) /\ inDegreesCounted (dag st) /\
  (forall v, Z.of_nat (blockers W pt st v) <= inDegree (dag st) v) /\
  match pt with
  | InRunQueue _ queue todo =>
      NoDup queue /\ todo ⊆ queue /\
      forall p, p ∈ queue -> inDegree (dag st) p = 0
  | InBookkeeping _ todo => NoDup todo
  | InDependences _ p posts todo =>
      NoDup (p :: todo) /\
      exists jp done, Jobs (dag st) !! p = Some jp /\ Post jp = done ++ posts
  | _ => True
  end.

Lemma blockers_mono W pt pt' st st' v :
  keysOf (dag st') = keysOf (dag st) ->
  (forall u, blocking W pt' st' v u -> blocking W pt st v u) ->
  (blockers W pt' st' v <= blockers W pt st v)%nat.
Proof.
  intros Hk H. unfold blockers. rewrite Hk. apply count_mono. auto.
Qed.

Lemma step_releaseInv W x y :
  validOrder W ->
  step W x y -> releaseInv W x.1 x.2 -> releaseInv W y.1 y.2.
Proof.
  intros Hord Hs (Hn & Hpd & Hc & Hcov & Hpt). unfold releaseInv.
  destruct Hs as [w st q st' Hg _|w st st' Hg|w q p todo st st' Hr|w q st|
                  w p todo job st st' Hj Hu|w p post posts todo job st Hj|
                  w p todo st|w st];
    simpl in *.
  - (* a queue is generated *)
    pose proof (genRunQueueM_Ret _ _ _ _ _ Hg) as (evs & Hg' & Hd & Ht & _).
    apply (genRunQueue_sound _ _ _ _ _ _ Hord) in Hg' as [Hq Hiff].
    rewrite Hd. refine (conj Hn (conj Hpd (conj Hc (conj _ _)))).
    + intros v. etrans; [|apply (Hcov v)]. apply inj_le.
      apply blockers_mono; [by rewrite Hd|].
      intros u. unfold blocking. rewrite Hd, Ht. simpl.
      destruct (Jobs (dag st) !! u) as [ju|] eqn:Hju; [|done].
      intros [Hv [Hrule|Hq']]; (split; [done|left]); [done|].
      apply Hiff in Hq' as (ju' & Hju' & _ & Hnf & _ & Hlt).
      rewrite Hju in Hju'. inversion Hju'; subst ju'.
      intros [Hf|(_ & Hm & _)]; [done|lia].
    + split; [done|]. split; [done|].
      intros p Hp. apply Hiff in Hp as (job & _ & Hi & _).
      unfold inDegree. by rewrite Hi.
  - (* the loop ends *)
    pose proof (genRunQueueM_Ret _ _ _ _ _ Hg) as (evs & _ & Hd & Ht & _).
    rewrite Hd. refine (conj Hn (conj Hpd (conj Hc (conj _ I)))).
    intros v. etrans; [|apply (Hcov v)]. apply inj_le.
    apply blockers_mono; [by rewrite Hd|].
    intros u. unfold blocking. rewrite Hd, Ht. simpl. done.
  - (* a worker runs *)
    destruct Hpt as (Hq & Hsub & Hz).
    pose proof (runFrame_runJob _ _ _ _ _ _ Hr) as Hfr.
    pose proof Hfr as (Hin & Hrel & Hfails & Hjobs & _).
    assert (Hn' := runFrame_jobsByName _ _ Hfr Hn).
    refine (conj Hn' (conj _ (conj _ (conj _ _)))).
    + intros k job' Hk. specialize (Hjobs k). rewrite Hk in Hjobs.
      inversion Hjobs as [job ? (_ & _ & HP) Hjob|]; subst. rewrite HP.
      by eapply Hpd.
    + unfold inDegreesCounted. by rewrite Hin.
    + intros v. unfold inDegree. rewrite Hin. etrans; [|apply (Hcov v)].
      apply inj_le. apply blockers_mono; [by apply runFrame_keysOf|].
      intros u. unfold blocking. simpl.
      destruct (decide (u = p)) as [->|Hne].
      * specialize (Hjobs p).
        destruct (Jobs (dag st') !! p) as [jp'|]; [|done].
        inversion Hjobs as [jp ? (_ & _ & HP) Hjp|]; subst.
        intros [Hv _]. split; [by rewrite <- HP|]. right. apply Hsub. by left.
      * rewrite (runJob_other_jobs _ _ _ _ _ u Hr Hne).
        destruct (Jobs (dag st) !! u) as [ju|]; [|done].
        intros [Hv Hb]. split; [done|].
        destruct Hb as [Hrule|Hq']; [left|by right].
        intros Hrule'. apply Hrule.
        apply (decrementRule_ext W (tracker st) (tracker st') ju (dag st) (dag st'));
          [done| |done].
        unfold failCount. by rewrite Hfails.
    + split; [done|]. split.
      * intros x' Hx'. apply Hsub. by right.
      * intros p' Hp'. unfold inDegree. rewrite Hin. by apply Hz.
  - (* the workers have joined *)
    destruct Hpt as (Hq & _ & _).
    refine (conj Hn (conj Hpd (conj Hc (conj _ Hq)))).
    intros v. etrans; [|apply (Hcov v)]. apply inj_le.
    apply blockers_mono; [done|]. intros u. unfold blocking. simpl. done.
  - (* updateFailCount *)
    apply updateFailCount_Ret in Hu as (Hd & Ht). rewrite Hd.
    pose proof (Hn _ _ Hj) as Hname.
    refine (conj Hn (conj Hpd (conj Hc (conj _ _)))).
    + intros v. etrans; [|apply (Hcov v)]. apply inj_le.
      apply blockers_mono; [by rewrite Hd|].
      intros u. unfold blocking. rewrite Hd, Ht. simpl.
      destruct (decide (u = p)) as [->|Hne].
      * rewrite Hj. intros [Hv _]. split; [done|]. right. by left.
      * destruct (Jobs (dag st) !! u) as [ju|] eqn:Hju; [|done].
        intros [Hv Hb]. split; [done|].
        destruct Hb as [Hrule|[Hq'|[? _]]]; [left|right; by right|done].
        intros Hrule'. apply Hrule.
        apply (decrementRule_ext W (tracker st) (updateFails job (tracker st))
                 ju (dag st) (dag st)); [done| |done].
        apply updateFails_other. rewrite (Hn _ _ Hju), Hname. done.
    + split; [done|]. exists job, []. by split.
  - (* one successor is handled *)
    destruct Hpt as (Hnd & jp & done_ & Hjp & Hpost).
    rewrite Hj in Hjp. inversion Hjp; subst jp; clear Hjp.
    pose proof (Hpd _ _ Hj) as Hndp. rewrite Hpost in Hndp.
    apply NoDup_app in Hndp as (_ & _ & Hndp).
    apply NoDup_cons in Hndp as [Hfresh _].
    apply NoDup_cons in Hnd as [Hp_todo Hnd_todo].
    assert (HJ := updateDependence_Jobs W (tracker st) job (dag st) post).
    assert (HR := updateDependence_Relations W (tracker st) job (dag st) post).
    assert (Hmono : forall v u,
      blocking W (InDependences w p posts todo)
        (withDAG (updateDependence W (tracker st) job (dag st) post) st) v u ->
      blocking W (InDependences w p (post :: posts) todo) st v u).
    { intros v u. unfold blocking. simpl. rewrite HJ.
      destruct (Jobs (dag st) !! u) as [ju|]; [|done].
      intros [Hv Hb]. split; [done|].
      destruct Hb as [Hrule|[Hq'|[-> Hin]]].
      - left. intros Hrule'. apply Hrule.
        by apply (decrementRule_ext W (tracker st) (tracker st) ju (dag st)).
      - right. by left.
      - right. right. split; [done|]. by right. }
    assert (Hkeys : keysOf (updateDependence W (tracker st) job (dag st) post)
                    = keysOf (dag st)) by (unfold keysOf; by rewrite HJ).
    refine (conj _ (conj _ (conj _ (conj _ _)))).
    + unfold jobsByName. by rewrite HJ.
    + unfold postsNoDup. by rewrite HJ.
    + by apply updateDependence_counted.
    + intros v. rewrite updateDependence_inDegree.
      assert (Hle : (blockers W (InDependences w p posts todo)
                       (withDAG (updateDependence W (tracker st) job (dag st) post) st) v
                     <= blockers W (InDependences w p (post :: posts) todo) st v)%nat).
      { apply blockers_mono; [done|]. apply Hmono. }
      case_decide as Hdec.
      * destruct Hdec as (-> & Hnz & Hrule).
        assert (Hpos : 0 < inDegree (dag st) post < 2 ^ 63).
        { unfold inDegree in *.
          destruct (InDegrees (dag st) !! post) as [i|] eqn:Hi; simpl in *; [|done].
          apply Hc in Hi. lia. }
        rewrite GoInt.sub_1_pos by done.
        assert (Hlt : (blockers W (InDependences w p posts todo)
                         (withDAG (updateDependence W (tracker st) job (dag st) post) st) post
                       < blockers W (InDependences w p (post :: posts) todo) st post)%nat).
        { unfold blockers. simpl. rewrite Hkeys.
          apply (count_strict _ _ _ p).
          - intros u _. apply Hmono.
          - apply elem_of_keysOf. eauto.
          - unfold blocking. rewrite Hj. simpl. split.
            + rewrite Hpost. apply elem_of_app. right. by left.
            + right. right. split; [done|by left].
          - unfold blocking. simpl. rewrite HJ, Hj.
            intros [_ [Hnr|[Hq'|[_ Hin]]]]; [|done|done].
            apply Hnr.
            by apply (decrementRule_ext W (tracker st) (tracker st) job (dag st)). }
        specialize (Hcov post). lia.
      * specialize (Hcov v). lia.
    + split; [by apply NoDup_cons|].
      exists job, (done_ ++ [post]). rewrite HJ. split; [done|].
      by rewrite <- app_assoc.
  - (* the successors of a job are done *)
    destruct Hpt as (Hnd & _). apply NoDup_cons in Hnd as [_ Hnd].
    refine (conj Hn (conj Hpd (conj Hc (conj _ Hnd)))).
    intros v. etrans; [|apply (Hcov v)]. apply inj_le.
    apply blockers_mono; [done|]. intros u. unfold blocking. simpl.
    destruct (Jobs (dag st) !! u); [|done].
    intros [Hv Hb]. split; [done|]. tauto.
  - (* next wave *)
    refine (conj Hn (conj Hpd (conj Hc (conj _ I)))).
    intros v. etrans; [|apply (Hcov v)]. apply inj_le.
    apply blockers_mono; [done|]. intros u. unfold blocking. simpl.
    destruct (Jobs (dag st) !! u); [|done].
    intros [Hv Hb]. split; [done|]. tauto.
Qed.

(** In every wave of a run, a job is in the queue only when each job that
    lists it as a successor has been released: that predecessor is
    [Finished], or it is [Failed] with [Fails >= MaxRetry] over an edge
    recorded as [NonStrict]; and the predecessor is not in the same wave.
    This holds for a DAG that files jobs under their names, lists each
    successor once and starts with in-degrees that count the incoming
    edges. *)
Theorem dispatched_after_predecessors (W : World) (st0 : State) (w : nat)
    (queue todo : list string) (st : State) (u v : string) (ju : Job) :
  validOrder W ->
  jobsByName (dag st0) ->
  postsNoDup (dag st0) ->
  inDegreesCounted (dag st0) ->
  inDegreesCoverEdges (dag st0) ->
  reach W st0 (InRunQueue w queue todo) st ->
  v ∈ queue ->
  Jobs (dag st) !! u = Some ju ->
  v ∈ Post ju ->
  decrementRule W (tracker st) ju (dag st) v /\ u ∉ queue.
Proof.
  intros Hord Hn Hpd Hc Hcov Hr Hv Hju Hpost.
  assert (Hinv : releaseInv W (InRunQueue w queue todo) st).
  { unfold reach in Hr.
    remember (AtTop 0, st0) as x eqn:Hx.
    remember (InRunQueue w queue todo, st) as y eqn:Hy.
    assert (H0 : releaseInv W x.1 x.2).
    { subst x. refine (conj Hn (conj Hpd (conj Hc (conj _ I)))).
      intros v'. etrans; [|apply (Hcov v')]. apply inj_le.
      unfold blockers. apply count_mono. intros k _. unfold blocking, isPred.
      simpl. destruct (Jobs (dag st0) !! k); tauto. }
    clear Hx Hn Hpd Hc Hcov. revert Hy.
    generalize (InRunQueue w queue todo). intros pt Hy. revert pt st Hju Hy.
    induction Hr as [x|x y z Hs Hr IH]; intros pt st Hju Hy; subst.
    - exact H0.
    - eapply IH; [|exact Hju|reflexivity]. eapply step_releaseInv; eauto. }
  destruct Hinv as (_ & _ & _ & Hcover & _ & _ & Hz).
  specialize (Hcover v). rewrite (Hz v Hv) in Hcover.
  assert (Hzero : blockers W (InRunQueue w queue todo) st v = 0%nat) by lia.
  assert (Hnb : ~ blocking W (InRunQueue w queue todo) st v u).
  { apply (count_zero _ _ _ Hzero). apply elem_of_keysOf. eauto. }
  unfold blocking in Hnb. rewrite Hju in Hnb. simpl in Hnb.
  split.
  - destruct (decide (decrementRule W (tracker st) ju (dag st) v)); [done|].
    exfalso. apply Hnb. split; [done|]. by left.
  - intros Hq. apply Hnb. split; [done|]. by right.
Qed.


(** *** Run terminates *)

(** No executor returns nil leaving the job [NotStarted]. *)
Definition settling (W : World) : Prop :=
  forall w p, execRun W w p <> ExecNil NotStarted.

(** The fail counters are Go ints. *)
Definition failsInRange (t : StatusTracker) : Prop :=
  forall name n, Fails t !! name = Some n -> GoInt.inRange n.

#[global] Instance failsInRange_dec t : Decision (failsInRange t).
Proof.
  change (Decision (map_Forall (fun (_ : string) n => GoInt.inRange n) (Fails t))).
  unfold GoInt.inRange. apply _.
Defined.

(** The dispatches a job may still get: none once it is [Finished] or
    [Started], else what is left of [MaxRetry]. *)
Definition attemptsLeft (W : World) (st : State) (u : string) : nat :=
  match Jobs (dag st) !! u with
  | Some ju =>
      if decide (Status ju = Finished \/ Status ju = Started) then 0%nat
      else Z.to_nat (MaxRetry W - failCount (tracker st) u)
  | None => 0%nat
  end.

(** A bound on the number of waves still to come. *)
Definition wavesLeft (W : World) (st : State) : nat :=
  sum_list_with (attemptsLeft W st) (keysOf (dag st)).

Lemma sum_list_with_le (f g : string -> nat) l :
  (forall x, x ∈ l -> (f x <= g x)%nat) ->
  (sum_list_with f l <= sum_list_with g l)%nat.
Proof.
  induction l as [|x l IH]; intros H; simpl; [done|].
  assert (f x <= g x)%nat by (apply H; by left).
  assert (sum_list_with f l <= sum_list_with g l)%nat
    by (apply IH; intros y Hy; apply H; by right).
  lia.
Qed.

Lemma sum_list_with_lt (f g : string -> nat) l u :
  (forall x, x ∈ l -> (f x <= g x)%nat) ->
  u ∈ l -> (f u < g u)%nat ->
  (sum_list_with f l < sum_list_with g l)%nat.
Proof.
  induction l as [|x l IH]; intros H Hu Hlt.
  - by apply not_elem_of_nil in Hu.
  - simpl.
    assert (Hx : (f x <= g x)%nat) by (apply H; by left).
    assert (Hl : (sum_list_with f l <= sum_list_with g l)%nat).
    { apply sum_list_with_le. intros y Hy. apply H. by right. }
    apply elem_of_cons in Hu as [<-|Hu]; [lia|].
    assert (sum_list_with f l < sum_list_with g l)%nat.
    { apply IH; [|done..]. intros y Hy. apply H. by right. }
    lia.
Qed.

Lemma verdict_settles W w p job persisted s wrote :
  settling W -> verdict W w p job persisted = Some (s, wrote) -> s <> NotStarted.
Proof.
  intros Hset. unfold verdict.
  repeat case_match; intros Hv; inversion Hv; subst; try done.
  - intros ->. by eapply Hset.
  - intros ->. by eapply Hset.
Qed.

Lemma runJob_own_job W w p st st' job :
  settling W ->
  Jobs (dag st) !! p = Some job ->
  runJob W w p st = Ret tt st' ->
  exists s, Jobs (dag st') !! p = Some (withStatus s job) /\ s <> NotStarted.
Proof.
  intros Hset Hj Hr. pose proof (runJob_runJobData W w p st) as Hd.
  unfold runJobData in Hd. simpl in Hd. rewrite Hj in Hd.
  destruct (verdict W w p job (GetStatus (tracker st) job)) as [[s wrote]|] eqn:Hv;
    [|congruence].
  destruct Hd as (evs & Hd). rewrite Hd in Hr. inversion Hr; subst.
  exists s. unfold putJob. simpl. rewrite lookup_insert_eq.
  split; [done|]. by eapply verdict_settles.
Qed.

Lemma runQueue_other_jobs W w q st st' u :
  runQueue W w q st = Ret tt st' -> u ∉ q ->
  Jobs (dag st') !! u = Jobs (dag st) !! u.
Proof.
  unfold runQueue. revert st.
  induction q as [|p q IH]; intros st Hr Hu; simpl in Hr.
  - by inversion Hr.
  - apply bind_Ret in Hr as ([] & s1 & H1 & H2).
    rewrite (IH _ H2) by (intros ?; apply Hu; by right).
    apply (runJob_other_jobs _ _ _ _ _ _ H1). intros ->. apply Hu. by left.
Qed.

Lemma runQueue_own_job W w q st st' u ju :
  settling W -> NoDup q -> u ∈ q ->
  Jobs (dag st) !! u = Some ju ->
  runQueue W w q st = Ret tt st' ->
  exists s, Jobs (dag st') !! u = Some (withStatus s ju) /\ s <> NotStarted.
Proof.
  intros Hset. unfold runQueue. revert st.
  induction q as [|p q IH]; intros st Hnd Hu Hj Hr; simpl in Hr.
  - by apply not_elem_of_nil in Hu.
  - apply NoDup_cons in Hnd as [Hp Hnd].
    apply bind_Ret in Hr as ([] & s1 & H1 & H2).
    destruct (decide (u = p)) as [->|Hne].
    + destruct (runJob_own_job _ _ _ _ _ _ Hset Hj H1) as (s & Hs & Hns).
      exists s. split; [|done].
      by rewrite (runQueue_other_jobs _ _ _ _ _ p H2 Hp).
    + apply (IH s1); try done.
      * apply elem_of_cons in Hu as [?|?]; done.
      * by rewrite (runJob_other_jobs _ _ _ _ _ u H1 Hne).
Qed.

Lemma runQueue_frame W w q st st' :
  runQueue W w q st = Ret tt st' -> runFrame st st'.
Proof.
  intros Hr. unfold runQueue in Hr.
  apply (preserves_forEach runFrame (runJob W w) q (runFrame_runJob W w) _ _ _ Hr).
Qed.

(** The counter of a job after its own bookkeeping. *)
Definition nextFail (s : JobStatus) (old : option Z) : option Z :=
  match s with
  | Failed => Some (match old with None => 1 | Some n => GoInt.add n 1 end)
  | Finished => None
  | _ => old
  end.

Lemma updateFails_lookup_self job t :
  Fails (updateFails job t) !! Name job = nextFail (Status job) (Fails t !! Name job).
Proof.
  unfold updateFails, nextFail.
  destruct (Status job); try done;
    destruct (Fails t !! Name job) eqn:Hn; simpl;
    rewrite ?lookup_insert_eq, ?lookup_delete_eq; done.
Qed.

Lemma updateFails_inRange job t :
  failsInRange t -> failsInRange (updateFails job t).
Proof.
  intros Hr name n. destruct (decide (name = Name job)) as [->|Hne].
  - rewrite updateFails_lookup_self. unfold nextFail.
    destruct (Status job); try apply Hr; try done.
    destruct (Fails t !! Name job); intros H; inversion H; subst.
    + apply GoInt.wrap_inRange.
    + unfold GoInt.inRange. lia.
  - rewrite updateFails_lookup_other by done. apply Hr.
Qed.

Lemma bookkeepingData_effect W q x y :
  jobsByName x.1 -> NoDup q -> failsInRange x.2 ->
  bookkeepingData W q x = Some y ->
  Jobs y.1 = Jobs x.1 /\ failsInRange y.2 /\
  (forall u, u ∉ q -> Fails y.2 !! u = Fails x.2 !! u) /\
  (forall u ju, u ∈ q -> Jobs x.1 !! u = Some ju ->
     Fails y.2 !! u = nextFail (Status ju) (Fails x.2 !! u)).
Proof.
  revert x. induction q as [|p q IH]; intros x Hn Hnd Hr Hb; simpl in Hb.
  - inversion Hb; subst. split; [done|]. split; [done|]. split; [done|].
    intros u ju Hu. by apply not_elem_of_nil in Hu.
  - apply NoDup_cons in Hnd as [Hp Hnd].
    destruct (bookkeepData W p x) as [z|] eqn:Hz; [|done].
    unfold bookkeepData in Hz.
    destruct (Jobs x.1 !! p) as [jp|] eqn:Hjp; [|done].
    inversion Hz; subst z; clear Hz.
    pose proof (Hn _ _ Hjp) as Hname.
    destruct x as [d t]. cbn [fst snd] in *.
    assert (Hn' : jobsByName
              (updateDependencesOn W (updateFails jp t) jp (Post jp) d)).
    { unfold jobsByName. by rewrite updateDependencesOn_Jobs. }
    destruct (IH (updateDependencesOn W (updateFails jp t) jp (Post jp) d,
                  updateFails jp t) Hn' Hnd (updateFails_inRange jp t Hr) Hb)
      as (HJ & Hr' & Hother & Hown).
    cbn [fst snd] in *. rewrite updateDependencesOn_Jobs in HJ, Hown.
    split; [done|]. split; [done|]. split.
    + intros u Hu. rewrite Hother by (intros ?; apply Hu; by right).
      apply updateFails_lookup_other. rewrite Hname. intros ->. apply Hu. by left.
    + intros u ju Hu Hju. destruct (decide (u = p)) as [->|Hne].
      * rewrite Hother by done. rewrite Hjp in Hju. inversion Hju; subst ju.
        pose proof (updateFails_lookup_self jp t) as Hself.
        by rewrite Hname in Hself.
      * apply elem_of_cons in Hu as [?|Hu]; [done|].
        rewrite (Hown u ju Hu Hju).
        f_equal. apply updateFails_lookup_other. by rewrite Hname.
Qed.

(** The jobs of a freshly generated queue. *)
Definition readyQueue (W : World) (q : list string) (st : State) : Prop :=
  NoDup q /\
  forall p, p ∈ q -> exists job, Jobs (dag st) !! p = Some job /\
    Status job <> Finished /\ Status job <> Started /\
    failCount (tracker st) (Name job) < MaxRetry W.

Lemma genRunQueueM_readyQueue W w st q st' :
  validOrder W -> genRunQueueM W w st = Ret q st' ->
  readyQueue W q st' /\ dag st' = dag st /\ tracker st' = tracker st.
Proof.
  intros Ho Hg. pose proof (genRunQueueM_Ret _ _ _ _ _ Hg) as (evs & Hg' & Hd & Ht & _).
  split; [|done]. split.
  - by apply (genRunQueue_sound _ _ _ _ _ _ Ho Hg').
  - intros p Hp. rewrite Hd, Ht. by eapply genRunQueueM_ready.
Qed.

Lemma wave_decreases W w q st s1 s2 :
  settling W -> MaxRetry W < 2 ^ 63 ->
  jobsByName (dag st) -> failsInRange (tracker st) ->
  readyQueue W q st -> q <> [] ->
  runQueue W w q st = Ret tt s1 ->
  bookkeeping W q s1 = Ret tt s2 ->
  (wavesLeft W s2 < wavesLeft W st)%nat /\
  jobsByName (dag s2) /\ failsInRange (tracker s2).
Proof.
  intros Hset Hmax Hn Hr [Hnd Hready] Hne Hrun Hbook.
  pose proof (runQueue_frame _ _ _ _ _ Hrun) as Hfr.
  pose proof Hfr as (_ & _ & Hfails & _ & _).
  pose proof (runFrame_jobsByName _ _ Hfr Hn) as Hn1.
  pose proof (bookkeeping_bookkeepingData W q s1) as Hbd.
  destruct (bookkeepingData W q (dag s1, tracker s1)) as [[d2 t2]|] eqn:Hdata;
    [|congruence].
  destruct Hbd as (evs & Hbd). rewrite Hbd in Hbook. inversion Hbook; subst s2.
  clear Hbook Hbd.
  assert (Hr1 : failsInRange (tracker s1))
    by (unfold failsInRange; by rewrite Hfails).
  destruct (bookkeepingData_effect W q (dag s1, tracker s1) (d2, t2)
              Hn1 Hnd Hr1 Hdata)
    as (HJ & Hr2 & Hother & Hown).
  simpl in *.
  split; [|split; [unfold jobsByName; by rewrite HJ|done]].
  unfold wavesLeft. simpl.
  assert (Hkeys : keysOf d2 = keysOf (dag st)).
  { unfold keysOf at 1. rewrite HJ. by apply runFrame_keysOf. }
  rewrite Hkeys.
  assert (Hle : forall u, u ∈ keysOf (dag st) ->
    (attemptsLeft W {| dag := d2; tracker := t2; trace := trace s1 ++ evs |} u
     <= attemptsLeft W st u)%nat /\
    (u ∈ q ->
     (attemptsLeft W {| dag := d2; tracker := t2; trace := trace s1 ++ evs |} u
      < attemptsLeft W st u)%nat)).
  { intros u _. unfold attemptsLeft. simpl. rewrite HJ.
    destruct (decide (u ∈ q)) as [Hu|Hu].
    - destruct (Hready u Hu) as (ju & Hju & Hnf & Hns & Hlt).
      rewrite (Hn _ _ Hju) in Hlt.
      destruct (runQueue_own_job _ _ _ _ _ _ _ Hset Hnd Hu Hju Hrun)
        as (s & Hs & Hnot).
      rewrite Hs, Hju. simpl.
      rewrite (decide_False (P := Status ju = Finished \/ Status ju = Started))
        by tauto.
      assert (Hpos : (0 < Z.to_nat (MaxRetry W - failCount (tracker st) u))%nat)
        by lia.
      case_decide as Hpark; [split; [lia|intros _; lia]|].
      assert (Hs' : s = Failed) by (destruct s; tauto).
      subst s.
      assert (Hfc : failCount t2 u = failCount (tracker st) u + 1).
      { unfold failCount in *. rewrite (Hown u _ Hu Hs). simpl. rewrite Hfails.
        destruct (Fails (tracker st) !! u) as [n|] eqn:Hfu; simpl in *; [|done].
        apply (GoInt.add_1_below n (MaxRetry W)); [|done..].
        apply Hr in Hfu. unfold GoInt.inRange in Hfu. lia. }
      rewrite Hfc. split; [lia|intros _; lia].
    - rewrite (runQueue_other_jobs _ _ _ _ _ u Hrun Hu).
      unfold failCount. rewrite (Hother u Hu), Hfails.
      split; [done|tauto]. }
  destruct q as [|p q]; [done|].
  apply (sum_list_with_lt _ _ _ p).
  - intros u Hu. by apply Hle.
  - destruct (Hready p ltac:(by left)) as (jp & Hjp & _).
    apply elem_of_keysOf. eauto.
  - apply Hle; [|by left].
    destruct (Hready p ltac:(by left)) as (jp & Hjp & _).
    apply elem_of_keysOf. eauto.
Qed.

Lemma readyQueue_wavesLeft W q st :
  jobsByName (dag st) -> readyQueue W q st -> q <> [] ->
  (0 < wavesLeft W st)%nat.
Proof.
  intros Hn [_ Hready] Hne. destruct q as [|p q]; [done|].
  destruct (Hready p ltac:(by left)) as (jp & Hjp & Hnf & Hns & Hlt).
  rewrite (Hn _ _ Hjp) in Hlt.
  assert (Hin : p ∈ keysOf (dag st)) by (apply elem_of_keysOf; eauto).
  pose proof (sum_list_with_in p (attemptsLeft W st) _ Hin) as Hle.
  unfold wavesLeft. unfold attemptsLeft at 1 in Hle. rewrite Hjp in Hle.
  rewrite decide_False in Hle by tauto. lia.
Qed.

Lemma waveLoop_has_fuel W fuel w q st :
  validOrder W -> settling W -> MaxRetry W < 2 ^ 63 ->
  jobsByName (dag st) -> failsInRange (tracker st) ->
  readyQueue W q st ->
  (wavesLeft W st <= fuel)%nat ->
  waveLoop W fuel w q st <> OutOfFuel.
Proof.
  intros Ho Hset Hmax. revert w q st.
  induction fuel as [|fuel IH]; intros w q st Hn Hr Hq Hfuel.
  - destruct q as [|p q]; simpl.
    + destruct (finish_Ret st) as (st' & -> & _). done.
    + pose proof (readyQueue_wavesLeft W (p :: q) st Hn Hq ltac:(done)). lia.
  - destruct q as [|p q]; simpl.
    { destruct (finish_Ret st) as (st' & -> & _). done. }
    unfold oneWave, mbind, M_bind.
    destruct (runQueue W w (p :: q) st) as [[] s1| | |] eqn:Hrun; try done.
    2: { exfalso. pose proof (runQueue_runQueueData W w (p :: q) st) as Hd.
         destruct (runQueueData W w (p :: q) (dag st, tracker st)) as [[d' t']|].
         - destruct Hd as (evs & Hd). congruence.
         - congruence. }
    destruct (bookkeeping W (p :: q) s1) as [[] s2| | |] eqn:Hbook; try done.
    2: { exfalso. pose proof (bookkeeping_bookkeepingData W (p :: q) s1) as Hd.
         destruct (bookkeepingData W (p :: q) (dag s1, tracker s1)) as [[d' t']|].
         - destruct Hd as (evs & Hd). congruence.
         - congruence. }
    destruct (wave_decreases W w (p :: q) st s1 s2 Hset Hmax Hn Hr Hq
                ltac:(done) Hrun Hbook) as (Hlt & Hn2 & Hr2).
    destruct (genRunQueueM W (S w) s2) as [q2 s3| | |] eqn:Hgen; try done.
    2: { exfalso. unfold genRunQueueM, getDAG, getTracker, emit, panic, mbind,
           M_bind, mret, M_ret in Hgen. simpl in Hgen.
         by destruct (genRunQueue W (S w) (dag s2) (tracker s2)) as [[? ?]|]. }
    destruct (genRunQueueM_readyQueue W (S w) s2 q2 s3 Ho Hgen) as (Hq3 & Hd3 & Ht3).
    apply IH; rewrite ?Hd3, ?Ht3; try done.
    assert (wavesLeft W s3 = wavesLeft W s2).
    { unfold wavesLeft, attemptsLeft. by rewrite Hd3, Ht3. }
    lia.
Qed.

(** [Run] ends: when no executor returns nil leaving its job
    [NotStarted], every wave uses up one of the attempts that remain (a
    dispatched job ends the wave [Finished], [Started], or [Failed] with
    its counter raised), so the loop makes at most [wavesLeft] passes: the
    sum over the jobs that are neither [Finished] nor [Started] of
    [MaxRetry - Fails]. *)
Theorem Run_terminates (W : World) (fuel : nat) (st : State) :
  validOrder W ->
  settling W ->
  MaxRetry W < 2 ^ 63 ->
  jobsByName (dag st) ->
  failsInRange (tracker st) ->
  (wavesLeft W st <= fuel)%nat ->
  Run W fuel st <> OutOfFuel.
Proof.
  intros Ho Hset Hmax Hn Hr Hfuel. unfold Run, getDAG, mbind, M_bind.
  destruct (checkDAG W (dag st)) as [e|].
  - destruct e as [t|]; unfold fatal, logf, emit, exit, mbind, M_bind, mret, M_ret;
      simpl; [|done].
    by destruct (fatalExits W).
  - destruct (genRunQueueM W 0 st) as [q s| | |] eqn:Hgen; try done.
    + destruct (genRunQueueM_readyQueue W 0 st q s Ho Hgen) as (Hq & Hd & Ht).
      apply waveLoop_has_fuel; rewrite ?Hd, ?Ht; try done.
      assert (wavesLeft W s = wavesLeft W st).
      { unfold wavesLeft, attemptsLeft. by rewrite Hd, Ht. }
      lia.
    + exfalso. unfold genRunQueueM, getDAG, getTracker, emit, panic, mbind,
        M_bind, mret, M_ret in Hgen. simpl in Hgen.
      by destruct (genRunQueue W 0 (dag st) (tracker st)) as [[? ?]|].
Qed.


(** *** The further theorems at concrete inputs *)

(** A DAG with a Hadoop job, for a scheduler without the Hadoop executor. *)
Definition hadoopState : State :=
  {| dag := {| Jobs := {["H" := {| Name := "H"; Type_ := HadoopJob; Post := [];
                                   Status := NotStarted |}]};
               InDegrees := {["H" := 0]}; Relations := ∅ |};
     tracker := {| Fails := ∅; Statuses := ∅ |}; trace := [] |}.

Definition localWorld : World :=
  {| MaxRetry := 3; fatalExits := false;
     registered := fun t => bool_decide (t = DummyJob \/ t = ScriptJob);
     mapOrder := fun _ l => l; resolveOk := fun _ _ => true;
     getStatusOk := fun _ _ => true;
     execRun := fun _ _ => ExecNil Finished |}.

Lemma resumeWorld_validOrder : validOrder resumeWorld.
Proof. intros w l. reflexivity. Qed.

Lemma Run_preflight_failure_witness :
  checkDAG localWorld (dag hadoopState) = Some (ErrNoExecutor HadoopJob) /\
  exists t, ErrNoExecutor HadoopJob = ErrNoExecutor t /\
    Run localWorld 4 hadoopState =
      if fatalExits localWorld then Exit
      else Ret (Some (ErrNoExecutor HadoopJob))
             {| dag := dag hadoopState; tracker := tracker hadoopState;
                trace := trace hadoopState ++ [ELog Fatal (MsgNoExecutor t)] |}.
Proof.
  assert (Hc : checkDAG localWorld (dag hadoopState) = Some (ErrNoExecutor HadoopJob))
    by (vm_compute; reflexivity).
  split; [exact Hc|].
  exact (Run_preflight_failure localWorld 4 hadoopState _ Hc).
Defined.

(** An in-degree entry for a job that does not exist. *)
Definition strayDAG : DAG :=
  {| Jobs := {["A" := scriptJob "A" []]};
     InDegrees := list_to_map [("A", 0); ("ghost", 0)];
     Relations := ∅ |}.

Lemma genRunQueue_panics_iff_unnamed_witness :
  validOrder resumeWorld /\
  (genRunQueue resumeWorld 0 strayDAG resumeTracker = None <->
   ~ inDegreesNamed strayDAG).
Proof.
  split; [exact resumeWorld_validOrder|].
  exact (genRunQueue_panics_iff_unnamed resumeWorld 0 strayDAG resumeTracker
           resumeWorld_validOrder).
Defined.

(** The retry scenario after A has used up its three attempts. *)
Definition exhaustedTracker : StatusTracker :=
  {| Fails := {["A" := 3]}; Statuses := {["A" := Failed]} |}.

Lemma genRunQueue_logs_exhausted_witness :
  validOrder failingWorld /\ jobsByName (retryDAG false) /\
  genRunQueue failingWorld 3 (retryDAG false) exhaustedTracker =
    Some ([], [ELog Error (MsgMaxRetry "A" 3)]) /\
  [ELog Error (MsgMaxRetry "A" 3)] ≡ₚ
    (fun kv : string * Z => ELog Error (MsgMaxRetry kv.1 (MaxRetry failingWorld))) <$>
    filter (fun kv : string * Z => MaxRetry failingWorld <= failCount exhaustedTracker kv.1)
      (map_to_list (InDegrees (retryDAG false))) /\
  forall name, MaxRetry failingWorld <= failCount exhaustedTracker name -> name ∉ [].
Proof.
  assert (Ho : validOrder failingWorld) by (intros w l; reflexivity).
  assert (Hn : jobsByName (retryDAG false)) by by_compute.
  assert (Hg : genRunQueue failingWorld 3 (retryDAG false) exhaustedTracker =
               Some ([], [ELog Error (MsgMaxRetry "A" 3)]))
    by (vm_compute; reflexivity).
  split; [exact Ho|]. split; [exact Hn|]. split; [exact Hg|].
  exact (genRunQueue_logs_exhausted failingWorld 3 (retryDAG false)
           exhaustedTracker _ _ Ho Hn Hg).
Defined.

(** Two independent jobs in one wave. *)
Definition pairState : State :=
  {| dag := {| Jobs := list_to_map [("A", scriptJob "A" []); ("B", scriptJob "B" [])];
               InDegrees := list_to_map [("A", 0); ("B", 0)];
               Relations := ∅ |};
     tracker := {| Fails := ∅; Statuses := ∅ |}; trace := [] |}.

Lemma pairState_jobsByName : jobsByName (dag pairState).
Proof. by_compute. Qed.

Definition pairAfterRun : State :=
  match runQueue failingWorld 0 ["A"; "B"] pairState with
  | Ret _ s => s
  | _ => pairState
  end.

Lemma pairAfterRun_jobsByName : jobsByName (dag pairAfterRun).
Proof. by_compute. Qed.

Lemma bookkeeping_order_irrelevant_witness :
  ["A"; "B"] ≡ₚ ["B"; "A"] /\ jobsByName (dag pairAfterRun) /\
  match bookkeeping failingWorld ["A"; "B"] pairAfterRun,
        bookkeeping failingWorld ["B"; "A"] pairAfterRun with
  | Ret _ s, Ret _ s' => dag s = dag s' /\ tracker s = tracker s'
  | Panic, Panic => True
  | _, _ => False
  end.
Proof.
  assert (Hp : ["A"; "B"] ≡ₚ ["B"; "A"]) by apply perm_swap.
  split; [exact Hp|]. split; [exact pairAfterRun_jobsByName|].
  exact (bookkeeping_order_irrelevant failingWorld _ _ pairAfterRun Hp
           pairAfterRun_jobsByName).
Defined.

Definition reversed : nat -> list (string * Z) -> list (string * Z) :=
  fun _ l => reverse l.

Lemma genRunQueue_map_order_permutes_witness :
  validOrder failingWorld /\ validOrder (withOrder reversed failingWorld) /\
  match genRunQueue failingWorld 0 (dag pairState) (tracker pairState),
        genRunQueue (withOrder reversed failingWorld) 0 (dag pairState)
          (tracker pairState) with
  | Some (q, evs), Some (q', evs') => q ≡ₚ q' /\ evs ≡ₚ evs'
  | None, None => True
  | _, _ => False
  end.
Proof.
  assert (Ho : validOrder failingWorld) by (intros w l; reflexivity).
  assert (Ho' : validOrder (withOrder reversed failingWorld))
    by (intros w l; apply reverse_Permutation).
  split; [exact Ho|]. split; [exact Ho'|].
  exact (genRunQueue_map_order_permutes failingWorld reversed 0 (dag pairState)
           (tracker pairState) Ho Ho').
Defined.

Lemma parked_job_is_left_alone_witness :
  Jobs (dag resumePreloaded) !! "C" = Some (withStatus Started (scriptJob "C" ["D"])) /\
  (Status (withStatus Started (scriptJob "C" ["D"])) = Finished \/
   Status (withStatus Started (scriptJob "C" ["D"])) = Started) /\
  rtc (step resumeWorld) (AtTop 0, resumePreloaded) (AtExit, resumePreloaded) /\
  Jobs (dag resumePreloaded) !! "C" = Some (withStatus Started (scriptJob "C" ["D"])) /\
  "C" ∉ inHand AtExit.
Proof.
  assert (Hj : Jobs (dag resumePreloaded) !! "C" =
               Some (withStatus Started (scriptJob "C" ["D"])))
    by (vm_compute; reflexivity).
  assert (Hs : Status (withStatus Started (scriptJob "C" ["D"])) = Finished \/
               Status (withStatus Started (scriptJob "C" ["D"])) = Started)
    by (right; reflexivity).
  assert (Hr : rtc (step resumeWorld) (AtTop 0, resumePreloaded)
                 (AtExit, resumePreloaded)).
  { apply rtc_once, step_exit. vm_compute. reflexivity. }
  split; [exact Hj|]. split; [exact Hs|]. split; [exact Hr|].
  exact (parked_job_is_left_alone resumeWorld 0 resumePreloaded AtExit
           resumePreloaded "C" _ Hj Hs Hr).
Defined.

Lemma Run_never_panics_witness :
  validOrder resumeWorld /\ inDegreesNamed (dag resumeState) /\
  (forall w p, getStatusOk resumeWorld w p = true) /\
  Run resumeWorld 4 resumeState <> Panic.
Proof.
  assert (Hn : inDegreesNamed (dag resumeState)) by by_compute.
  assert (Hg : forall (w : nat) (p : string), getStatusOk resumeWorld w p = true)
    by (intros w p; reflexivity).
  split; [exact resumeWorld_validOrder|]. split; [exact Hn|]. split; [exact Hg|].
  exact (Run_never_panics resumeWorld 4 resumeState resumeWorld_validOrder Hn Hg).
Defined.

(** Hadoop enabled, Hive and Odps not; every [Setup] succeeds. *)
Definition hadoopOnly : Config := {| Hadoop := true; Hive := false; Odps := false |}.

Lemma NewSched_registry_witness :
  reverse (executors hadoopOnly) ≡ₚ executors hadoopOnly /\
  ((exists reg, NewSched hadoopOnly (fun _ => None) reverse = inr reg) <->
   forall t, t ∈ executors hadoopOnly -> (fun _ : JobType => @None string) t = None) /\
  (forall err, NewSched hadoopOnly (fun _ => None) reverse = inl err ->
     exists t, t ∈ executors hadoopOnly /\ (fun _ : JobType => @None string) t = Some err) /\
  (forall reg, NewSched hadoopOnly (fun _ => None) reverse = inr reg ->
     reg DummyJob = true /\ reg ScriptJob = true /\
     reg HadoopJob = Hadoop hadoopOnly /\ reg HiveJob = Hive hadoopOnly /\
     reg OdpsJob = Odps hadoopOnly /\
     forall W d, registered W = reg ->
       (forall k job, Jobs d !! k = Some job ->
          Type_ job = DummyJob \/ Type_ job = ScriptJob) ->
       checkDAG W d = None).
Proof.
  assert (Hp : reverse (executors hadoopOnly) ≡ₚ executors hadoopOnly)
    by apply reverse_Permutation.
  split; [exact Hp|].
  exact (NewSched_registry hadoopOnly (fun _ => None) reverse Hp).
Defined.

(** The second wave of A -> B when every executor succeeds. *)
Definition chainAfterA : State :=
  match oneWave resumeWorld 0 ["A"] (retryState false) with
  | Ret _ s => s
  | _ => retryState false
  end.

Lemma chain_second_wave :
  reach resumeWorld (retryState false) (InRunQueue 1 ["B"] ["B"]) chainAfterA.
Proof.
  assert (Hw : oneWave resumeWorld 0 ["A"] (retryState false) = Ret ["B"] chainAfterA)
    by (vm_compute; reflexivity).
  destruct (oneWave_steps _ _ _ _ _ _ Hw) as (s1 & Hsteps & Hgen).
  unfold reach.
  eapply rtc_l; [apply (step_gen resumeWorld 0 (retryState false) ["A"]
                          (retryState false)); [vm_compute; reflexivity|done]|].
  etrans; [exact Hsteps|].
  apply rtc_once. by apply step_gen.
Qed.

Lemma retryDAG_cover : inDegreesCoverEdges (retryDAG false).
Proof.
  intros v.
  assert (Hk : keysOf (retryDAG false) = ["A"; "B"]) by (vm_compute; reflexivity).
  rewrite Hk.
  destruct (decide (v = "B")) as [->|Hne]; [vm_compute; discriminate|].
  assert (Hnil : filter (isPred (retryDAG false) v) ["A"; "B"] = []).
  { rewrite !filter_cons, filter_nil.
    rewrite decide_False.
    2: { unfold isPred.
         change (Jobs (retryDAG false) !! "A") with (Some (scriptJob "A" ["B"])).
         simpl. intros Hin. apply list_elem_of_singleton in Hin. done. }
    rewrite decide_False; [done|].
    unfold isPred.
    change (Jobs (retryDAG false) !! "B") with (Some (scriptJob "B" [])).
    simpl. apply not_elem_of_nil. }
  rewrite Hnil. simpl.
  unfold inDegree, retryDAG. simpl.
  destruct (decide (v = "A")) as [->|Hne'].
  - rewrite lookup_insert_eq. done.
  - rewrite lookup_insert_ne by done. rewrite lookup_insert_ne by done.
    rewrite lookup_empty. done.
Qed.

Lemma dispatched_after_predecessors_witness :
  validOrder resumeWorld /\ jobsByName (dag (retryState false)) /\
  postsNoDup (dag (retryState false)) /\
  inDegreesCounted (dag (retryState false)) /\
  inDegreesCoverEdges (dag (retryState false)) /\
  reach resumeWorld (retryState false) (InRunQueue 1 ["B"] ["B"]) chainAfterA /\
  "B" ∈ ["B"] /\
  Jobs (dag chainAfterA) !! "A" = Some (withStatus Finished (scriptJob "A" ["B"])) /\
  "B" ∈ Post (withStatus Finished (scriptJob "A" ["B"])) /\
  decrementRule resumeWorld (tracker chainAfterA)
    (withStatus Finished (scriptJob "A" ["B"])) (dag chainAfterA) "B" /\
  "A" ∉ ["B"].
Proof.
  assert (Hn : jobsByName (dag (retryState false))) by by_compute.
  assert (Hpd : postsNoDup (dag (retryState false))) by by_compute.
  assert (Hc : inDegreesCounted (dag (retryState false))) by by_compute.
  assert (Hcov : inDegreesCoverEdges (dag (retryState false)))
    by exact retryDAG_cover.
  assert (Hv : "B" ∈ ["B"]) by (by left).
  assert (Hj : Jobs (dag chainAfterA) !! "A" =
               Some (withStatus Finished (scriptJob "A" ["B"])))
    by (vm_compute; reflexivity).
  assert (Hpost : "B" ∈ Post (withStatus Finished (scriptJob "A" ["B"])))
    by (by left).
  split; [exact resumeWorld_validOrder|]. split; [exact Hn|]. split; [exact Hpd|].
  split; [exact Hc|]. split; [exact Hcov|]. split; [exact chain_second_wave|].
  split; [exact Hv|]. split; [exact Hj|]. split; [exact Hpost|].
  exact (dispatched_after_predecessors resumeWorld (retryState false) 1 ["B"] ["B"]
           chainAfterA "A" "B" _ resumeWorld_validOrder Hn Hpd Hc Hcov
           chain_second_wave Hv Hj Hpost).
Defined.

Lemma Run_terminates_witness :
  validOrder failingWorld /\ settling failingWorld /\
  MaxRetry failingWorld < 2 ^ 63 /\ jobsByName (dag (retryState true)) /\
  failsInRange (tracker (retryState true)) /\
  (wavesLeft failingWorld (retryState true) <= 6)%nat /\
  Run failingWorld 6 (retryState true) <> OutOfFuel.
Proof.
  assert (Ho : validOrder failingWorld) by (intros w l; reflexivity).
  assert (Hs : settling failingWorld).
  { intros w p. simpl. by case_decide. }
  assert (Hm : MaxRetry failingWorld < 2 ^ 63) by by_compute.
  assert (Hn : jobsByName (dag (retryState true))) by by_compute.
  assert (Hr : failsInRange (tracker (retryState true))) by by_compute.
  assert (Hf : (wavesLeft failingWorld (retryState true) <= 6)%nat) by by_compute.
  split; [exact Ho|]. split; [exact Hs|]. split; [exact Hm|]. split; [exact Hn|].
  split; [exact Hr|]. split; [exact Hf|].
  exact (Run_terminates failingWorld 6 (retryState true) Ho Hs Hm Hn Hr Hf).
Defined.


End Sched.

(** ** The child-process helper (task/exec/util.go) *)

Module Exec.

Inductive LogLevel := Info | Fatal.

(** A Go [error], by its message. *)
Definition error := string.

(** What [cmd.Wait()] returned: nil, an [*exec.ExitError] whose [Sys()] is
    a [syscall.WaitStatus] with exit status [c] ([Some c]) or is not one
    ([None]), or another error. *)
Inductive WaitResult :=
| WaitNil
| WaitExitError (sys : option Z)
| WaitOther (err : error).

(** Everything the operating system decides about the spawned command. *)
Record Child := mkChild {
  stdoutPipe : option error;
  stderrPipe : option error;
  start : option error;
  (** the lines the scanner of stderr yields *)
  stderrLines : list string;
  (** after them the scanner never comes back: the child has filled the
      pipe of stdout, which is read only once stderr has ended, and
      blocks in that write with stderr open *)
  stderrStalls : bool;
  stderrScan : option error;
  stdoutLines : list string;
  stdoutScan : option error;
  wait : WaitResult;
}.

(** The repository's logger (package log) is not under src/: whether its
    [Fatal] ends the process is a parameter. *)
Record Logger := mkLogger { fatalExits : bool }.

(** A call returns, the process ends inside it, or the call blocks for
    ever; the lines logged are collected in order. *)
Inductive Outcome (A : Type) :=
| Returned (a : A)
| Exited
| Blocked.
Arguments Returned {A} a.
Arguments Exited {A}.
Arguments Blocked {A}.

Definition M (A : Type) : Type := (list (LogLevel * string) * Outcome A)%type.

#[global] Instance M_ret : MRet M := fun A a => ([], Returned a).
#[global] Instance M_bind : MBind M := fun A B f m =>
  match m.2 with
  | Returned a => (m.1 ++ (f a).1, (f a).2)
  | Exited => (m.1, Exited)
  | Blocked => (m.1, Blocked)
  end.

Definition info (msg : string) : M unit := ([(Info, msg)], Returned tt).
Definition fatal (L : Logger) (msg : string) : M unit :=
  ([(Fatal, msg)], if fatalExits L then Exited else Returned tt).
Definition blocked {A} : M A := ([], Blocked).

(** [fmt.Sprintf("<%s> %s", jobname, text)] *)
Definition tagged (jobname text : string) : string :=
  "<" +:+ jobname +:+ "> " +:+ text.

(** The scanning loops over the lines a scanner yields: one log line per
    non-empty line. *)
Fixpoint scanLines (log : string -> M unit) (jobname : string)
    (lines : list string) : M unit :=
  match lines with
  | [] => mret tt
  | text :: rest =>
      (if decide (String.length text <> 0%nat) then log (tagged jobname text)
       else mret tt);;
      scanLines log jobname rest
  end.

Definition scanErr (L : Logger) (e : option error) : M unit :=
  match e with
  | Some err => fatal L ("reading standard input: " +:+ err)
  | None => mret tt
  end.

(** [CmdExec(jobname, name, arg...)] for a command that behaves as [c]. *)
Definition CmdExec (L : Logger) (jobname : string) (c : Child)
    : M (Z * option error) :=
  match stdoutPipe c with
  | Some err => fatal L err;; mret (0, Some err)
  | None =>
  match stderrPipe c with
  | Some err => fatal L err;; mret (0, Some err)
  | None =>
  let err : option error := None in
  match start c with
  | Some err' => fatal L err';; mret (0, Some err')
  | None =>
      scanLines (fatal L) jobname (stderrLines c);;
      (if stderrStalls c then blocked else mret tt);;
      scanErr L (stderrScan c);;
      scanLines info jobname (stdoutLines c);;
      scanErr L (stdoutScan c);;
      match wait c with
      | WaitExitError (Some status) => mret (status, None)
      | WaitExitError None => mret (0, Some "get exit status fail")
      | WaitOther err' =>
          fatal L ("cmd.Wait: " +:+ err');; mret (0, Some err')
      | WaitNil => mret (0, err)
      end
  end
  end
  end.

(** The command was spawned: both pipes and [Start] succeeded. *)
Definition spawned (c : Child) : Prop :=
  stdoutPipe c = None /\ stderrPipe c = None /\ start c = None.


(** The scanner of stderr gets to the end of the stream: the child does
    not block on a full pipe of stdout while the parent still reads
    stderr. *)
Definition drains (c : Child) : Prop := stderrStalls c = false.




Definition levelLogger : Logger := {| fatalExits := false |}.







(** *** What CmdExec logs and when it returns an error *)

(** The log lines of one scanning loop: one line per non-empty line of
    the stream, in order, tagged with the job name. *)
Definition scanned (lvl : LogLevel) (jobname : string) (lines : list string)
    : list (LogLevel * string) :=
  (fun text => (lvl, tagged jobname text)) <$>
  filter (fun text => String.length text <> 0%nat) lines.

Definition scanErrLog (e : option error) : list (LogLevel * string) :=
  match e with
  | Some err => [(Fatal, "reading standard input: " +:+ err)]
  | None => []
  end.

Definition waitLog (w : WaitResult) : list (LogLevel * string) :=
  match w with
  | WaitOther err => [(Fatal, "cmd.Wait: " +:+ err)]
  | _ => []
  end.

Lemma scanLines_info_log jobname lines :
  scanLines info jobname lines = (scanned Info jobname lines, Returned tt).
Proof.
  unfold scanned. induction lines as [|text rest IH]; [done|].
  cbn [scanLines]. rewrite IH, filter_cons. unfold mbind, M_bind.
  by case_decide.
Qed.

Lemma scanLines_fatal_log L jobname lines :
  fatalExits L = false ->
  scanLines (fatal L) jobname lines = (scanned Fatal jobname lines, Returned tt).
Proof.
  intros HL. unfold scanned. induction lines as [|text rest IH]; [done|].
  cbn [scanLines]. rewrite IH, filter_cons. unfold mbind, M_bind, fatal.
  rewrite HL. by case_decide.
Qed.

Lemma scanErr_log L e :
  fatalExits L = false -> scanErr L e = (scanErrLog e, Returned tt).
Proof. intros HL. unfold scanErr, fatal. rewrite HL. by destruct e. Qed.

(** The part of [CmdExec] after [cmd.Start()] when the logger's [Fatal]
    returns and the scanner of stderr gets to the end. *)
Lemma CmdExec_spawned L jobname c :
  fatalExits L = false -> spawned c -> drains c ->
  CmdExec L jobname c =
    (scanned Fatal jobname (stderrLines c) ++ scanErrLog (stderrScan c) ++
     scanned Info jobname (stdoutLines c) ++ scanErrLog (stdoutScan c) ++
     waitLog (wait c),
     Returned match wait c with
              | WaitNil => (0, None)
              | WaitExitError (Some status) => (status, None)
              | WaitExitError None => (0, Some "get exit status fail")
              | WaitOther err => (0, Some err)
              end).
Proof.
  intros HL (Ho & He & Hs) Hd. unfold CmdExec. rewrite Ho, He, Hs, Hd.
  rewrite (scanLines_fatal_log L) by done.
  rewrite !(scanErr_log L) by done.
  rewrite scanLines_info_log.
  unfold mbind, M_bind, fatal. rewrite HL. cbn [fst snd].
  destruct (wait c) as [|[status|]|err]; cbn [fst snd waitLog mret M_ret];
    by rewrite ?app_nil_r.
Qed.

(** The same when the scanner of stderr does not come back. *)
Lemma CmdExec_stalled L jobname c :
  fatalExits L = false -> spawned c -> stderrStalls c = true ->
  CmdExec L jobname c = (scanned Fatal jobname (stderrLines c), Blocked).
Proof.
  intros HL (Ho & He & Hs) Hd. unfold CmdExec. rewrite Ho, He, Hs, Hd.
  rewrite (scanLines_fatal_log L) by done.
  unfold mbind, M_bind, blocked. cbn [fst snd]. by rewrite app_nil_r.
Qed.

(** The child wrote a first non-empty line [text] to stderr. *)
Definition firstStderrLine (c : Child) (text : string) : Prop :=
  exists pre rest,
    stderrLines c = pre ++ text :: rest /\
    Forall (fun t => String.length t = 0%nat) pre /\
    String.length text <> 0%nat.

Lemma scanLines_fatal_exits L jobname pre text rest :
  fatalExits L = true ->
  Forall (fun t => String.length t = 0%nat) pre ->
  String.length text <> 0%nat ->
  scanLines (fatal L) jobname (pre ++ text :: rest) =
    ([(Fatal, tagged jobname text)], Exited).
Proof.
  intros HL Hpre Ht. induction Hpre as [|t pre Hz _ IH].
  - cbn [app scanLines]. unfold mbind, M_bind, fatal. rewrite HL.
    by rewrite decide_True.
  - cbn [app scanLines]. rewrite IH. unfold mbind, M_bind.
    rewrite decide_False by (intros Hn; by apply Hn). done.
Qed.

(** A child that prints a line on stderr and exits with status 0. *)
Definition warns : Child :=
  {| stdoutPipe := None; stderrPipe := None; start := None;
     stderrLines := [""; "WARN deprecated option"; "more"];
     stderrStalls := false; stderrScan := None;
     stdoutLines := ["done"; ""]; stdoutScan := None;
     wait := WaitNil |}.

(** A command that cannot be started. *)
Definition missing : Child :=
  {| stdoutPipe := None; stderrPipe := None;
     start := Some "exec: no such file";
     stderrLines := []; stderrStalls := false; stderrScan := None;
     stdoutLines := []; stdoutScan := None;
     wait := WaitNil |}.

(** A child whose wait status cannot be read. *)
Definition opaqueExit : Child :=
  {| stdoutPipe := None; stderrPipe := None; start := None;
     stderrLines := []; stderrStalls := false; stderrScan := None;
     stdoutLines := []; stdoutScan := None;
     wait := WaitExitError None |}.

(** A child that prints one line on stderr and then more on stdout than
    the pipe holds. *)
Definition floods : Child :=
  {| stdoutPipe := None; stderrPipe := None; start := None;
     stderrLines := ["loading"]; stderrStalls := true; stderrScan := None;
     stdoutLines := []; stdoutScan := None;
     wait := WaitNil |}.

Definition exitingLogger : Logger := {| fatalExits := true |}.



Example CmdExec_log_drained :
  CmdExec levelLogger "etl" warns =
    ([(Fatal, "<etl> WARN deprecated option"); (Fatal, "<etl> more");
      (Info, "<etl> done")], Returned (0, None)).
Proof. reflexivity. Qed.

Example CmdExec_log_stalled :
  CmdExec levelLogger "etl" floods = ([(Fatal, "<etl> loading")], Blocked).
Proof. reflexivity. Qed.

(** When the logger's [Fatal] returns, [CmdExec] returns a non-nil error
    exactly in these cases: a pipe or [Start] failed (that error), or
    [Wait] was reached and failed with something other than an exit error
    (that error) or with an exit error that carries no wait status ("get
    exit status fail").  The integer result is 0 in each of them. *)
Theorem CmdExec_error_iff (L : Logger) (jobname : string) (c : Child)
    (n : Z) (err : error) :
  fatalExits L = false ->
  ((CmdExec L jobname c).2 = Returned (n, Some err) <->
   n = 0 /\
   (stdoutPipe c = Some err \/
    (stdoutPipe c = None /\ stderrPipe c = Some err) \/
    (stdoutPipe c = None /\ stderrPipe c = None /\ start c = Some err) \/
    (spawned c /\ drains c /\
     (wait c = WaitOther err \/
      (wait c = WaitExitError None /\ err = "get exit status fail"))))).
Proof.
  intros HL.
  destruct (stdoutPipe c) as [e1|] eqn:Ho.
  { unfold CmdExec. rewrite Ho. unfold mbind, M_bind, fatal. rewrite HL. simpl.
    split.
    - intros [= <- <-]. split; [done|]. by left.
    - intros (-> & [[= ->]|[(? & _)|[(? & _)|((? & _) & _)]]]); congruence. }
  destruct (stderrPipe c) as [e2|] eqn:He.
  { unfold CmdExec. rewrite Ho, He. unfold mbind, M_bind, fatal. rewrite HL. simpl.
    split.
    - intros [= <- <-]. split; [done|]. right. left. done.
    - intros (-> & [?|[(_ & [= ->])|[(_ & ? & _)|((_ & ? & _) & _)]]]); congruence. }
  destruct (start c) as [e3|] eqn:Hs.
  { unfold CmdExec. rewrite Ho, He, Hs. unfold mbind, M_bind, fatal. rewrite HL. simpl.
    split.
    - intros [= <- <-]. split; [done|]. right. right. left. done.
    - intros (-> & [?|[(_ & ?)|[(_ & _ & [= ->])|((_ & _ & ?) & _)]]]); congruence. }
  assert (Hsp : spawned c) by done.
  destruct (stderrStalls c) eqn:Hd.
  { rewrite (CmdExec_stalled L jobname c HL Hsp Hd). cbn [snd].
    split; [done|]. unfold drains.
    intros (_ & [?|[(_ & ?)|[(_ & _ & ?)|(_ & ? & _)]]]); congruence. }
  rewrite (CmdExec_spawned L jobname c HL Hsp Hd). cbn [snd].
  split.
  - intros Hr. destruct (wait c) as [|[status|]|e4]; inversion Hr; subst.
    + split; [done|]. do 3 right. split; [done|]. split; [done|]. right. done.
    + split; [done|]. do 3 right. split; [done|]. split; [done|]. left. done.
  - intros (-> & [?|[(_ & ?)|[(_ & _ & ?)|(_ & _ & [Hw|(Hw & ->)])]]]);
      try congruence.
    + by rewrite Hw.
    + by rewrite Hw.
Qed.

Lemma CmdExec_error_iff_witness :
  fatalExits levelLogger = false /\
  ((CmdExec levelLogger "etl" missing).2 = Returned (0, Some "exec: no such file") <->
   0 = 0 /\
   (stdoutPipe missing = Some "exec: no such file" \/
    (stdoutPipe missing = None /\ stderrPipe missing = Some "exec: no such file") \/
    (stdoutPipe missing = None /\ stderrPipe missing = None /\
     start missing = Some "exec: no such file") \/
    (spawned missing /\ drains missing /\
     (wait missing = WaitOther "exec: no such file" \/
      (wait missing = WaitExitError None /\
       "exec: no such file" = "get exit status fail"))))).
Proof.
  assert (HL : fatalExits levelLogger = false) by reflexivity.
  split; [exact HL|].
  exact (CmdExec_error_iff levelLogger "etl" missing 0 "exec: no such file" HL).
Defined.

(** When the logger's [Fatal] ends the process, the only error [CmdExec]
    can return is "get exit status fail", for a spawned child whose exit
    error carries no wait status: every other error path calls [Fatal]
    first and does not come back. *)
Theorem CmdExec_error_with_exiting_logger (L : Logger) (jobname : string) (c : Child)
    (n : Z) (err : error) :
  fatalExits L = true ->
  (CmdExec L jobname c).2 = Returned (n, Some err) ->
  n = 0 /\ err = "get exit status fail" /\ spawned c /\
  wait c = WaitExitError None.
Proof.
  intros HL. unfold CmdExec.
  destruct (stdoutPipe c) as [e1|] eqn:Ho.
  { unfold mbind, M_bind, fatal. rewrite HL. done. }
  destruct (stderrPipe c) as [e2|] eqn:He.
  { unfold mbind, M_bind, fatal. rewrite HL. done. }
  destruct (start c) as [e3|] eqn:Hs.
  { unfold mbind, M_bind, fatal. rewrite HL. done. }
  destruct (scanLines (fatal L) jobname (stderrLines c)) as [l1 [[]| |]];
    unfold mbind at 1, M_bind at 1; cbn [fst snd]; [|done|done].
  destruct (stderrStalls c);
    unfold mbind at 1, M_bind at 1; cbn [fst snd]; [done|].
  destruct (scanErr L (stderrScan c)) as [l2 [[]| |]];
    unfold mbind at 1, M_bind at 1; cbn [fst snd]; [|done|done].
  destruct (scanLines info jobname (stdoutLines c)) as [l3 [[]| |]];
    unfold mbind at 1, M_bind at 1; cbn [fst snd]; [|done|done].
  destruct (scanErr L (stdoutScan c)) as [l4 [[]| |]];
    unfold mbind at 1, M_bind at 1; cbn [fst snd]; [|done|done].
  destruct (wait c) as [|[status|]|e4]; cbn [snd mret M_ret]; try done.
  - intros [= <- <-]. done.
  - unfold mbind, M_bind, fatal. rewrite HL. done.
Qed.

Lemma CmdExec_error_with_exiting_logger_witness :
  fatalExits exitingLogger = true /\
  (CmdExec exitingLogger "etl" opaqueExit).2 =
    Returned (0, Some "get exit status fail") /\
  0 = 0 /\ "get exit status fail" = "get exit status fail" /\
  spawned opaqueExit /\ wait opaqueExit = WaitExitError None.
Proof.
  assert (HL : fatalExits exitingLogger = true) by reflexivity.
  assert (Hr : (CmdExec exitingLogger "etl" opaqueExit).2 =
               Returned (0, Some "get exit status fail")) by reflexivity.
  split; [exact HL|]. split; [exact Hr|].
  exact (CmdExec_error_with_exiting_logger exitingLogger "etl" opaqueExit 0
           "get exit status fail" HL Hr).
Defined.

(** When the logger's [Fatal] ends the process, the first non-empty line
    a spawned child writes to stderr ends it: that line is the only one
    logged, nothing of stdout is read and [Wait] is never called, whatever
    the exit status of the child would have been. *)
Theorem stderr_line_ends_process (L : Logger) (jobname : string) (c : Child)
    (text : string) :
  fatalExits L = true ->
  spawned c ->
  firstStderrLine c text ->
  CmdExec L jobname c = ([(Fatal, tagged jobname text)], Exited).
Proof.
  intros HL (Ho & He & Hs) (pre & rest & Hlines & Hpre & Ht).
  unfold CmdExec. rewrite Ho, He, Hs, Hlines.
  rewrite (scanLines_fatal_exits L jobname pre text rest HL Hpre Ht).
  done.
Qed.

Lemma stderr_line_ends_process_witness :
  fatalExits exitingLogger = true /\ spawned warns /\
  firstStderrLine warns "WARN deprecated option" /\
  CmdExec exitingLogger "etl" warns =
    ([(Fatal, tagged "etl" "WARN deprecated option")], Exited).
Proof.
  assert (HL : fatalExits exitingLogger = true) by reflexivity.
  assert (Hs : spawned warns) by (by repeat split).
  assert (Hf : firstStderrLine warns "WARN deprecated option").
  { exists [""], ["more"]. split; [reflexivity|].
    split; [by repeat constructor|]. simpl. lia. }
  split; [exact HL|]. split; [exact Hs|]. split; [exact Hf|].
  exact (stderr_line_ends_process exitingLogger "etl" warns
           "WARN deprecated option" HL Hs Hf).
Defined.


End Exec.

(** ** The XML workflow parser (xmlparser.go) *)

Module Flow.

(** *** Data *)

Definition error := string.
Definition VarMap := gmap string string.

Record XMLDep := mkXMLDep { depRes : string; depVar : list string }.
Record XMLDo := mkXMLDo { doRes : string; doArg : list string }.
Record XMLStep := mkXMLStep {
  stepName : string;
  stepVar : list string;
  stepDep : list XMLDep;
  stepDo : list XMLDo;
}.
Record XMLJob := mkXMLJob {
  jobName : string;
  jobType : string;
  jobVar : list string;
}.

(** The interface [Job] and its two implementations are declared outside
    xmlparser.go; the model keeps which constructor made the job and what
    the parser passed to [SetName] and [SetVar].  [IsValid] is left to the
    environment. *)
Inductive JobKind := ODPS | Hadoop.
Record Job := mkJob { Kind : JobKind; Name : string; Var : VarMap }.

Definition NewODPSJob : Job := {| Kind := ODPS; Name := ""; Var := ∅ |}.
Definition NewHadoopJob : Job := {| Kind := Hadoop; Name := ""; Var := ∅ |}.
Definition SetName (name : string) (job : Job) : Job :=
  {| Kind := Kind job; Name := name; Var := Var job |}.
Definition SetVar (v : VarMap) (job : Job) : Job :=
  {| Kind := Kind job; Name := Name job; Var := v |}.

(** [*Step]: a step, or nil. *)
#[local] Unset Elimination Schemes.
Inductive Step := mkStep {
  Name_ : string;
  Var_ : VarMap;
  Do : list (option Job);
  Dep : list (option Step);
}.
#[local] Set Elimination Schemes.

(** What the parser consults but does not define: the file system,
    [xml.Unmarshal], the calculator behind [evalMap] and [Job.IsValid]. *)
Record Env := mkEnv {
  readFile : string -> option string;
  unmarshalStep : string -> option XMLStep;
  unmarshalJob : string -> option XMLJob;
  doEval : list VarMap -> VarMap + error;
  IsValid : Job -> bool;
}.

(** *** The parser monad

    A call returns a value, panics with a value, ends the process
    ([log.Fatal] of the standard logger) or, in the model only, runs out
    of fuel.  The calls made to the calculator are recorded in order. *)

Inductive PanicValue := PanicErr (err : error) | PanicMsg (msg : string).

Inductive Outcome (A : Type) :=
| Returned (a : A)
| Panicked (v : PanicValue)
| Exited
| OutOfFuel.
Arguments Returned {A} a.
Arguments Panicked {A} v.
Arguments Exited {A}.
Arguments OutOfFuel {A}.

Definition M (A : Type) : Type := (list (list VarMap) * Outcome A)%type.

#[global] Instance M_ret : MRet M := fun A a => ([], Returned a).
#[global] Instance M_bind : MBind M := fun A B f m =>
  match m.2 with
  | Returned a => (m.1 ++ (f a).1, (f a).2)
  | Panicked v => (m.1, Panicked v)
  | Exited => (m.1, Exited)
  | OutOfFuel => (m.1, OutOfFuel)
  end.

Definition panic {A} (v : PanicValue) : M A := ([], Panicked v).
Definition exit {A} : M A := ([], Exited).
Definition outOfFuel {A} : M A := ([], OutOfFuel).

(** *** arrayToMap *)

(** The separator ["="] the parser passes to [arrayToMap]. *)
Definition sepEq : Ascii.ascii := Ascii.ascii_of_nat 61.

(** [strings.Split(s, sep)] for a separator of one character. *)
Fixpoint split (sep : Ascii.ascii) (s : string) : list string :=
  match s with
  | EmptyString => [EmptyString]
  | String c rest =>
      if decide (c = sep) then EmptyString :: split sep rest
      else match split sep rest with
           | tok :: toks => String c tok :: toks
           | [] => [String c EmptyString]
           end
  end.

(** [log.Fatalf] of the standard logger ends the process, so the
    [continue] after it is never reached. *)
Fixpoint updateMapWithArray (dest : VarMap) (array : list string) (sep : Ascii.ascii)
    : M VarMap :=
  match array with
  | [] => mret dest
  | v :: rest =>
      match split sep v with
      | [key; val] => updateMapWithArray (<[key := val]> dest) rest sep
      | _ => exit
      end
  end.

Definition arrayToMap (array : list string) (sep : Ascii.ascii) : M VarMap :=
  updateMapWithArray ∅ array sep.

(** *** evalMap *)

(** The maps that are not nil are handed to the calculator, in order;
    [evalMap] returns its output or its error. *)
Definition evalMap (E : Env) (maps : list (option VarMap)) : M (VarMap + error) :=
  let args := omap id maps in
  ([args], Returned (doEval E args)).

(** *** parseJobFromFile *)

Definition parseJobFromFile (E : Env) (entry workdir : string)
    (preDefinedVars : option VarMap) : M (option Job) :=
  let entry := workdir +:+ "/" +:+ entry in
  match readFile E entry with
  | None => exit
  | Some data =>
      match unmarshalJob E data with
      | None => mret None
      | Some j =>
          job ← (if decide (jobType j = "odps") then mret NewODPSJob
                 else if decide (jobType j = "hadoop") then mret NewHadoopJob
                 else panic (PanicMsg "unknown job type"));
          let job := SetName (jobName j) job in
          localVar ← arrayToMap (jobVar j) sepEq;
          r ← evalMap E [preDefinedVars; Some localVar];
          match r with
          | inr err => panic (PanicErr err)
          | inl localVar =>
              let job := SetVar localVar job in
              if IsValid E job then mret (Some job)
              else panic (PanicMsg "job is invalid")
          end
      end
  end.

(** *** parseStepFromFile *)

(** The loop over [s.Do]. *)
Fixpoint parseDos (E : Env) (workdir : string) (preDefinedVars : option VarMap)
    (Var : VarMap) (dos : list XMLDo) : M (list (option Job)) :=
  match dos with
  | [] => mret []
  | do :: rest =>
      localVar ← arrayToMap (doArg do) sepEq;
      r ← evalMap E [preDefinedVars; Some Var; Some localVar];
      match r with
      | inr err => panic (PanicErr err)
      | inl localVar =>
          job ← parseJobFromFile E (doRes do) workdir (Some localVar);
          jobs ← parseDos E workdir preDefinedVars Var rest;
          mret (job :: jobs)
      end
  end.

(** The loop over [s.Dep]; [parse] is the recursive call. *)
Fixpoint parseDeps (E : Env) (parse : string -> option VarMap -> M (option Step))
    (preDefinedVars : option VarMap) (Var : VarMap) (deps : list XMLDep)
    : M (list (option Step)) :=
  match deps with
  | [] => mret []
  | dep :: rest =>
      localVar ← arrayToMap (depVar dep) sepEq;
      r ← evalMap E [preDefinedVars; Some Var; Some localVar];
      match r with
      | inr err => panic (PanicErr err)
      | inl localVar =>
          step ← parse (depRes dep) (Some localVar);
          steps ← parseDeps E parse preDefinedVars Var rest;
          mret (step :: steps)
      end
  end.

(** Included steps may include steps: the recursion is bounded by fuel. *)
Fixpoint parseStepFromFile (E : Env) (fuel : nat) (entry workdir : string)
    (preDefinedVars : option VarMap) : M (option Step) :=
  match fuel with
  | O => outOfFuel
  | S fuel' =>
      let entry := workdir +:+ "/" +:+ entry in
      match readFile E entry with
      | None => exit
      | Some data =>
          match unmarshalStep E data with
          | None => mret None
          | Some s =>
              Var ← arrayToMap (stepVar s) sepEq;
              r ← evalMap E [preDefinedVars; Some Var];
              match r with
              | inr err => panic (PanicErr err)
              | inl Var =>
                  dos ← parseDos E workdir preDefinedVars Var (stepDo s);
                  deps ← parseDeps E
                    (fun res vars => parseStepFromFile E fuel' res workdir vars)
                    preDefinedVars Var (stepDep s);
                  mret (Some {| Name_ := stepName s; Var_ := Var;
                                Do := dos; Dep := deps |})
              end
          end
      end
  end.

(** *** Failing evaluations *)

Example split_binding : split sepEq "date=20141110" = ["date"; "20141110"].
Proof. reflexivity. Qed.

Example split_two_separators : split sepEq "a=b=c" = ["a"; "b"; "c"].
Proof. reflexivity. Qed.

(** Whenever one of the recorded calls of the calculator failed, the
    outcome is the panic with its error. *)
Definition failuresPanic {A} (E : Env) (m : M A) : Prop :=
  forall args err, args ∈ m.1 -> doEval E args = inr err ->
    m.2 = Panicked (PanicErr err).

Lemma failuresPanic_silent {A} E (o : Outcome A) : failuresPanic E ([], o).
Proof. intros args err Hin. by apply not_elem_of_nil in Hin. Qed.

Lemma failuresPanic_bind {A B} E (m : M A) (f : A -> M B) :
  failuresPanic E m -> (forall a, failuresPanic E (f a)) ->
  failuresPanic E (m ≫= f).
Proof.
  intros Hm Hf args err. unfold mbind, M_bind.
  destruct m as [calls o]. simpl.
  destruct o as [a|v| |]; simpl; intros Hin He.
  - apply elem_of_app in Hin as [Hin|Hin].
    + specialize (Hm _ _ Hin He). done.
    + exact (Hf a _ _ Hin He).
  - specialize (Hm _ _ Hin He). simpl in Hm. by inversion Hm.
  - specialize (Hm _ _ Hin He). done.
  - specialize (Hm _ _ Hin He). done.
Qed.

(** [evalMap] followed by [if err != nil { panic(err) }]. *)
Lemma failuresPanic_evalMap {A} E maps (k : VarMap -> M A) :
  (forall out, failuresPanic E (k out)) ->
  failuresPanic E
    (evalMap E maps ≫= fun r =>
       match r with
       | inr err => panic (PanicErr err)
       | inl out => k out
       end).
Proof.
  intros Hk args err. unfold mbind, M_bind, evalMap. simpl.
  destruct (doEval E (omap id maps)) as [out|err'] eqn:Hd; simpl.
  - intros Hin He. apply elem_of_cons in Hin as [->|Hin].
    + congruence.
    + exact (Hk out _ _ Hin He).
  - intros Hin He. apply elem_of_cons in Hin as [->|Hin].
    + congruence.
    + by apply not_elem_of_nil in Hin.
Qed.

Lemma failuresPanic_updateMapWithArray E dest array sep :
  failuresPanic E (updateMapWithArray dest array sep).
Proof.
  revert dest. induction array as [|v rest IH]; intros dest; simpl.
  - apply failuresPanic_silent.
  - repeat case_match; try apply failuresPanic_silent. apply IH.
Qed.

Lemma failuresPanic_parseJobFromFile E entry workdir pre :
  failuresPanic E (parseJobFromFile E entry workdir pre).
Proof.
  unfold parseJobFromFile.
  destruct (readFile E _); [|apply failuresPanic_silent].
  destruct (unmarshalJob E _) as [j|]; [|apply failuresPanic_silent].
  apply failuresPanic_bind.
  { repeat case_decide; apply failuresPanic_silent. }
  intros job. apply failuresPanic_bind.
  { apply failuresPanic_updateMapWithArray. }
  intros localVar. apply failuresPanic_evalMap.
  intros out. case_match; apply failuresPanic_silent.
Qed.

Lemma failuresPanic_parseDos E workdir pre Var dos :
  failuresPanic E (parseDos E workdir pre Var dos).
Proof.
  induction dos as [|do rest IH]; cbn [parseDos].
  - apply failuresPanic_silent.
  - apply failuresPanic_bind; [apply failuresPanic_updateMapWithArray|].
    intros localVar. apply failuresPanic_evalMap.
    intros out. apply failuresPanic_bind; [apply failuresPanic_parseJobFromFile|].
    intros job. apply failuresPanic_bind; [apply IH|].
    intros jobs. apply failuresPanic_silent.
Qed.

Lemma failuresPanic_parseDeps E parse pre Var deps :
  (forall res vars, failuresPanic E (parse res vars)) ->
  failuresPanic E (parseDeps E parse pre Var deps).
Proof.
  intros Hp. induction deps as [|dep rest IH]; cbn [parseDeps].
  - apply failuresPanic_silent.
  - apply failuresPanic_bind; [apply failuresPanic_updateMapWithArray|].
    intros localVar. apply failuresPanic_evalMap.
    intros out. apply failuresPanic_bind; [apply Hp|].
    intros step. apply failuresPanic_bind; [apply IH|].
    intros steps. apply failuresPanic_silent.
Qed.

Lemma failuresPanic_parseStepFromFile E fuel entry workdir pre :
  failuresPanic E (parseStepFromFile E fuel entry workdir pre).
Proof.
  revert entry pre.
  induction fuel as [|fuel IH]; intros entry pre; cbn [parseStepFromFile].
  - apply failuresPanic_silent.
  - destruct (readFile E _); [|apply failuresPanic_silent].
    destruct (unmarshalStep E _) as [xs|]; [|apply failuresPanic_silent].
    apply failuresPanic_bind; [apply failuresPanic_updateMapWithArray|].
    intros Var. apply failuresPanic_evalMap.
    intros out. apply failuresPanic_bind; [apply failuresPanic_parseDos|].
    intros dos. apply failuresPanic_bind.
    { apply failuresPanic_parseDeps. intros res vars. apply IH. }
    intros deps. apply failuresPanic_silent.
Qed.

(** A call returns to its caller, with whatever value. *)
Definition returns {A} (m : M A) : Prop := exists a, m.2 = Returned a.

(** The reading under which a failed evaluation makes the parser return
    (an error) to its caller. *)
Definition failureReturns (E : Env) (entry workdir : string)
    (pre : option VarMap) : Prop :=
  forall args err,
    args ∈ (parseJobFromFile E entry workdir pre).1 ->
    doEval E args = inr err ->
    returns (parseJobFromFile E entry workdir pre).

(** A job file whose variable refers to an undefined name. *)
Definition undefinedEnv : Env :=
  {| readFile := fun _ => Some "<job name='j' type='odps'><var>out=${in}</var></job>";
     unmarshalStep := fun _ => None;
     unmarshalJob := fun _ =>
       Some {| jobName := "j"; jobType := "odps"; jobVar := ["out=${in}"] |};
     doEval := fun _ => inr "undefined variable: in";
     IsValid := fun _ => true |}.

(** Counterexample: parsing that job file does not return; it panics with
    the calculator's error. *)
Lemma eval_failure_does_not_return :
  ~ failureReturns undefinedEnv "job.xml" "/flow" None /\
  parseJobFromFile undefinedEnv "job.xml" "/flow" None =
    ([[{["out" := "${in}"]}]], Panicked (PanicErr "undefined variable: in")).
Proof.
  assert (Hrun : parseJobFromFile undefinedEnv "job.xml" "/flow" None =
    ([[{["out" := "${in}"]}]], Panicked (PanicErr "undefined variable: in")))
    by reflexivity.
  split; [|exact Hrun].
  intros H. destruct (H [{["out" := "${in}"]}] "undefined variable: in") as [a Ha].
  - rewrite Hrun. simpl. by left.
  - reflexivity.
  - rewrite Hrun in Ha. discriminate.
Qed.

(** A step file whose own variable refers to an undefined name. *)
Definition undefinedStepEnv : Env :=
  {| readFile := fun _ => Some "<step name='s'><var>day=${yesterday}</var></step>";
     unmarshalStep := fun _ =>
       Some {| stepName := "s"; stepVar := ["day=${yesterday}"];
               stepDep := []; stepDo := [] |};
     unmarshalJob := fun _ => None;
     doEval := fun _ => inr "undefined variable: yesterday";
     IsValid := fun _ => true |}.

Example step_var_failure_panics :
  parseStepFromFile undefinedStepEnv 1 "step.xml" "/flow" None =
    ([[{["day" := "${yesterday}"]}]],
     Panicked (PanicErr "undefined variable: yesterday")).
Proof. reflexivity. Qed.

(** C7 (amended).  Whenever a call of the calculator made while parsing
    fails (at the step-var scope, at a do or dep local-var scope, or at
    the job-var scope, at any depth of inclusion), parsing aborts: the
    outcome of [parseJobFromFile], and of [parseStepFromFile] with any
    fuel, is the panic whose value is the calculator's error.  The parser
    neither returns nor goes on after a failed evaluation. *)
Theorem eval_failure_panics (E : Env) (args : list VarMap) (err : error) :
  doEval E args = inr err ->
  (forall entry workdir pre,
     args ∈ (parseJobFromFile E entry workdir pre).1 ->
     (parseJobFromFile E entry workdir pre).2 = Panicked (PanicErr err)) /\
  (forall fuel entry workdir pre,
     args ∈ (parseStepFromFile E fuel entry workdir pre).1 ->
     (parseStepFromFile E fuel entry workdir pre).2 = Panicked (PanicErr err)).
Proof.
  intros He. split.
  - intros entry workdir pre Hin.
    exact (failuresPanic_parseJobFromFile E entry workdir pre _ _ Hin He).
  - intros fuel entry workdir pre Hin.
    exact (failuresPanic_parseStepFromFile E fuel entry workdir pre _ _ Hin He).
Qed.

Lemma eval_failure_panics_witness :
  doEval undefinedEnv [{["out" := "${in}"]}] = inr "undefined variable: in" /\
  (forall entry workdir pre,
     [{["out" := "${in}"]}] ∈ (parseJobFromFile undefinedEnv entry workdir pre).1 ->
     (parseJobFromFile undefinedEnv entry workdir pre).2 =
       Panicked (PanicErr "undefined variable: in")) /\
  (forall fuel entry workdir pre,
     [{["out" := "${in}"]}] ∈ (parseStepFromFile undefinedEnv fuel entry workdir pre).1 ->
     (parseStepFromFile undefinedEnv fuel entry workdir pre).2 =
       Panicked (PanicErr "undefined variable: in")).
Proof.
  split; [reflexivity|].
  exact (eval_failure_panics undefinedEnv [{["out" := "${in}"]}]
           "undefined variable: in" eq_refl).
Defined.

(** *** arrayToMap: which arrays are accepted, and what they bind *)

(** How often the separator occurs in a string. *)
Fixpoint occurrences (sep : Ascii.ascii) (s : string) : nat :=
  match s with
  | EmptyString => 0
  | String c rest =>
      ((if decide (c = sep) then 1 else 0) + occurrences sep rest)%nat
  end.

(** The entry [key=val]. *)
Definition binding (kv : string * string) : string :=
  kv.1 +:+ String sepEq kv.2.

(** Neither the key nor the value contains the separator. *)
Definition clean (kv : string * string) : Prop :=
  occurrences sepEq kv.1 = 0%nat /\ occurrences sepEq kv.2 = 0%nat.

#[global] Instance clean_dec kv : Decision (clean kv).
Proof. unfold clean. apply _. Defined.

Lemma split_nonempty sep s : split sep s <> [].
Proof.
  destruct s as [|c rest]; simpl; [done|].
  case_decide; [done|]. by destruct (split sep rest).
Qed.

Lemma split_length sep s : length (split sep s) = S (occurrences sep s).
Proof.
  induction s as [|c rest IH]; simpl; [done|].
  case_decide; simpl; [by rewrite IH|].
  destruct (split sep rest) eqn:Hs; simpl in *; [done|]. done.
Qed.

Lemma split_one sep s v :
  split sep s = [v] -> s = v /\ occurrences sep v = 0%nat.
Proof.
  revert v. induction s as [|c rest IH]; intros v; simpl.
  - by intros [= <-].
  - case_decide as Hc.
    + intros [= _ Hrest]. by apply split_nonempty in Hrest.
    + destruct (split sep rest) as [|tok toks] eqn:Hs.
      { by apply split_nonempty in Hs. }
      intros [= <- ->]. destruct (IH tok eq_refl) as [-> Ho].
      split; [done|]. simpl. by rewrite decide_False.
Qed.

Lemma split_two sep s k v :
  split sep s = [k; v] ->
  s = k +:+ String sep v /\ occurrences sep k = 0%nat /\ occurrences sep v = 0%nat.
Proof.
  revert k. induction s as [|c rest IH]; intros k; simpl.
  - done.
  - case_decide as Hc.
    + intros [= <- Hrest]. apply split_one in Hrest as [-> Ho].
      subst c. done.
    + destruct (split sep rest) as [|tok toks] eqn:Hs.
      { by apply split_nonempty in Hs. }
      intros [= <- ->]. destruct (IH tok eq_refl) as (-> & Hk & Hv).
      split; [done|]. split; [|done]. simpl. by rewrite decide_False.
Qed.

Lemma split_clean sep v : occurrences sep v = 0%nat -> split sep v = [v].
Proof.
  induction v as [|c rest IH]; simpl; [done|].
  case_decide; [done|]. intros Ho. by rewrite IH.
Qed.

Lemma split_of_binding sep k v :
  occurrences sep k = 0%nat -> occurrences sep v = 0%nat ->
  split sep (k +:+ String sep v) = [k; v].
Proof.
  intros Hk Hv. induction k as [|c rest IH]; simpl.
  - rewrite decide_True by done. by rewrite split_clean.
  - simpl in Hk. case_decide; [done|]. by rewrite IH.
Qed.

(** The keys a loop of assignments leaves in [dest]. *)
Definition assign (dest : VarMap) (kvs : list (string * string)) : VarMap :=
  foldl (fun d kv => <[kv.1 := kv.2]> d) dest kvs.

Lemma assign_union dest kvs :
  assign dest kvs = list_to_map (reverse kvs) ∪ dest.
Proof.
  unfold VarMap in *.
  revert dest. induction kvs as [|[k v] kvs IH]; intros dest.
  - simpl. by rewrite (left_id_L ∅ (∪)).
  - unfold assign in *. cbn [foldl fst snd]. rewrite IH.
    rewrite reverse_cons, list_to_map_app. cbn [list_to_map foldr fst snd].
    rewrite insert_empty, <- (assoc_L (∪)).
    by rewrite <- insert_union_singleton_l.
Qed.

Lemma updateMapWithArray_bindings dest kvs :
  Forall clean kvs ->
  updateMapWithArray dest (binding <$> kvs) sepEq = ([], Returned (assign dest kvs)).
Proof.
  intros Hc. revert dest. induction Hc as [|[k v] kvs [Hk Hv] _ IH]; intros dest.
  - done.
  - cbn [fmap list_fmap updateMapWithArray]. unfold binding at 1. cbn [fst snd].
    rewrite split_of_binding by done. apply IH.
Qed.

Lemma updateMapWithArray_silent dest array sep :
  (updateMapWithArray dest array sep).1 = [].
Proof.
  revert dest. induction array as [|v rest IH]; intros dest; simpl; [done|].
  repeat case_match; first [done | apply IH].
Qed.

Lemma updateMapWithArray_outcome dest array :
  (Forall (fun v => occurrences sepEq v = 1%nat) array /\
   exists kvs, array = binding <$> kvs /\ Forall clean kvs /\
     updateMapWithArray dest array sepEq = ([], Returned (assign dest kvs))) \/
  (~ Forall (fun v => occurrences sepEq v = 1%nat) array /\
   updateMapWithArray dest array sepEq = ([], Exited)).
Proof.
  revert dest. induction array as [|v rest IH]; intros dest.
  - left. split; [done|]. exists []. done.
  - cbn [updateMapWithArray].
    destruct (split sepEq v) as [|k [|val [|x toks]]] eqn:Hs.
    + by apply split_nonempty in Hs.
    + right. split; [|done]. intros HF. apply Forall_cons in HF as [Ho _].
      pose proof (split_length sepEq v) as Hl. rewrite Hs, Ho in Hl. done.
    + destruct (split_two _ _ _ _ Hs) as (Hv & Hk & Hval).
      assert (Ho : occurrences sepEq v = 1%nat).
      { pose proof (split_length sepEq v) as Hl. rewrite Hs in Hl. simpl in Hl. lia. }
      destruct (IH (<[k := val]> dest)) as [(HF & kvs & -> & Hc & Hr)|(HF & Hr)].
      * left. split; [by constructor|].
        exists ((k, val) :: kvs). split; [by rewrite Hv|].
        split; [by constructor|]. done.
      * right. split; [|done]. intros HF'. apply Forall_cons in HF' as [_ HF'].
        done.
    + right. split; [|done]. intros HF. apply Forall_cons in HF as [Ho _].
      pose proof (split_length sepEq v) as Hl. rewrite Hs, Ho in Hl. done.
Qed.

(** [updateMap(dest, src)] for a map [dest] that is not nil: the map
    [dest] refers to after the call; [order] is the order of the range
    over [src]. *)
Definition updateMap (order : list (string * string) -> list (string * string))
    (dest src : VarMap) : VarMap :=
  assign dest (order (map_to_list src)).

(** *** Sequencing *)

Lemma bind_Returned {A B} (m : M A) (f : A -> M B) calls b :
  m ≫= f = (calls, Returned b) <->
  exists a c1 c2, m = (c1, Returned a) /\ f a = (c2, Returned b) /\
    calls = c1 ++ c2.
Proof.
  unfold mbind, M_bind. destruct m as [c1 [a|v| |]]; cbn [fst snd].
  - split.
    + intros Heq. exists a, c1, (f a).1. split; [done|].
      destruct (f a) as [c2 o]. cbn [fst snd] in *. by inversion Heq.
    + intros (a' & c1' & c2 & [= <- <-] & Hf & ->). by rewrite Hf.
  - split; [done|]. by intros (? & ? & ? & ? & _).
  - split; [done|]. by intros (? & ? & ? & ? & _).
  - split; [done|]. by intros (? & ? & ? & ? & _).
Qed.

Lemma bind_outcome_Returned {A B} (m : M A) (f : A -> M B) b :
  (m ≫= f).2 = Returned b <->
  exists a, m.2 = Returned a /\ (f a).2 = Returned b.
Proof.
  unfold mbind, M_bind. destruct m as [c1 [a|v| |]]; cbn [fst snd].
  - split; [by exists a|]. by intros (a' & [= <-] & Hf).
  - split; [done|]. by intros (? & ? & _).
  - split; [done|]. by intros (? & ? & _).
  - split; [done|]. by intros (? & ? & _).
Qed.

Lemma arrayToMap_Returned array calls m :
  arrayToMap array sepEq = (calls, Returned m) <->
  calls = [] /\ exists kvs, array = binding <$> kvs /\ Forall clean kvs /\
    m = list_to_map (reverse kvs).
Proof.
  unfold arrayToMap. split.
  - intros Hr.
    destruct (updateMapWithArray_outcome ∅ array)
      as [(_ & kvs & Ha & Hc & Hr')|(_ & Hr')]; rewrite Hr' in Hr; [|done].
    inversion Hr; subst calls m. split; [done|]. exists kvs.
    split; [done|]. split; [done|].
    by rewrite assign_union, (right_id_L ∅ (∪)).
  - intros (-> & kvs & -> & Hc & ->).
    rewrite updateMapWithArray_bindings by done.
    by rewrite assign_union, (right_id_L ∅ (∪)).
Qed.

(** The path the parser opens. *)
Definition pathOf (workdir entry : string) : string :=
  workdir +:+ "/" +:+ entry.

(** The file exists and is not the XML of a job (of a step). *)
Definition badJobXML (E : Env) (workdir entry : string) : Prop :=
  exists data, readFile E (pathOf workdir entry) = Some data /\
    unmarshalJob E data = None.

Definition badStepXML (E : Env) (workdir entry : string) : Prop :=
  exists data, readFile E (pathOf workdir entry) = Some data /\
    unmarshalStep E data = None.

Definition kindOf (type : string) : option JobKind :=
  if decide (type = "odps") then Some ODPS
  else if decide (type = "hadoop") then Some Hadoop
  else None.

Lemma parseJobFromFile_Returned E entry workdir pre calls r :
  parseJobFromFile E entry workdir pre = (calls, Returned r) <->
  match r with
  | None => calls = [] /\ badJobXML E workdir entry
  | Some job =>
      exists data j kvs,
        readFile E (pathOf workdir entry) = Some data /\
        unmarshalJob E data = Some j /\
        kindOf (jobType j) = Some (Kind job) /\
        Name job = jobName j /\
        jobVar j = binding <$> kvs /\ Forall clean kvs /\
        calls = [omap id [pre; Some (list_to_map (reverse kvs))]] /\
        doEval E (omap id [pre; Some (list_to_map (reverse kvs))]) = inl (Var job) /\
        IsValid E job = true
  end.
Proof.
  unfold parseJobFromFile, badJobXML, pathOf.
  destruct (readFile E _) as [data|] eqn:Hread.
  2: { split; [done|]. destruct r; [by intros (? & ? & ? & ? & _)|].
       by intros (_ & ? & ? & _). }
  destruct (unmarshalJob E data) as [j|] eqn:Hx.
  2: { split.
       - intros [= <- <-]. split; [done|]. by exists data.
       - destruct r as [job|].
         + intros (d & j & kvs & Hr & Hj & _). congruence.
         + by intros (-> & _). }
  rewrite bind_Returned. split.
  - intros (job0 & c1 & c2 & Hk & Hrest & ->).
    apply bind_Returned in Hrest as (lv & c3 & c4 & Ha & Hrest & ->).
    apply arrayToMap_Returned in Ha as (-> & kvs & Hv & Hc & ->).
    apply bind_Returned in Hrest as (ev & c5 & c6 & He & Hrest & ->).
    unfold evalMap in He. inversion He as [[Hc5 Hev]]. subst ev. clear He.
    destruct (doEval E _) as [out|err] eqn:Hd; [|done].
    destruct (IsValid E _) eqn:Hvalid; [|done].
    inversion Hrest; subst c6 r. clear Hrest.
    exists data, j, kvs. unfold kindOf.
    repeat case_decide; inversion Hk; subst; cbn; by rewrite ?Hd.
  - destruct r as [job|]; [|intros (_ & d & Hr & ?); congruence].
    intros (d & j' & kvs & Hr & Hj & Hk & Hn & Hv & Hc & -> & Hd & Hvalid).
    assert (d = data) by congruence. subst d.
    assert (j' = j) by congruence. subst j'.
    exists {| Kind := Kind job; Name := ""; Var := ∅ |}, [],
      [omap id [pre; Some (list_to_map (reverse kvs))]].
    split.
    { unfold kindOf in Hk.
      repeat case_decide; try done; injection Hk as <-; done. }
    split; [|done].
    apply bind_Returned.
    exists (list_to_map (reverse kvs)), [],
      [omap id [pre; Some (list_to_map (reverse kvs))]].
    split; [apply arrayToMap_Returned; split; [done|]; by exists kvs|].
    split; [|done].
    apply bind_Returned.
    exists (inl (Var job)), [omap id [pre; Some (list_to_map (reverse kvs))]], [].
    split; [unfold evalMap; by rewrite Hd|]. split; [|done].
    assert (Hjob : SetVar (Var job) (SetName (jobName j)
                     {| Kind := Kind job; Name := ""; Var := ∅ |}) = job).
    { destruct job. simpl in *. by subst. }
    rewrite Hjob, Hvalid. done.
Qed.


(** *** What the parser returns *)

(** What one [<do>] of a step file leaves in [step.Do]: nil when the job
    file is not the XML of a job, else a valid job named and typed as
    the file says. *)
Definition doResult (E : Env) (workdir : string) (do : XMLDo)
    (job : option Job) : Prop :=
  match job with
  | None => badJobXML E workdir (doRes do)
  | Some job =>
      IsValid E job = true /\
      exists data j,
        readFile E (pathOf workdir (doRes do)) = Some data /\
        unmarshalJob E data = Some j /\
        Name job = jobName j /\ kindOf (jobType j) = Some (Kind job)
  end.

(** The tree of steps [r] mirrors the step file [entry] and the files it
    includes. *)
#[local] Unset Elimination Schemes.
Inductive stepOf (E : Env) (workdir : string) : string -> option Step -> Prop :=
| stepOf_nil entry :
    badStepXML E workdir entry -> stepOf E workdir entry None
| stepOf_step entry data s step :
    readFile E (pathOf workdir entry) = Some data ->
    unmarshalStep E data = Some s ->
    Name_ step = stepName s ->
    Forall2 (doResult E workdir) (stepDo s) (Do step) ->
    Forall2 (fun dep sub => stepOf E workdir (depRes dep) sub)
      (stepDep s) (Dep step) ->
    stepOf E workdir entry (Some step).
#[local] Set Elimination Schemes.

Lemma parseDos_Returned E workdir pre Var dos calls jobs :
  parseDos E workdir pre Var dos = (calls, Returned jobs) ->
  Forall2 (doResult E workdir) dos jobs.
Proof.
  revert calls jobs. induction dos as [|do rest IH]; intros calls jobs;
    cbn [parseDos].
  - intros [= <- <-]. constructor.
  - intros Hr.
    apply bind_Returned in Hr as (lv & c1 & c2 & _ & Hr & ->).
    apply bind_Returned in Hr as (ev & c3 & c4 & _ & Hr & ->).
    destruct ev as [out|err]; [|done].
    apply bind_Returned in Hr as (job & c5 & c6 & Hjob & Hr & ->).
    apply bind_Returned in Hr as (jobs' & c7 & c8 & Hjobs & Hr & ->).
    inversion Hr; subst c8 jobs. constructor; [|by eapply IH].
    apply parseJobFromFile_Returned in Hjob. destruct job as [job|].
    + destruct Hjob as (data & j & kvs & ? & ? & ? & ? & _ & _ & _ & _ & ?).
      split; [done|]. by exists data, j.
    + by destruct Hjob.
Qed.

Lemma parseDeps_Returned E workdir parse pre Var deps calls subs :
  (forall res vars c sub, parse res vars = (c, Returned sub) ->
     stepOf E workdir res sub) ->
  parseDeps E parse pre Var deps = (calls, Returned subs) ->
  Forall2 (fun dep sub => stepOf E workdir (depRes dep) sub) deps subs.
Proof.
  intros Hp. revert calls subs.
  induction deps as [|dep rest IH]; intros calls subs; cbn [parseDeps].
  - intros [= <- <-]. constructor.
  - intros Hr.
    apply bind_Returned in Hr as (lv & c1 & c2 & _ & Hr & ->).
    apply bind_Returned in Hr as (ev & c3 & c4 & _ & Hr & ->).
    destruct ev as [out|err]; [|done].
    apply bind_Returned in Hr as (sub & c5 & c6 & Hsub & Hr & ->).
    apply bind_Returned in Hr as (subs' & c7 & c8 & Hsubs & Hr & ->).
    inversion Hr; subst c8 subs. constructor; [by eapply Hp|by eapply IH].
Qed.

Lemma parseStepFromFile_stepOf E fuel entry workdir pre calls r :
  parseStepFromFile E fuel entry workdir pre = (calls, Returned r) ->
  stepOf E workdir entry r.
Proof.
  revert entry pre calls r.
  induction fuel as [|fuel IH]; intros entry pre calls r;
    cbn [parseStepFromFile]; [done|].
  destruct (readFile E _) as [data|] eqn:Hread; [|done].
  destruct (unmarshalStep E data) as [s|] eqn:Hx.
  2: { intros [= <- <-]. apply stepOf_nil. by exists data. }
  intros Hr.
  apply bind_Returned in Hr as (lv & c1 & c2 & _ & Hr & ->).
  apply bind_Returned in Hr as (ev & c3 & c4 & _ & Hr & ->).
  destruct ev as [out|err]; [|done].
  apply bind_Returned in Hr as (dos & c5 & c6 & Hdos & Hr & ->).
  apply bind_Returned in Hr as (deps & c7 & c8 & Hdeps & Hr & ->).
  inversion Hr; subst c8 r.
  eapply stepOf_step; [exact Hread|exact Hx|done| |]; cbn [Do Dep].
  - by eapply parseDos_Returned.
  - eapply parseDeps_Returned; [|exact Hdeps].
    intros res vars c sub Hsub. exact (IH _ _ _ _ Hsub).
Qed.

Lemma parseDeps_stuck E parse pre Var deps dep :
  (forall vars sub, (parse (depRes dep) vars).2 <> Returned sub) ->
  dep ∈ deps ->
  forall subs, (parseDeps E parse pre Var deps).2 <> Returned subs.
Proof.
  intros Hp Hin. induction deps as [|d rest IH]; [by apply not_elem_of_nil in Hin|].
  intros subs. cbn [parseDeps]. intros Hr.
  apply bind_outcome_Returned in Hr as (lv & _ & Hr).
  apply bind_outcome_Returned in Hr as (ev & _ & Hr).
  destruct ev as [out|err]; [|done].
  apply bind_outcome_Returned in Hr as (sub & Hsub & Hr).
  apply bind_outcome_Returned in Hr as (subs' & Hsubs & _).
  apply elem_of_cons in Hin as [->|Hin].
  - by apply Hp in Hsub.
  - by apply IH in Hsubs.
Qed.

(** A set of step files each of which includes a file of the set. *)
Definition includeCycle (E : Env) (workdir : string) (P : string -> Prop) : Prop :=
  forall entry, P entry ->
    exists data s dep,
      readFile E (pathOf workdir entry) = Some data /\
      unmarshalStep E data = Some s /\
      dep ∈ stepDep s /\ P (depRes dep).

Lemma includeCycle_stuck E workdir P fuel :
  includeCycle E workdir P ->
  forall entry pre r, P entry ->
    (parseStepFromFile E fuel entry workdir pre).2 <> Returned r.
Proof.
  intros Hcyc. induction fuel as [|fuel IH]; intros entry pre r HP;
    cbn [parseStepFromFile]; [done|].
  destruct (Hcyc entry HP) as (data & s & dep & Hread & Hx & Hin & HP').
  unfold pathOf in Hread. rewrite Hread, Hx. intros Hr.
  apply bind_outcome_Returned in Hr as (lv & _ & Hr).
  apply bind_outcome_Returned in Hr as (ev & _ & Hr).
  destruct ev as [out|err]; [|done].
  apply bind_outcome_Returned in Hr as (dos & _ & Hr).
  apply bind_outcome_Returned in Hr as (deps & Hdeps & _).
  revert Hdeps. eapply parseDeps_stuck; [|exact Hin].
  intros vars sub. by apply IH.
Qed.

Lemma lookup_last_binding (kvs : list (string * string)) k v :
  (list_to_map (reverse kvs) : VarMap) !! k = Some v <->
  exists pre post, kvs = pre ++ (k, v) :: post /\ k ∉ post.*1.
Proof.
  unfold VarMap. revert v. induction kvs as [|[k' v'] l IH] using rev_ind; intros v.
  - rewrite reverse_nil. cbn [list_to_map foldr]. rewrite lookup_empty.
    split; [done|]. intros (pre & post & Heq & _). by destruct pre.
  - rewrite reverse_snoc. cbn [list_to_map foldr fst snd].
    destruct (decide (k = k')) as [<-|Hne].
    + rewrite lookup_insert_eq. split.
      * intros [= <-]. exists l, []. split; [done|]. apply not_elem_of_nil.
      * intros (pre & post & Heq & Hnot).
        destruct post as [|p post _] using rev_ind.
        { apply app_inj_tail in Heq as [_ [= ->]]. done. }
        rewrite app_comm_cons, app_assoc in Heq.
        apply app_inj_tail in Heq as [_ <-].
        exfalso. apply Hnot. rewrite fmap_app. apply elem_of_app. right.
        by left.
    + rewrite lookup_insert_ne by done. rewrite IH. split.
      * intros (pre & post & -> & Hnot).
        exists pre, (post ++ [(k', v')]).
        split; [by rewrite <- app_assoc|].
        rewrite fmap_app. intros Hin. apply elem_of_app in Hin as [Hin|Hin]; [done|].
        apply list_elem_of_singleton in Hin. done.
      * intros (pre & post & Heq & Hnot).
        destruct post as [|p post _] using rev_ind.
        { apply app_inj_tail in Heq as [_ [= <- <-]]. done. }
        rewrite app_comm_cons, app_assoc in Heq.
        apply app_inj_tail in Heq as [-> <-].
        exists pre, post. split; [done|].
        intros Hin. apply Hnot. rewrite fmap_app. apply elem_of_app. by left.
Qed.

(** *** Examples *)

Definition dated : list (string * string) :=
  [("day", "20141110"); ("out", "/tmp"); ("day", "20141111")].

(** A step file that includes itself. *)
Definition loopEnv : Env :=
  {| readFile := fun _ => Some "<step name='s'><dep><res>s.xml</res></dep></step>";
     unmarshalStep := fun _ =>
       Some {| stepName := "s"; stepVar := [];
               stepDep := [{| depRes := "s.xml"; depVar := [] |}];
               stepDo := [] |};
     unmarshalJob := fun _ => None;
     doEval := fun _ => inl ∅;
     IsValid := fun _ => true |}.

(** A step with one job, whose file is not the XML of a job. *)
Definition nilJobEnv : Env :=
  {| readFile := fun path => Some path;
     unmarshalStep := fun data =>
       if decide (data = "/flow/step.xml")
       then Some {| stepName := "daily"; stepVar := ["day=1"];
                    stepDep := [];
                    stepDo := [{| doRes := "job.xml"; doArg := [] |}] |}
       else None;
     unmarshalJob := fun _ => None;
     doEval := fun maps => inl (default ∅ (last maps));
     IsValid := fun _ => true |}.

Definition dayOne : VarMap := {["day" := "1"]}.

Definition nilJobStep : option Step :=
  Some {| Name_ := "daily"; Var_ := dayOne; Do := [None]; Dep := [] |}.

Definition nilJobCalls : list (list VarMap) := [[dayOne]; [dayOne; ∅]].

(** *** Theorems *)

(** [arrayToMap] never consults the calculator; it returns a map exactly
    when every entry of the array contains the separator once, and ends
    the process ([log.Fatalf]) exactly when some entry does not. *)
Theorem arrayToMap_returns_iff_well_formed (array : list string) :
  (arrayToMap array sepEq).1 = [] /\
  ((exists m, (arrayToMap array sepEq).2 = Returned m) <->
   Forall (fun v => occurrences sepEq v = 1%nat) array) /\
  ((arrayToMap array sepEq).2 = Exited <->
   Exists (fun v => occurrences sepEq v <> 1%nat) array).
Proof.
  split; [apply updateMapWithArray_silent|].
  unfold arrayToMap.
  destruct (updateMapWithArray_outcome ∅ array)
    as [(HF & kvs & _ & _ & Hr)|(HF & Hr)]; rewrite Hr; cbn [snd].
  - split; [split; [done|by eexists]|].
    split; [done|]. intros HE. apply Exists_not_Forall in HE. done.
  - split.
    + split; [by intros [m Hm]|done].
    + split; [|done]. intros _. by apply not_Forall_Exists; [apply _|].
Qed.

(** For an array of entries [key=val], [arrayToMap] returns the map in
    which each key is bound to the value of its last entry: later entries
    overwrite earlier ones. *)
Theorem arrayToMap_last_binding_wins (kvs : list (string * string)) :
  Forall clean kvs ->
  exists m, arrayToMap (binding <$> kvs) sepEq = ([], Returned m) /\
    forall k v, m !! k = Some v <->
      exists pre post, kvs = pre ++ (k, v) :: post /\ k ∉ post.*1.
Proof.
  intros Hc. exists (list_to_map (reverse kvs)). split.
  - apply arrayToMap_Returned. split; [done|]. by exists kvs.
  - intros k v. apply lookup_last_binding.
Qed.

Lemma arrayToMap_last_binding_wins_witness :
  Forall clean dated /\
  exists m, arrayToMap (binding <$> dated) sepEq = ([], Returned m) /\
    forall k v, m !! k = Some v <->
      exists pre post, dated = pre ++ (k, v) :: post /\ k ∉ post.*1.
Proof.
  assert (Hc : Forall clean dated).
  { apply (bool_decide_unpack _). vm_compute. exact I. }
  split; [exact Hc|].
  exact (arrayToMap_last_binding_wins dated Hc).
Defined.

(** [updateMap(dest, src)] leaves in [dest] the union of the two maps in
    which [src] wins on the common keys, whatever the order in which Go
    ranges over [src]. *)
Theorem updateMap_union (order : list (string * string) -> list (string * string))
    (dest src : VarMap) :
  order (map_to_list src) ≡ₚ map_to_list src ->
  updateMap order dest src = src ∪ dest /\
  forall k, updateMap order dest src !! k =
    match src !! k with
    | Some v => Some v
    | None => dest !! k
    end.
Proof.
  intros Hperm.
  assert (Heq : updateMap order dest src = src ∪ dest).
  { unfold updateMap. rewrite assign_union. f_equal.
    unfold VarMap in *.
    rewrite <- (list_to_map_to_list src) at 2.
    apply list_to_map_proper.
    - rewrite reverse_Permutation, Hperm. apply NoDup_fst_map_to_list.
    - by rewrite reverse_Permutation. }
  split; [exact Heq|].
  intros k. rewrite Heq. unfold VarMap in *. rewrite lookup_union.
  destruct (src !! k), (dest !! k); done.
Qed.

Lemma updateMap_union_witness :
  reverse (map_to_list ({["day" := "2"]} : VarMap)) ≡ₚ
    map_to_list ({["day" := "2"]} : VarMap) /\
  updateMap reverse {["day" := "1"; "out" := "/tmp"]} {["day" := "2"]} =
    {["day" := "2"]} ∪ {["day" := "1"; "out" := "/tmp"]} /\
  forall k, updateMap reverse {["day" := "1"; "out" := "/tmp"]} {["day" := "2"]} !! k =
    match ({["day" := "2"]} : VarMap) !! k with
    | Some v => Some v
    | None => ({["day" := "1"; "out" := "/tmp"]} : VarMap) !! k
    end.
Proof.
  assert (Hp : reverse (map_to_list ({["day" := "2"]} : VarMap)) ≡ₚ
               map_to_list ({["day" := "2"]} : VarMap))
    by apply reverse_Permutation.
  split; [exact Hp|].
  exact (updateMap_union reverse {["day" := "1"; "out" := "/tmp"]}
           {["day" := "2"]} Hp).
Defined.

(** [parseJobFromFile] returns a job exactly when the file can be read
    and is the XML of a job of type "odps" or "hadoop", every [<var>] is
    an entry [key=val], the calculator accepts the predefined variables
    followed by the file's own, and the job is valid.  The job is of the
    kind the type names, carries the name of the file's root element and
    the output of the calculator as its variables, and the calculator
    has been called once. *)
Theorem parseJobFromFile_returns_job (E : Env) (entry workdir : string)
    (pre : option VarMap) (calls : list (list VarMap)) (job : Job) :
  parseJobFromFile E entry workdir pre = (calls, Returned (Some job)) <->
  exists data j kvs,
    readFile E (pathOf workdir entry) = Some data /\
    unmarshalJob E data = Some j /\
    kindOf (jobType j) = Some (Kind job) /\
    Name job = jobName j /\
    jobVar j = binding <$> kvs /\ Forall clean kvs /\
    calls = [omap id [pre; Some (list_to_map (reverse kvs))]] /\
    doEval E (omap id [pre; Some (list_to_map (reverse kvs))]) = inl (Var job) /\
    IsValid E job = true.
Proof. apply (parseJobFromFile_Returned E entry workdir pre calls (Some job)). Qed.

(** [parseJobFromFile] returns nil exactly when the file can be read but
    is not the XML of a job; nothing is logged or evaluated then.  (An
    unreadable file ends the process instead.) *)
Theorem parseJobFromFile_nil_iff_bad_xml (E : Env) (entry workdir : string)
    (pre : option VarMap) :
  ((parseJobFromFile E entry workdir pre).2 = Returned None <->
   badJobXML E workdir entry) /\
  (readFile E (pathOf workdir entry) = None ->
   parseJobFromFile E entry workdir pre = ([], Exited)) /\
  (badJobXML E workdir entry ->
   parseJobFromFile E entry workdir pre = ([], Returned None)).
Proof.
  assert (Hbad : badJobXML E workdir entry ->
                 parseJobFromFile E entry workdir pre = ([], Returned None)).
  { intros Hb. by apply parseJobFromFile_Returned. }
  split; [|split; [|exact Hbad]].
  - split.
    + intros Hr.
      destruct (parseJobFromFile E entry workdir pre) as [calls o] eqn:Hp.
      cbn [snd] in Hr. subst o.
      apply parseJobFromFile_Returned in Hp. by destruct Hp.
    + intros Hb. by rewrite (Hbad Hb).
  - intros Hread. unfold parseJobFromFile, pathOf in *. by rewrite Hread.
Qed.

(** Whatever [parseStepFromFile] returns mirrors the files: nil when the
    step file is not the XML of a step; else a step with the name of the
    file's root element, one entry of [Do] per [<do>] and one entry of
    [Dep] per [<dep>], in the order of the file, where the entry of a
    [<do>] is nil when its job file is not the XML of a job (and a valid
    job named as that file says otherwise), and the entry of a [<dep>]
    mirrors the included file in the same way. *)
Theorem parseStepFromFile_mirrors_files (E : Env) (fuel : nat)
    (entry workdir : string) (pre : option VarMap)
    (calls : list (list VarMap)) (r : option Step) :
  parseStepFromFile E fuel entry workdir pre = (calls, Returned r) ->
  stepOf E workdir entry r /\
  match r with
  | None => calls = []
  | Some step =>
      exists data s, readFile E (pathOf workdir entry) = Some data /\
        unmarshalStep E data = Some s /\
        length (Do step) = length (stepDo s) /\
        length (Dep step) = length (stepDep s)
  end.
Proof.
  intros Hr. pose proof (parseStepFromFile_stepOf _ _ _ _ _ _ _ Hr) as Hs.
  split; [exact Hs|]. destruct r as [step|].
  - inversion Hs as [|? data s ? Hread Hx _ Hdo Hdep]; subst.
    exists data, s. split; [done|]. split; [done|].
    split; symmetry; by eapply Forall2_length.
  - destruct fuel as [|fuel]; [done|]. cbn [parseStepFromFile] in Hr.
    destruct (readFile E _) as [data|]; [|done].
    destruct (unmarshalStep E data) as [s|]; [|by inversion Hr].
    apply bind_Returned in Hr as (lv & c1 & c2 & _ & Hr & ->).
    apply bind_Returned in Hr as (ev & c3 & c4 & _ & Hr & ->).
    destruct ev as [out|err]; [|done].
    apply bind_Returned in Hr as (dos & c5 & c6 & _ & Hr & ->).
    apply bind_Returned in Hr as (deps & c7 & c8 & _ & Hr & ->).
    inversion Hr.
Qed.

Lemma parseStepFromFile_mirrors_files_witness :
  parseStepFromFile nilJobEnv 1 "step.xml" "/flow" None =
    (nilJobCalls, Returned nilJobStep) /\
  stepOf nilJobEnv "/flow" "step.xml" nilJobStep /\
  match nilJobStep with
  | None => nilJobCalls = []
  | Some step =>
      exists data s, readFile nilJobEnv (pathOf "/flow" "step.xml") = Some data /\
        unmarshalStep nilJobEnv data = Some s /\
        length (Do step) = length (stepDo s) /\
        length (Dep step) = length (stepDep s)
  end.
Proof.
  assert (Hr : parseStepFromFile nilJobEnv 1 "step.xml" "/flow" None =
    (nilJobCalls, Returned nilJobStep))
    by (vm_compute; reflexivity).
  split; [exact Hr|].
  exact (parseStepFromFile_mirrors_files nilJobEnv 1 "step.xml" "/flow" None
           _ nilJobStep Hr).
Defined.

(** The parser does not detect cyclic includes: when a step file belongs
    to a set of readable step files each of which includes a file of the
    set, [parseStepFromFile] does not return for it, however deep the
    recursion is allowed to go. *)
Theorem cyclic_include_never_returns (E : Env) (workdir : string)
    (P : string -> Prop) (fuel : nat) (entry : string) (pre : option VarMap)
    (r : option Step) :
  includeCycle E workdir P ->
  P entry ->
  (parseStepFromFile E fuel entry workdir pre).2 <> Returned r.
Proof. intros Hcyc HP. by eapply includeCycle_stuck. Qed.

Lemma cyclic_include_never_returns_witness :
  includeCycle loopEnv "/flow" (fun entry => entry = "s.xml") /\
  "s.xml" = "s.xml" /\
  (parseStepFromFile loopEnv 5 "s.xml" "/flow" None).2 <> Returned None.
Proof.
  assert (Hcyc : includeCycle loopEnv "/flow" (fun entry => entry = "s.xml")).
  { intros entry ->. eexists _, _, {| depRes := "s.xml"; depVar := [] |}.
    split; [reflexivity|]. split; [reflexivity|]. split; [by left|reflexivity]. }
  split; [exact Hcyc|]. split; [reflexivity|].
  exact (cyclic_include_never_returns loopEnv "/flow" (fun entry => entry = "s.xml")
           5 "s.xml" None None Hcyc eq_refl).
Defined.


End Flow.
